(** * codex-reflection: the reflection-loop engine and its utilities

    A shallow embedding of the TypeScript sources
    [reflectionUtils] (key-path accessor, JSONL checkpoint store, edit
    distance, verse references and ranges, overridden references),
    [gradeReflectLoop] (grade aggregator, finalization, engine tick),
    [reflectionWorker] (ingestion, reset, notebooks, modification times
    of the files) and of the log view, followed by the properties of the
    specification that concern them and by further properties of the
    code.

    Conventions of the embedding:
    - a JavaScript value is a term of [Js.value]; a property that is
      absent from an object is [None] where the code distinguishes absence
      ([in], [??]) and reads as [VUndefined];
    - a function that can throw returns [Js.outcome];
    - an object that the code mutates in place is threaded through: the
      function returns the updated object;
    - grades are integers, averages are rationals ([Q], kept in lowest
      terms), where the program has IEEE doubles. *)

From Stdlib Require Import ZArith QArith List String Ascii Bool Lia.
From stdpp Require Import base option list strings pretty gmap.

Open Scope Z_scope.

#[local] Set Warnings "-register-all".

(** ** The JavaScript runtime, as far as the sources use it *)

Module Js.

(** Members that every plain object inherits: [Object.prototype] itself
    (reached through the [__proto__] accessor) and its methods. *)
Inductive native : Type :=
| ObjectPrototype
| PrototypeMember (name : string).

Inductive value : Type :=
| VUndefined
| VNull
| VBool (b : bool)
| VNum (q : Q)
| VStr (s : string)
| VArr (elems : list value)
| VObj (props : list (string * value))
| VNative (n : native).

Inductive error : Type :=
| TypeError          (* thrown by the runtime *)
| SyntaxError        (* thrown by [JSON.parse] *)
| ENOENT             (* a file that is not there *)
| Unmodelled.        (* an operation this model does not describe *)

Inductive outcome (A : Type) : Type :=
| Ok (a : A)
| Throw (e : error).
Arguments Ok {A} a.
Arguments Throw {A} e.

Definition bind {A B} (m : outcome A) (k : A -> outcome B) : outcome B :=
  match m with
  | Ok a => k a
  | Throw e => Throw e
  end.

(** A key of a key path: [(string | number)]; number keys are the
    integers that index arrays. *)
Inductive key : Type :=
| KStr (s : string)
| KNum (n : Z).

(** ToPropertyKey: a number key names the property spelled by its
    decimal digits. *)
Definition prop_name (k : key) : string :=
  match k with
  | KStr s => s
  | KNum n => pretty n
  end.

(** The own property names of [Object.prototype]. *)
Definition Object_prototype_names : list string :=
  [ "constructor"; "__defineGetter__"; "__defineSetter__";
    "hasOwnProperty"; "__lookupGetter__"; "__lookupSetter__";
    "isPrototypeOf"; "propertyIsEnumerable"; "toString"; "valueOf";
    "__proto__"; "toLocaleString" ]%string.

Definition inherited (name : string) : bool :=
  bool_decide (name ∈ Object_prototype_names).
#[global] Arguments inherited : simpl never.

Fixpoint own (props : list (string * value)) (name : string) : option value :=
  match props with
  | [] => None
  | (k, v) :: rest => if String.eqb k name then Some v else own rest name
  end.

Definition Array_isArray (v : value) : bool :=
  match v with VArr _ => true | _ => false end.

(** [typeof v === 'object'] *)
Definition typeof_object (v : value) : bool :=
  match v with
  | VNull | VArr _ | VObj _ | VNative ObjectPrototype => true
  | _ => false
  end.

Definition is_null (v : value) : bool :=
  match v with VNull => true | _ => false end.

(** [v === null || v === undefined] *)
Definition nullish (v : value) : bool :=
  match v with VNull | VUndefined => true | _ => false end.

(** ToBoolean *)
Definition truthy (v : value) : bool :=
  match v with
  | VUndefined | VNull => false
  | VBool b => b
  | VNum q => negb (Qeq_bool q 0)
  | VStr s => negb (String.eqb s "")
  | VArr _ | VObj _ | VNative _ => true
  end.

(** What the prototype chain of a plain object answers for [name]. *)
Definition inherited_member (name : string) : value :=
  if String.eqb name "__proto__" then VNative ObjectPrototype
  else VNative (PrototypeMember name).

(** [k in v]: a TypeError unless [v] is an object.  The properties of
    arrays other than their indices and [length], and those of function
    objects, are not described. *)
Definition has_property (k : key) (v : value) : outcome bool :=
  match v with
  | VObj props =>
      Ok (bool_decide (is_Some (own props (prop_name k)))
          || inherited (prop_name k))
  | VNative ObjectPrototype => Ok (inherited (prop_name k))
  | VArr elems =>
      match k with
      | KNum n => if (0 <=? n) && (n <? Z.of_nat (length elems)) then Ok true
                  else Throw Unmodelled
      | KStr s => if String.eqb s "length" then Ok true else Throw Unmodelled
      end
  | VNative (PrototypeMember _) => Throw Unmodelled
  | VUndefined | VNull | VBool _ | VNum _ | VStr _ => Throw TypeError
  end.

(** [v[k]]: a TypeError on [null] and [undefined]; members of the
    wrappers of primitives are not described. *)
Definition get (v : value) (k : key) : outcome value :=
  match v with
  | VObj props =>
      match own props (prop_name k) with
      | Some x => Ok x
      | None => if inherited (prop_name k)
                then Ok (inherited_member (prop_name k))
                else Ok VUndefined
      end
  | VNative ObjectPrototype =>
      if String.eqb (prop_name k) "__proto__" then Ok VNull
      else if inherited (prop_name k)
           then Ok (VNative (PrototypeMember (prop_name k)))
           else Ok VUndefined
  | VArr elems =>
      match k with
      | KNum n => if (0 <=? n) && (n <? Z.of_nat (length elems))
                  then Ok (nth (Z.to_nat n) elems VUndefined)
                  else Throw Unmodelled
      | KStr s => if String.eqb s "length"
                  then Ok (VNum (inject_Z (Z.of_nat (length elems))))
                  else Throw Unmodelled
      end
  | VNative (PrototypeMember _) => Throw Unmodelled
  | VBool _ | VNum _ | VStr _ => Throw Unmodelled
  | VUndefined | VNull => Throw TypeError
  end.

(** [obj[name] = x] on the property list of a plain object: an existing
    own property keeps its place, a new one is added last. *)
Fixpoint put (props : list (string * value)) (name : string) (x : value)
  : list (string * value) :=
  match props with
  | [] => [(name, x)]
  | (k, v) :: rest =>
      if String.eqb k name then (k, x) :: rest
      else (k, v) :: put rest name x
  end.

(** [obj[name] = x].  Strict mode (every source file is a module): a
    TypeError on primitives.  Assigning through the inherited
    [__proto__] accessor, to arrays by name, or to built-in objects is
    not described. *)
Definition assign (obj : value) (name : string) (x : value) : outcome value :=
  match obj with
  | VObj props =>
      if String.eqb name "__proto__" && negb (bool_decide (is_Some (own props name)))
      then Throw Unmodelled
      else Ok (VObj (put props name x))
  | VArr _ | VNative _ => Throw Unmodelled
  | VUndefined | VNull | VBool _ | VNum _ | VStr _ => Throw TypeError
  end.

(** [v === w] between a value read from a verse and a value of the
    configuration: two objects of different origin are never the same
    object. *)
Definition strict_eq (v w : value) : bool :=
  match v, w with
  | VUndefined, VUndefined => true
  | VNull, VNull => true
  | VBool a, VBool b => Bool.eqb a b
  | VNum a, VNum b => Qeq_bool a b
  | VStr a, VStr b => String.eqb a b
  | _, _ => false
  end.

(** [v === s] for a string [s]. *)
Definition strict_eq_str (v : value) (s : string) : bool :=
  match v with VStr t => String.eqb t s | _ => false end.

End Js.

Import Js.

Notation "'let!' x ':=' m 'in' k" := (Js.bind m (fun x => k))
  (at level 10, x name, m at level 100, k at level 200).

(** ** reflectionUtils: key-path accessor *)

Module reflectionUtils.

(** [lookUpKey(data, keys, defaultValue, noneIsValid)]: the [for] loop
    over [keys], with [current] as the loop variable. *)
Fixpoint lookUpKey_loop (current : value) (keys : list key)
         (defaultValue : value) (noneIsValid : bool) : outcome value :=
  match keys with
  | [] =>
      if is_null current && negb noneIsValid then Ok defaultValue
      else Ok current
  | k :: rest =>
      if Array_isArray current then
        match current, k with
        | VArr elems, KNum n =>
            if (n <? 0) || (n >=? Z.of_nat (length elems)) then Ok defaultValue
            else
              let! next := get current k in
              lookUpKey_loop next rest defaultValue noneIsValid
        | _, _ => Ok defaultValue
        end
      else if typeof_object current && negb (is_null current) then
        let! present := has_property k current in
        if present then
          let! next := get current k in
          lookUpKey_loop next rest defaultValue noneIsValid
        else Ok defaultValue
      else Ok defaultValue
  end.

Definition lookUpKey (data : value) (keys : list key)
           (defaultValue : value) (noneIsValid : bool) : outcome value :=
  lookUpKey_loop data keys defaultValue noneIsValid.

(** [setKey(data, keys, value)].  The loop runs over
    [keys.slice(0, -1)], creating missing intermediate objects; the last
    key is assigned.  For an empty [keys], [keys[keys.length - 1]] is
    [undefined], which names the property ["undefined"].  The nested
    object is mutated in place, so the parent sees the update. *)
Fixpoint setKey_loop (current : value) (keys : list string) (x : value)
  : outcome value :=
  match keys with
  | [] => assign current "undefined" x
  | k :: rest =>
      match rest with
      | [] => assign current k x
      | _ :: _ =>
          let! present := has_property (KStr k) current in
          let! current1 := (if present then Ok current
                       else assign current k (VObj [])) in
          let! child := get current1 (KStr k) in
          let! child' := setKey_loop child rest x in
          assign current1 k child'
      end
  end.

Definition setKey (data : value) (keys : list string) (x : value)
  : outcome value :=
  setKey_loop data keys x.

(** The value reached from [data] along [keys] when every step passes
    the guards of [lookUpKey]; [None] when some step takes an early
    [return defaultValue]. *)
Fixpoint walk (current : value) (keys : list key) : option value :=
  match keys with
  | [] => Some current
  | k :: rest =>
      match current, k with
      | VArr elems, KNum n =>
          if (n <? 0) || (n >=? Z.of_nat (length elems)) then None
          else walk (nth (Z.to_nat n) elems VUndefined) rest
      | VArr _, KStr _ => None
      | VObj props, _ =>
          match own props (prop_name k) with
          | Some next => walk next rest
          | None => if inherited (prop_name k)
                    then walk (inherited_member (prop_name k)) rest
                    else None
          end
      | VNative ObjectPrototype, _ =>
          if String.eqb (prop_name k) "__proto__" then walk VNull rest
          else if inherited (prop_name k)
               then walk (VNative (PrototypeMember (prop_name k))) rest
               else None
      | _, _ => None
      end
  end.

(** Values that are not objects: primitives, [null], [undefined] and
    functions. *)
Definition non_object (v : value) : bool :=
  match v with
  | VArr _ | VObj _ | VNative ObjectPrototype => false
  | _ => true
  end.

(** *** The JSONL checkpoint store *)

(** The files, by path.  Directories, permissions and the failures of the
    disk are not described; a string is written and read back as it is. *)
Abbreviation Files := (gmap string string).

Definition writeFile (fs : Files) (path content : string) : Files :=
  <[ path := content ]> fs.

Definition rename (fs : Files) (oldPath newPath : string) : outcome Files :=
  match fs !! oldPath with
  | Some content => Ok (<[ newPath := content ]> (delete oldPath fs))
  | None => Throw ENOENT
  end.

Definition readFile (fs : Files) (path : string) : outcome string :=
  match fs !! path with
  | Some content => Ok content
  | None => Throw ENOENT
  end.

Definition newline : ascii := "010"%char.

(** [lines.join('\n')] *)
Fixpoint join_lines (lines : list string) : string :=
  match lines with
  | [] => ""
  | [line] => line
  | line :: rest => String.append line (String newline (join_lines rest))
  end.

(** [content.split('\n')]: never empty, [""] for the empty string. *)
Fixpoint split_lines (content : string) : list string :=
  match content with
  | EmptyString => [""%string]
  | String c rest =>
      if Ascii.eqb c newline then ""%string :: split_lines rest
      else match split_lines rest with
           | line :: lines => String c line :: lines
           | [] => [String c ""]
           end
  end.

(** White space and line terminators among the characters below 256. *)
Definition is_space (c : ascii) : bool :=
  let n := nat_of_ascii c in
  ((9 <=? n) && (n <=? 13))%nat || (n =? 32)%nat || (n =? 160)%nat.

Fixpoint trimStart (s : string) : string :=
  match s with
  | EmptyString => ""
  | String c rest => if is_space c then trimStart rest else s
  end.

(** [s.trimEnd()]: a character stays when it is not white space or when
    something stays after it. *)
Fixpoint trimEnd (s : string) : string :=
  match s with
  | EmptyString => ""
  | String c rest =>
      match trimEnd rest with
      | EmptyString => if is_space c then "" else String c ""
      | kept => String c kept
      end
  end.

Definition trim (s : string) : string := trimEnd (trimStart s).

Fixpoint has_newline (s : string) : bool :=
  match s with
  | EmptyString => false
  | String c rest => Ascii.eqb c newline || has_newline rest
  end.

Fixpoint parse_lines (parse : string -> outcome value) (lines : list string)
  : outcome (list value) :=
  match lines with
  | [] => Ok []
  | line :: rest =>
      let! v := parse line in
      let! vs := parse_lines parse rest in
      Ok (v :: vs)
  end.

Section Jsonl.

(** [JSON.stringify(v)] ([None] for [undefined]) and [JSON.parse(s)], as
    the runtime provides them. *)
Variable JSON_stringify : value -> option string.
Variable JSON_parse : string -> outcome value.

(** [saveJsonl(filename, data)]: the content goes to [filename~], which
    then replaces [filename]. *)
Definition saveJsonl (fs : Files) (filename : string) (data : list value)
  : outcome Files :=
  let tempFilename := String.append filename "~" in
  let content :=
    join_lines (map (fun line => default ""%string (JSON_stringify line)) data) in
  rename (writeFile fs tempFilename content) tempFilename filename.

(** [loadJsonl(file, defaultValue)]; [defaultValue] is [None] for
    [null]. *)
Definition loadJsonl (fs : Files) (file : string)
           (defaultValue : option (list value)) : outcome (list value) :=
  match readFile fs file with
  | Ok content =>
      parse_lines JSON_parse
        (filter (fun line => negb (String.eqb (trim line) "")) (split_lines content))
  | Throw ENOENT =>
      match defaultValue with
      | None => Throw ENOENT
      | Some d => Ok d
      end
  | Throw e => Throw e
  end.


End Jsonl.

End reflectionUtils.

(** ** A JSON codec for the examples

    [JSON.stringify] without indentation and [JSON.parse], for the values
    whose numbers are integers and whose strings need no escapes beyond
    those of the quote, the backslash and the line feed. *)

Module ExampleCodec.

Definition quote : ascii := ascii_of_nat 34.
Definition backslash : ascii := ascii_of_nat 92.

Fixpoint escape (s : string) : string :=
  match s with
  | EmptyString => ""
  | String c rest =>
      if Ascii.eqb c quote then String backslash (String quote (escape rest))
      else if Ascii.eqb c backslash
           then String backslash (String backslash (escape rest))
      else if Ascii.eqb c reflectionUtils.newline
           then String backslash (String "n" (escape rest))
      else String c (escape rest)
  end.

Definition quoted (s : string) : string :=
  String quote (String.append (escape s) (String quote "")).

Definition commaSeparated (parts : list string) : string :=
  match parts with
  | [] => ""
  | p :: ps => fold_left (fun acc x => String.append acc (String "," x)) ps p
  end.

(** [None] where [JSON.stringify] answers [undefined]. *)
Fixpoint stringify (v : value) : option string :=
  match v with
  | VUndefined | VNative _ => None
  | VNull => Some "null"%string
  | VBool true => Some "true"%string
  | VBool false => Some "false"%string
  | VNum q => if (Z.pos (Qden q) =? 1) then Some (pretty (Qnum q)) else None
  | VStr s => Some (quoted s)
  | VArr elems =>
      Some (String.append
              (String "[" (commaSeparated
                             (map (fun e => default "null"%string (stringify e))
                                  elems)))
              "]")
  | VObj props =>
      Some (String.append
              (String "{" (commaSeparated
                             (omap (fun kv =>
                                      match stringify kv.2 with
                                      | Some text =>
                                          Some (String.append (quoted kv.1)
                                                              (String ":" text))
                                      | None => None
                                      end) props)))
              "}")
  end.

(** The characters of a string literal up to its closing quote. *)
Fixpoint parseChars (s : string) : option (string * string) :=
  match s with
  | EmptyString => None
  | String c rest =>
      if Ascii.eqb c quote then Some (""%string, rest)
      else if Ascii.eqb c backslash then
        match rest with
        | String e rest' =>
            let decoded :=
              if Ascii.eqb e "n" then Some reflectionUtils.newline
              else if Ascii.eqb e quote || Ascii.eqb e backslash then Some e
              else None in
            match decoded, parseChars rest' with
            | Some d, Some (text, after) => Some (String d text, after)
            | _, _ => None
            end
        | EmptyString => None
        end
      else
        match parseChars rest with
        | Some (text, after) => Some (String c text, after)
        | None => None
        end
  end.

Definition is_digit (c : ascii) : bool :=
  let n := nat_of_ascii c in ((48 <=? n) && (n <=? 57))%nat.

Fixpoint parseDigits (s : string) (acc : Z) : Z * string :=
  match s with
  | String c rest =>
      if is_digit c
      then parseDigits rest (10 * acc + Z.of_nat (nat_of_ascii c - 48))
      else (acc, s)
  | EmptyString => (acc, s)
  end.

Definition startsWith (prefix s : string) : option string :=
  if String.prefix prefix s
  then Some (String.substring (String.length prefix)
                              (String.length s - String.length prefix) s)
  else None.

Fixpoint parseValue (fuel : nat) (s : string) : option (value * string) :=
  match fuel with
  | O => None
  | S fuel =>
      match s with
      | EmptyString => None
      | String c rest =>
          if Ascii.eqb c quote then
            match parseChars rest with
            | Some (text, after) => Some (VStr text, after)
            | None => None
            end
          else if Ascii.eqb c "[" then
            match rest with
            | String "]" after => Some (VArr [], after)
            | _ => match parseElements fuel rest with
                   | Some (elems, after) => Some (VArr elems, after)
                   | None => None
                   end
            end
          else if Ascii.eqb c "{" then
            match rest with
            | String "}" after => Some (VObj [], after)
            | _ => match parseMembers fuel rest with
                   | Some (props, after) => Some (VObj props, after)
                   | None => None
                   end
            end
          else if Ascii.eqb c "-" then
            match rest with
            | String d _ =>
                if is_digit d then
                  let '(n, after) := parseDigits rest 0 in
                  Some (VNum (inject_Z (- n)), after)
                else None
            | EmptyString => None
            end
          else if is_digit c then
            let '(n, after) := parseDigits s 0 in
            Some (VNum (inject_Z n), after)
          else
            match startsWith "null" s, startsWith "true" s, startsWith "false" s with
            | Some after, _, _ => Some (VNull, after)
            | _, Some after, _ => Some (VBool true, after)
            | _, _, Some after => Some (VBool false, after)
            | _, _, _ => None
            end
      end
  end
with parseElements (fuel : nat) (s : string) : option (list value * string) :=
  match fuel with
  | O => None
  | S fuel =>
      match parseValue fuel s with
      | Some (v, String "," after) =>
          match parseElements fuel after with
          | Some (vs, after') => Some (v :: vs, after')
          | None => None
          end
      | Some (v, String "]" after) => Some ([v], after)
      | _ => None
      end
  end
with parseMembers (fuel : nat) (s : string)
  : option (list (string * value) * string) :=
  match fuel with
  | O => None
  | S fuel =>
      match s with
      | String c rest =>
          if Ascii.eqb c quote then
            match parseChars rest with
            | Some (name, String ":" after) =>
                match parseValue fuel after with
                | Some (v, String "," after') =>
                    match parseMembers fuel after' with
                    | Some (props, after'') => Some ((name, v) :: props, after'')
                    | None => None
                    end
                | Some (v, String "}" after') => Some ([(name, v)], after')
                | _ => None
                end
            | _ => None
            end
          else None
      | EmptyString => None
      end
  end.

Definition parse (s : string) : outcome value :=
  match parseValue (S (String.length s)) s with
  | Some (v, EmptyString) => Ok v
  | _ => Throw SyntaxError
  end.

End ExampleCodec.

(** ** gradeReflectLoop: data model *)

Module gradeReflectLoop.
Import reflectionUtils.

(** A field that the code sets to [null] as well as to a value. *)
Inductive nullable (A : Type) : Type :=
| Undefined
| Null
| Defined (a : A).
Arguments Undefined {A}.
Arguments Null {A}.
Arguments Defined {A} a.

(** [GradeResponse]: [{ comment, grade }], the grade an integer. *)
Record Grade : Type := mkGrade {
  grade : Z;
  comment : string
}.

(** One round.  Every property is optional: rounds start as [{}]. *)
Record ReflectionLoop : Type := mkLoop {
  grades : option (list Grade);
  graded_verse : option value;
  graded_verse_comment : option value;
  average_grade : option Q;
  correction_summarization : option value;
  is_adaptation : option bool
}.

Definition emptyLoop : ReflectionLoop :=
  mkLoop None None None None None None.

(** A verse.  [fields] holds the properties of the verse object that the
    engine does not name itself (reference, source, translation, ...):
    the part that key paths address. *)
Record Verse : Type := mkVerse {
  fields : list (string * value);
  reflection_loops : option (list ReflectionLoop);
  reflection_is_finalized : option bool;
  reflection_finalized_grade : nullable Q;
  reflection_finalized_comment : nullable string;
  comment_mod_loop_count : option Z;
  ai_halted : option bool;
  grade_only : option bool;
  human_reviewed : option bool;
  adapted : option bool
}.

(** The tunables the engine reads.  An optional entry is [None] when the
    configuration object does not hold it. *)
Record Config : Type := mkConfig {
  reference_key : list string;
  translation_key : list string;
  translation_comment_key : option (list string);
  source_key : list string;
  override_key : option (list string);
  grades_per_reflection_loop : Z;
  reflection_loops_per_verse : option Z;
  iterations_pass_comment : option Z;
  grade_mode_enabled : option bool;
  adaptation_prompt : option string;
  start_line : option Z;
  end_line : option Z;
  manual_edit_mode : option bool;
  debug_force_vref : option value;
  highest_grade_to_reflect : option Q;
  iterations_without_improvement_max : option Z;
  reset_reflection_loops_on_update : option bool;
  summarize_corrections : option bool;
  num_context_verses_before : Z;
  num_context_verses_after : Z
}.

(** [setConfigDefaults({})]: the defaults of the worker. *)
Definition defaultConfig : Config :=
  mkConfig ["vref"]%string ["fresh_translation"; "text"]%string
           (Some ["translation_notes"]%string) ["source"]%string None
           6 (Some 10) None None None None None None None (Some (90 # 1))
           None (Some true) (Some true) 10 10.

Definition with_rounds (c : Config) (gradesPerLoop : Z)
           (loopsPerVerse passComment : option Z) : Config :=
  mkConfig (reference_key c) (translation_key c) (translation_comment_key c)
           (source_key c) (override_key c)
           gradesPerLoop loopsPerVerse passComment
           (grade_mode_enabled c) (adaptation_prompt c) (start_line c)
           (end_line c) (manual_edit_mode c) (debug_force_vref c)
           (highest_grade_to_reflect c) (iterations_without_improvement_max c)
           (reset_reflection_loops_on_update c) (summarize_corrections c)
           (num_context_verses_before c) (num_context_verses_after c).

Definition with_debug_force_vref (c : Config) (x : option value) : Config :=
  mkConfig (reference_key c) (translation_key c) (translation_comment_key c)
           (source_key c) (override_key c)
           (grades_per_reflection_loop c) (reflection_loops_per_verse c)
           (iterations_pass_comment c)
           (grade_mode_enabled c) (adaptation_prompt c) (start_line c)
           (end_line c) (manual_edit_mode c) x
           (highest_grade_to_reflect c) (iterations_without_improvement_max c)
           (reset_reflection_loops_on_update c) (summarize_corrections c)
           (num_context_verses_before c) (num_context_verses_after c).


(** *** Field updates *)

Definition set_grades (l : ReflectionLoop) (x : option (list Grade)) :=
  mkLoop x (graded_verse l) (graded_verse_comment l) (average_grade l)
         (correction_summarization l) (is_adaptation l).
Definition set_graded_verse (l : ReflectionLoop) (x : option value) :=
  mkLoop (grades l) x (graded_verse_comment l) (average_grade l)
         (correction_summarization l) (is_adaptation l).
Definition set_graded_verse_comment (l : ReflectionLoop) (x : option value) :=
  mkLoop (grades l) (graded_verse l) x (average_grade l)
         (correction_summarization l) (is_adaptation l).
Definition set_average_grade (l : ReflectionLoop) (x : option Q) :=
  mkLoop (grades l) (graded_verse l) (graded_verse_comment l) x
         (correction_summarization l) (is_adaptation l).
Definition set_correction_summarization (l : ReflectionLoop) (x : option value) :=
  mkLoop (grades l) (graded_verse l) (graded_verse_comment l) (average_grade l)
         x (is_adaptation l).
Definition set_is_adaptation (l : ReflectionLoop) (x : option bool) :=
  mkLoop (grades l) (graded_verse l) (graded_verse_comment l) (average_grade l)
         (correction_summarization l) x.

Definition set_fields (v : Verse) (x : list (string * value)) :=
  mkVerse x (reflection_loops v) (reflection_is_finalized v)
          (reflection_finalized_grade v) (reflection_finalized_comment v)
          (comment_mod_loop_count v) (ai_halted v) (grade_only v)
          (human_reviewed v) (adapted v).
Definition set_reflection_loops (v : Verse) (x : option (list ReflectionLoop)) :=
  mkVerse (fields v) x (reflection_is_finalized v)
          (reflection_finalized_grade v) (reflection_finalized_comment v)
          (comment_mod_loop_count v) (ai_halted v) (grade_only v)
          (human_reviewed v) (adapted v).
Definition set_reflection_is_finalized (v : Verse) (x : option bool) :=
  mkVerse (fields v) (reflection_loops v) x
          (reflection_finalized_grade v) (reflection_finalized_comment v)
          (comment_mod_loop_count v) (ai_halted v) (grade_only v)
          (human_reviewed v) (adapted v).
Definition set_reflection_finalized_grade (v : Verse) (x : nullable Q) :=
  mkVerse (fields v) (reflection_loops v) (reflection_is_finalized v)
          x (reflection_finalized_comment v)
          (comment_mod_loop_count v) (ai_halted v) (grade_only v)
          (human_reviewed v) (adapted v).
Definition set_reflection_finalized_comment (v : Verse) (x : nullable string) :=
  mkVerse (fields v) (reflection_loops v) (reflection_is_finalized v)
          (reflection_finalized_grade v) x
          (comment_mod_loop_count v) (ai_halted v) (grade_only v)
          (human_reviewed v) (adapted v).
Definition set_comment_mod_loop_count (v : Verse) (x : option Z) :=
  mkVerse (fields v) (reflection_loops v) (reflection_is_finalized v)
          (reflection_finalized_grade v) (reflection_finalized_comment v)
          x (ai_halted v) (grade_only v)
          (human_reviewed v) (adapted v).
Definition set_human_reviewed (v : Verse) (x : option bool) :=
  mkVerse (fields v) (reflection_loops v) (reflection_is_finalized v)
          (reflection_finalized_grade v) (reflection_finalized_comment v)
          (comment_mod_loop_count v) (ai_halted v) (grade_only v)
          x (adapted v).
Definition set_adapted (v : Verse) (x : option bool) :=
  mkVerse (fields v) (reflection_loops v) (reflection_is_finalized v)
          (reflection_finalized_grade v) (reflection_finalized_comment v)
          (comment_mod_loop_count v) (ai_halted v) (grade_only v)
          (human_reviewed v) x.

(** [x === true] and ToBoolean of an optional boolean property. *)
Definition is_true (x : option bool) : bool :=
  match x with Some true => true | _ => false end.

(** ToBoolean of an optional property holding any value. *)
Definition truthy_prop (x : option value) : bool :=
  match x with Some v => truthy v | None => false end.

(** Reading a property: [undefined] when absent. *)
Definition read_prop (x : option value) : value :=
  match x with Some v => v | None => VUndefined end.

(** [lookUpKey(verse, key)] with the default [defaultValue = null],
    [noneIsValid = true]. *)
Definition lookUp (v : Verse) (keys : list string) : outcome value :=
  lookUpKey (VObj (fields v)) (map KStr keys) VNull true.

(** [reflectionUtils.setKey(verse, key, x)] *)
Definition setVerseKey (v : Verse) (keys : list string) (x : value)
  : outcome Verse :=
  match setKey (VObj (fields v)) keys x with
  | Ok (VObj props) => Ok (set_fields v props)
  | Ok _ => Throw Unmodelled
  | Throw e => Throw e
  end.

(** The verse has a reference: [lookUpKey(verse, reference_key)] is
    neither [null] nor [undefined]. *)
Definition hasReference (verse : Verse) (config : Config) : Prop :=
  exists vref, lookUp verse (reference_key config) = Ok vref /\ nullish vref = false.

(** *** Grade aggregator *)

Definition verseIsFinalized (verse : Verse) : bool :=
  match reflection_is_finalized verse with
  | Some b => b
  | None => false
  end.

Definition gradeSum (gs : list Grade) : Z :=
  fold_left (fun acc g => acc + grade g) gs 0.

(** [gradeSum / gradeCount], for [gradeCount > 0]. *)
Definition averagedGrade (gs : list Grade) : Q :=
  Qred (Qmake (gradeSum gs) (Pos.of_nat (length gs))).

(** Returns the average and the loop, whose [average_grade] it may have
    stashed. *)
Definition computeGradeForReflectionLoop (reflectionLoop : ReflectionLoop)
           (config : Config) : option Q * ReflectionLoop :=
  match average_grade reflectionLoop with
  | Some a => (Some a, reflectionLoop)
  | None =>
      let gs := default [] (grades reflectionLoop) in
      let gradeCount := Z.of_nat (length gs) in
      if 0 <? gradeCount then
        let avg := averagedGrade gs in
        if gradeCount >=? grades_per_reflection_loop config
        then (Some avg, set_average_grade reflectionLoop (Some avg))
        else (Some avg, reflectionLoop)
      else (None, reflectionLoop)
  end.

(** The loop of [computeVerseGrade] over the rounds, newest first.  The
    reversed copy shares the round objects, so the stash lands in the
    verse. *)
Fixpoint firstGradedLoop (newestFirst : list ReflectionLoop) (config : Config)
  : option Q * list ReflectionLoop :=
  match newestFirst with
  | [] => (None, [])
  | reflectionLoop :: older =>
      let '(loopGrade, reflectionLoop') :=
        computeGradeForReflectionLoop reflectionLoop config in
      match loopGrade with
      | Some g => (Some g, reflectionLoop' :: older)
      | None =>
          let '(g, older') := firstGradedLoop older config in
          (g, reflectionLoop' :: older')
      end
  end.

Definition computeVerseGrade (verse : Verse) (config : Config)
  : outcome (option Q * Verse) :=
  let! vref := lookUp verse (reference_key config) in
  if nullish vref then Ok (None, verse) else
  match reflection_loops verse with
  | None => Ok (None, verse)
  | Some [] => Ok (None, verse)
  | Some loops =>
      if verseIsFinalized verse then
        Ok (match reflection_finalized_grade verse with
            | Defined g => Some g
            | _ => None
            end, verse)
      else
        let '(g, newestFirst') := firstGradedLoop (reverse loops) config in
        Ok (g, set_reflection_loops verse (Some (reverse newestFirst')))
  end.

(** A stash changes nothing of a round but [average_grade]. *)
Definition stashed (l l' : ReflectionLoop) : Prop :=
  l' = l \/ exists a, average_grade l = None /\ l' = set_average_grade l (Some a).

(** *** Rounds needed, unanswered grades *)

Definition ITERATIONS_PASS_COMMENT_DEFAULT : Z := 5.

Definition computeReflectionLoopsNeeded (verse : Verse) (config : Config) : Z :=
  Z.max
    (default (- ITERATIONS_PASS_COMMENT_DEFAULT) (comment_mod_loop_count verse)
     + default ITERATIONS_PASS_COMMENT_DEFAULT (iterations_pass_comment config))
    (default 0 (reflection_loops_per_verse config)).

Definition computeNumberUnansweredGrades (verse : Verse) (config : Config) : Z :=
  match reflection_loops verse with
  | None => 0
  | Some loops =>
      match last loops with
      | None => 0
      | Some lastReflectionLoop =>
          if truthy_prop (graded_verse lastReflectionLoop)
             && (computeReflectionLoopsNeeded verse config
                 >? Z.of_nat (length loops))
          then 0
          else match grades lastReflectionLoop with
               | Some gs => Z.of_nat (length gs)
               | None => 0
               end
      end
  end.

(** Reads [.grades.length] of the last round without a guard: a
    TypeError when that round has no [grades]. *)
Definition verseNeedsFinalization (verse : Verse) (config : Config)
  : outcome bool :=
  let reflectionLoops := default [] (reflection_loops verse) in
  if Z.of_nat (length reflectionLoops)
     <? Z.max 1 (computeReflectionLoopsNeeded verse config)
  then Ok false
  else
    match last reflectionLoops with
    | None => Throw TypeError
    | Some lastLoop =>
        match grades lastLoop with
        | None => Throw TypeError
        | Some gs =>
            if Z.of_nat (length gs) <? grades_per_reflection_loop config
            then Ok false
            else Ok true
        end
    end.

(** *** Finalization *)

(** [array.slice(start)]: a negative [start] counts from the end. *)
Definition slice_start {A} (l : list A) (start : Z) : nat :=
  if start <? 0 then Z.to_nat (Z.max (Z.of_nat (length l) + start) 0)
  else Z.to_nat start.

(** The scan for the best round, over the rounds from index [i] on;
    [best] is the pair [(bestLoop, bestGrade)], the round kept by its
    index because the round object is shared with the verse. *)
Fixpoint bestLoopFrom (i : nat) (loops : list ReflectionLoop)
         (best : option (nat * Q)) : option (nat * Q) :=
  match loops with
  | [] => best
  | reflectionLoop :: rest =>
      bestLoopFrom (S i) rest
        match average_grade reflectionLoop with
        | Some a =>
            match best with
            | None => Some (i, a)
            | Some (_, bestGrade) =>
                if Qle_bool bestGrade a then Some (i, a) else best
            end
        | None => best
        end
  end.

(** "Ensure the last reflection loop has its verse marked". *)
Definition markLastLoop (verse : Verse) (config : Config)
           (loops : list ReflectionLoop) : outcome (list ReflectionLoop) :=
  match last loops with
  | None => Throw TypeError
  | Some lastLoop =>
      if truthy_prop (graded_verse lastLoop) then Ok loops
      else
        let! text := lookUp verse (translation_key config) in
        let lastLoop1 := set_graded_verse lastLoop (Some text) in
        let! lastLoop2 :=
          match translation_comment_key config with
          | Some ck =>
              let! c := lookUp verse ck in
              Ok (set_graded_verse_comment lastLoop1 (Some c))
          | None => Ok lastLoop1
          end in
        Ok (<[ Nat.pred (length loops) := lastLoop2 ]> loops)
  end.

Definition finalizeVerse (verse : Verse) (config : Config) : outcome Verse :=
  match reflection_loops verse with
  | None => Ok verse
  | Some _ =>
      if verseIsFinalized verse then Ok verse else
      let! needed := verseNeedsFinalization verse config in
      if negb needed then Ok verse else
      let! graded := computeVerseGrade verse config in
      let verse := snd graded in
      let loops := default [] (reflection_loops verse) in
      let firstIndexConsidered :=
        slice_start loops (default 0 (comment_mod_loop_count verse)) in
      match bestLoopFrom firstIndexConsidered
                         (drop firstIndexConsidered loops) None with
      | None => Ok verse
      | Some (bestIndex, bestGrade) =>
          let! loops := markLastLoop verse config loops in
          let verse := set_reflection_loops verse (Some loops) in
          let bestLoop := default emptyLoop (loops !! bestIndex) in
          let! verse :=
            setVerseKey verse (translation_key config)
                        (read_prop (graded_verse bestLoop)) in
          let! verse :=
            match translation_comment_key config with
            | Some ck =>
                setVerseKey verse ck (read_prop (graded_verse_comment bestLoop))
            | None => Ok verse
            end in
          Ok (set_reflection_finalized_grade
                (set_reflection_is_finalized verse (Some true))
                (Defined bestGrade))
      end
  end.

(** *** The steps of the engine on one verse *)

(** The results of the evaluation service that the engine uses. *)
Record AdaptationResult : Type := mkAdaptation {
  adaptation_planning_thoughts : string;
  adaptation_updated_translation : string
}.

Record ReflectionResult : Type := mkReflection {
  planning_thoughts : string;
  updated_translation : string;
  summarization : option value      (* [correction_summarization] *)
}.

Definition truthy_flag (x : option bool) : bool :=
  match x with Some b => b | None => false end.

Definition truthy_string (x : option string) : bool :=
  match x with Some s => negb (String.eqb s "") | None => false end.

(** [if (verse.human_reviewed) verse.human_reviewed = false] *)
Definition clear_human_reviewed (verse : Verse) : Verse :=
  if truthy_flag (human_reviewed verse)
  then set_human_reviewed verse (Some false) else verse.

(** [if (verse.reflection_is_finalized === true) ... = false] *)
Definition clear_finalized (verse : Verse) : Verse :=
  if is_true (reflection_is_finalized verse)
  then set_reflection_is_finalized verse (Some false) else verse.

(** The rounds with a last round to write to: [{}] is pushed when there
    is no round, and again when the last round is closed. *)
Definition openLoop (closed : ReflectionLoop -> bool)
           (loops : list ReflectionLoop) : list ReflectionLoop :=
  let loops := match loops with [] => [emptyLoop] | _ => loops end in
  match last loops with
  | Some lastLoop => if closed lastLoop then loops ++ [emptyLoop] else loops
  | None => loops
  end.

Definition update_last (f : ReflectionLoop -> ReflectionLoop)
           (loops : list ReflectionLoop) : list ReflectionLoop :=
  alter f (Nat.pred (length loops)) loops.

(** The round with the current translation (and its comment) recorded as
    the graded verse. *)
Definition recordGradedVerse (verse : Verse) (config : Config)
           (loop : ReflectionLoop) : outcome ReflectionLoop :=
  let! loop :=
    match translation_comment_key config with
    | Some ck =>
        let! c := lookUp verse ck in
        Ok (set_graded_verse_comment loop (Some c))
    | None => Ok loop
    end in
  let! text := lookUp verse (translation_key config) in
  Ok (set_graded_verse loop (Some text)).

(** [runAdaptationPass]; [adaptationResult] is what
    [runAdaptationInference] answers when it is called. *)
Definition runAdaptationPass (adaptationResult : AdaptationResult)
           (verse : Verse) (config : Config) : outcome (bool * Verse) :=
  if negb (truthy_string (adaptation_prompt config)) then Ok (false, verse)
  else if truthy_flag (adapted verse) then Ok (false, verse)
  else
    let loops :=
      openLoop (fun l => truthy_prop (graded_verse l))
               (default [] (reflection_loops verse)) in
    let! lastLoop :=
      recordGradedVerse verse config (default emptyLoop (last loops)) in
    let lastLoop := set_is_adaptation lastLoop (Some true) in
    let verse :=
      set_reflection_loops verse (Some (update_last (fun _ => lastLoop) loops)) in
    let! verse :=
      setVerseKey verse (translation_key config)
                  (VStr (adaptation_updated_translation adaptationResult)) in
    let! verse :=
      match translation_comment_key config with
      | Some ck =>
          setVerseKey verse ck
                      (VStr (adaptation_planning_thoughts adaptationResult))
      | None => Ok verse
      end in
    Ok (true, set_adapted (clear_human_reviewed verse) (Some true)).

(** "Check if reflection skip is required due to comments modifying
    grades": [Some (verse', gradedVerseInserted)] when the block acts. *)
Definition skipReflection (verse : Verse) (config : Config)
  : outcome (option (Verse * bool)) :=
  let reflectionLoops := default [] (reflection_loops verse) in
  match last reflectionLoops with
  | None => Ok None
  | Some lastReflectionLoop =>
      if Z.of_nat (length reflectionLoops)
         <=? default (-1) (comment_mod_loop_count verse)
      then
        let gradedVerseInserted :=
          bool_decide (is_Some (graded_verse lastReflectionLoop)) in
        if negb gradedVerseInserted || verseIsFinalized verse then
          let! lastReflectionLoop :=
            if negb gradedVerseInserted
            then recordGradedVerse verse config lastReflectionLoop
            else Ok lastReflectionLoop in
          let verse :=
            set_reflection_loops verse
              (Some (update_last (fun _ => lastReflectionLoop) reflectionLoops)) in
          Ok (Some (clear_finalized verse, gradedVerseInserted))
        else Ok None
      else Ok None
  end.

(** The number of grades the grading step asks for. *)
Definition neededGrades (verse : Verse) (config : Config) : Z :=
  if negb (default true (grade_mode_enabled config)) then 1
  else grades_per_reflection_loop config
       - computeNumberUnansweredGrades verse config.

(** [multiGradeVerse]: the request asks for [numGrades] samples ([n]);
    [choices] are the samples of the completion.  Reading a sample that
    is not there is a TypeError. *)
Definition multiGradeVerse (choices : list Grade) (numGrades : Z)
  : outcome (list Grade) :=
  if Z.of_nat (length choices) <? numGrades then Throw TypeError
  else Ok (take (Z.to_nat numGrades) choices).

(** The grading step after the service has answered: the new grades go to
    the last round, a fresh one when there is none or when the last one
    holds a [graded_verse]. *)
Definition appendGrades (verse : Verse) (newGrades : list Grade) : Verse :=
  let loops :=
    openLoop (fun l => bool_decide (is_Some (graded_verse l)))
             (default [] (reflection_loops verse)) in
  let loops :=
    update_last
      (fun l => set_grades l (Some (default [] (grades l) ++ newGrades)))
      loops in
  let verse := set_reflection_loops verse (Some loops) in
  let verse := clear_finalized verse in
  if is_true (human_reviewed verse)
  then set_human_reviewed verse (Some false) else verse.

(** What [performReflection] reads of the verse before it calls the
    service: a TypeError when there is no last round (or, without
    summarization, when that round has no [grades]). *)
Definition reflectionReadable (verse : Verse) (config : Config) : outcome unit :=
  match reflection_loops verse with
  | None => Throw TypeError
  | Some loops =>
      match last loops with
      | None => Throw TypeError
      | Some lastLoop =>
          if truthy_flag (summarize_corrections config) then Ok tt
          else match grades lastLoop with
               | Some _ => Ok tt
               | None => Throw TypeError
               end
      end
  end.

(** The reflection step after the service has answered. *)
Definition applyReflection (verse : Verse) (reflectionResult : ReflectionResult)
           (config : Config) : outcome Verse :=
  match reflection_loops verse with
  | None => Throw TypeError
  | Some loops =>
      match last loops with
      | None => Throw TypeError
      | Some lastReflectionLoop =>
          let! lastReflectionLoop :=
            recordGradedVerse verse config lastReflectionLoop in
          let! verse :=
            setVerseKey verse (translation_key config)
                        (VStr (updated_translation reflectionResult)) in
          let! verse :=
            match translation_comment_key config with
            | Some ck =>
                setVerseKey verse ck
                            (VStr (planning_thoughts reflectionResult))
            | None => Ok verse
            end in
          let verse :=
            if is_true (human_reviewed verse)
            then set_human_reviewed verse (Some false) else verse in
          let lastReflectionLoop :=
            match summarization reflectionResult with
            | Some cs => set_correction_summarization lastReflectionLoop (Some cs)
            | None => lastReflectionLoop
            end in
          Ok (set_reflection_loops verse
                (Some (update_last (fun _ => lastReflectionLoop) loops)))
      end
  end.

(** *** One iteration of the engine's main loop *)

(** What an iteration did ([actionDone]); the grading step records the
    number of grades it requested and the grades it appended. *)
Inductive Action : Type :=
| DidNothing
| AdaptedVerse (line : nat)
| SkippedReflection (line : nat)
| RevertedFinalization (line : nat)
| AddedGrades (line : nat) (requested : Z) (newGrades : list Grade)
| FinalizedVerse (line : nat)
| ReflectedOnVerse (line : nat)
| DoneManualEditMode
| DoneWithoutImprovement
| DoneAboveHighestGrade
| DoneNothingToReflectOn.

(** [vref in overRiddenReferences], for a reference that is a string. *)
Definition inOverridden (vref : value)
           (overRiddenReferences : list (string * string)) : outcome bool :=
  match vref with
  | VStr s =>
      has_property (KStr s)
        (VObj (map (fun kv => (kv.1, VStr kv.2)) overRiddenReferences))
  | _ => Throw Unmodelled
  end.

(** The tests on [verseLineNumber] that open both loops over the
    collection. *)
Definition beforeStartLine (config : Config) (verseLineNumber : nat) : bool :=
  match start_line config with
  | Some s => Z.of_nat verseLineNumber <? s - 1
  | None => false
  end.

Definition afterEndLine (config : Config) (verseLineNumber : nat) : bool :=
  match end_line config with
  | Some e => Z.of_nat verseLineNumber >? e - 1
  | None => false
  end.

Definition Qlt_bool (x y : Q) : bool := negb (Qle_bool y x).

(** The loop of [computeTranslationGrade]; the verses come back with the
    averages that [computeVerseGrade] stashed. *)
Fixpoint computeTranslationGrade_loop (config : Config) (verseLineNumber : nat)
         (rest : list Verse) (verseCount : Z) (verseSum : Q)
  : outcome (Z * Q * list Verse) :=
  match rest with
  | [] => Ok (verseCount, verseSum, [])
  | verse :: rest' =>
      if beforeStartLine config verseLineNumber then
        let! r := computeTranslationGrade_loop config (S verseLineNumber) rest'
                                               verseCount verseSum in
        Ok (r.1, verse :: r.2)
      else if afterEndLine config verseLineNumber then
        Ok (verseCount, verseSum, rest)
      else
        let! graded := computeVerseGrade verse config in
        let '(verseCount, verseSum) :=
          match graded.1 with
          | Some verseGrade => (verseCount + 1, Qred (verseSum + verseGrade))
          | None => (verseCount, verseSum)
          end in
        let! r := computeTranslationGrade_loop config (S verseLineNumber) rest'
                                               verseCount verseSum in
        Ok (r.1, graded.2 :: r.2)
  end.

Definition computeTranslationGrade (translation : list Verse) (config : Config)
  : outcome (Q * list Verse) :=
  let! r := computeTranslationGrade_loop config 0 translation 0 0 in
  let '(verseCount, verseSum, translation) := r in
  if verseCount =? 0 then Ok (0%Q, translation)
  else Ok (Qred (verseSum / inject_Z verseCount), translation).

Section Engine.

(** The evaluation service: what it answers to an adaptation request for
    a verse, to a grading request for the verse at a line of the
    collection asking for a number of samples, and to a reflection
    request. *)
Variable adaptationInference : Verse -> AdaptationResult.
Variable gradingChoices : list Verse -> nat -> Z -> list Grade.
Variable reflectionInference : list Verse -> nat -> ReflectionResult.

Variable config : Config.
Variable overRiddenReferences : list (string * string).

(** The loop of [buildCommonContext] over the context window, which makes
    sure that every verse used for context has had its adaptation pass. *)
Fixpoint adaptContext (indices : list nat) (reflectionOutput : list Verse)
  : outcome (list Verse) :=
  match indices with
  | [] => Ok reflectionOutput
  | index :: rest =>
      match reflectionOutput !! index with
      | None => Throw TypeError
      | Some verse =>
          let! verseReference := lookUp verse (reference_key config) in
          let! used :=
            if truthy verseReference then
              let! o := inOverridden verseReference overRiddenReferences in
              Ok (negb o)
            else Ok false in
          if used then
            let! r := runAdaptationPass (adaptationInference verse) verse config in
            adaptContext rest (<[ index := r.2 ]> reflectionOutput)
          else adaptContext rest reflectionOutput
      end
  end.

Definition buildCommonContext (selectedVerseIndex : nat)
           (reflectionOutput : list Verse) : outcome (list Verse) :=
  let i := Z.of_nat selectedVerseIndex in
  let firstIncludedIndex := Z.max (i - num_context_verses_before config) 0 in
  let lastIncludedIndex :=
    Z.min (i + num_context_verses_after config)
          (Z.of_nat (length reflectionOutput) - 1) in
  adaptContext
    (seq (Z.to_nat firstIncludedIndex)
         (Z.to_nat (lastIncludedIndex - firstIncludedIndex + 1)))
    reflectionOutput.

(** The grading step for the verse at [line]. *)
Definition gradeSelectedVerse (reflectionOutput : list Verse) (line : nat)
           (verse : Verse) : outcome (list Verse * Action) :=
  let! reflectionOutput := buildCommonContext line reflectionOutput in
  let requested := neededGrades verse config in
  let! newGrades :=
    multiGradeVerse (gradingChoices reflectionOutput line requested) requested in
  let selectedVerse := default verse (reflectionOutput !! line) in
  Ok (<[ line := appendGrades selectedVerse newGrades ]> reflectionOutput,
      AddedGrades line requested newGrades).

(** "Loop through all verses for adaptations or grading": the result is
    the collection, [selectedVerse] (by its line) and [actionDone]. *)
Fixpoint sweep (reflectionOutput : list Verse) (verseLineNumber : nat)
         (rest : list Verse) : outcome (list Verse * option nat * Action) :=
  match rest with
  | [] => Ok (reflectionOutput, None, DidNothing)
  | verse :: rest' =>
      if beforeStartLine config verseLineNumber then
        sweep reflectionOutput (S verseLineNumber) rest'
      else if afterEndLine config verseLineNumber then
        Ok (reflectionOutput, None, DidNothing)
      else if is_true (ai_halted verse) then
        sweep reflectionOutput (S verseLineNumber) rest'
      else
        let! vref := lookUp verse (reference_key config) in
        let! eligible :=
          if nullish vref then Ok false
          else let! o := inOverridden vref overRiddenReferences in Ok (negb o) in
        if negb eligible then sweep reflectionOutput (S verseLineNumber) rest'
        else
          let! adaptation :=
            runAdaptationPass (adaptationInference verse) verse config in
          if adaptation.1 then
            Ok (<[ verseLineNumber := adaptation.2 ]> reflectionOutput,
                None, AdaptedVerse verseLineNumber)
          else
            let! skipped := skipReflection verse config in
            match skipped with
            | Some (verse', gradedVerseInserted) =>
                Ok (<[ verseLineNumber := verse' ]> reflectionOutput, None,
                    if gradedVerseInserted
                    then RevertedFinalization verseLineNumber
                    else SkippedReflection verseLineNumber)
            | None =>
                if computeNumberUnansweredGrades verse config
                   <? grades_per_reflection_loop config
                then
                  let! graded :=
                    gradeSelectedVerse reflectionOutput verseLineNumber verse in
                  Ok (graded.1, Some verseLineNumber, graded.2)
                else sweep reflectionOutput (S verseLineNumber) rest'
            end
  end.

(** The search for the lowest graded verse; [lowest] is
    [(lowestGradeFound, lowestGradedVerse)]. *)
Fixpoint selectLowest (verseLineNumber : nat) (rest : list Verse)
         (lowest : option (Q * nat)) : outcome (option (Q * nat) * list Verse) :=
  match rest with
  | [] => Ok (lowest, [])
  | verse :: rest' =>
      let skip :=
        let! r := selectLowest (S verseLineNumber) rest' lowest in
        Ok (r.1, verse :: r.2) in
      if beforeStartLine config verseLineNumber then skip
      else if afterEndLine config verseLineNumber then Ok (lowest, rest)
      else if is_true (ai_halted verse) then skip
      else if is_true (grade_only verse) then skip
      else
        let! vref := lookUp verse (reference_key config) in
        let! eligible :=
          if nullish vref then Ok false
          else
            let! o := inOverridden vref overRiddenReferences in
            Ok (negb o && negb (verseIsFinalized verse)) in
        if negb eligible then skip
        else
          let! graded := computeVerseGrade verse config in
          let lowest :=
            match graded.1 with
            | Some verseGrade =>
                match lowest with
                | None => Some (verseGrade, verseLineNumber)
                | Some (lowestGradeFound, _) =>
                    if Qlt_bool verseGrade lowestGradeFound
                    then Some (verseGrade, verseLineNumber)
                    else lowest
                end
            | None => lowest
            end in
          let! r := selectLowest (S verseLineNumber) rest' lowest in
          Ok (r.1, graded.2 :: r.2)
  end.

(** With [debug_force_vref]: the first verse whose reference is the
    forced one. *)
Fixpoint selectForced (forced : value) (verseLineNumber : nat)
         (rest : list Verse) : outcome (option nat) :=
  match rest with
  | [] => Ok None
  | verse :: rest' =>
      let! vref := lookUp verse (reference_key config) in
      if strict_eq vref forced then Ok (Some verseLineNumber)
      else selectForced forced (S verseLineNumber) rest'
  end.

Record EngineState : Type := mkState {
  reflectionOutput : list Verse;
  bestGradeFound : Q;
  iterationsWithoutImprovement : Z;
  done : bool
}.

(** Finalize or reflect on the selected verse. *)
Definition actOnSelected (reflectionOutput : list Verse) (line : nat)
  : outcome (list Verse * Action) :=
  match reflectionOutput !! line with
  | None => Throw TypeError
  | Some selectedVerse =>
      let! needed := verseNeedsFinalization selectedVerse config in
      if needed then
        let! finalized := finalizeVerse selectedVerse config in
        let! logged := computeVerseGrade finalized config in
        Ok (<[ line := logged.2 ]> reflectionOutput, FinalizedVerse line)
      else
        let! reflectionOutput := buildCommonContext line reflectionOutput in
        let selectedVerse := default selectedVerse (reflectionOutput !! line) in
        let! _ := reflectionReadable selectedVerse config in
        let reflectionResult := reflectionInference reflectionOutput line in
        let! logged := computeVerseGrade selectedVerse config in
        let! reflected := applyReflection logged.2 reflectionResult config in
        Ok (<[ line := reflected ]> reflectionOutput, ReflectedOnVerse line)
  end.

(** "All verses are fully graded, determine next action". *)
Definition nextAction (st : EngineState)
  : outcome (EngineState * option nat * Action) :=
  let! graded := computeTranslationGrade (reflectionOutput st) config in
  let '(averageGrade, output) := graded in
  if is_true (manual_edit_mode config) then
    Ok (mkState output (bestGradeFound st) (iterationsWithoutImprovement st) true,
        None, DoneManualEditMode)
  else
    let iterations := iterationsWithoutImprovement st + 1 in
    let '(best, iterations) :=
      if Qlt_bool (bestGradeFound st) averageGrade then (averageGrade, 0)
      else (bestGradeFound st, iterations) in
    let exceeded :=
      match iterations_without_improvement_max config with
      | Some m => iterations >? m
      | None => false
      end in
    if exceeded then
      Ok (mkState output best iterations true, None, DoneWithoutImprovement)
    else
      let! selection :=
        match debug_force_vref config with
        | None =>
            let! r := selectLowest 0 output None in
            Ok (fst <$> r.1, snd <$> r.1, r.2)
        | Some forced =>
            let! r := selectForced forced 0 output in
            Ok (None, r, output)
        end in
      let '(lowestGradeFound, lowestGradedVerse, output) := selection in
      let aboveHighest :=
        match lowestGradeFound, highest_grade_to_reflect config with
        | Some g, Some h => Qlt_bool h g
        | _, _ => false
        end in
      if aboveHighest then
        Ok (mkState output best iterations true, None, DoneAboveHighestGrade)
      else
        match lowestGradedVerse with
        | Some line =>
            let! acted := actOnSelected output line in
            Ok (mkState acted.1 best iterations false, Some line, acted.2)
        | None =>
            Ok (mkState output best iterations true, None,
                DoneNothingToReflectOn)
        end.

(** One iteration of [while (!done)], without the saving and the logging;
    the closing [computeTranslationGrade] is the one of the status line. *)
Definition tick (st : EngineState)
  : outcome (EngineState * option nat * Action) :=
  let! swept := sweep (reflectionOutput st) 0 (reflectionOutput st) in
  let '(output, selectedVerse, actionDone) := swept in
  let st := mkState output (bestGradeFound st)
                    (iterationsWithoutImprovement st) (done st) in
  let! r :=
    match selectedVerse with
    | Some _ => Ok (st, selectedVerse, actionDone)
    | None => nextAction st
    end in
  let '(st, selectedVerse, actionDone) := r in
  let! graded := computeTranslationGrade (reflectionOutput st) config in
  Ok (mkState graded.2 (bestGradeFound st) (iterationsWithoutImprovement st)
              (done st),
      selectedVerse, actionDone).

End Engine.

(** *** A small collection, used to exercise the definitions *)

Definition exampleConfig : Config :=
  with_rounds defaultConfig 2 (Some 2) None.

Definition exampleFields (vref text : string) : list (string * value) :=
  [("vref", VStr vref); ("source", VStr "source text");
   ("fresh_translation", VObj [("text", VStr text)])]%string.

(** Two rounds: the first graded 40 and 60 and then corrected, the second
    graded 80 and 90 and not yet closed. *)
Definition exampleVerse : Verse :=
  mkVerse (exampleFields "GEN 1:1" "second draft")
          (Some [ mkLoop (Some [mkGrade 40 "weak"; mkGrade 60 "better"])
                         (Some (VStr "first draft")) (Some VNull)
                         (Some (50 # 1)) None None;
                  mkLoop (Some [mkGrade 80 "good"; mkGrade 90 "fine"])
                         None None None None None ])
          None Undefined Undefined None None None None None.

(** A service that answers the same to every request. *)
Definition exampleAdaptation : Verse -> AdaptationResult :=
  fun _ => mkAdaptation "plan" "adapted draft".

Definition exampleGrading : list Verse -> nat -> Z -> list Grade :=
  fun _ _ n => repeat (mkGrade 70 "fair") (Z.to_nat n).

Definition exampleReflection : list Verse -> nat -> ReflectionResult :=
  fun _ _ => mkReflection "plan" "third draft" None.

(** One round, graded 40 and 60, on a verse flagged [ai_halted]. *)
Definition haltedVerse : Verse :=
  mkVerse (exampleFields "GEN 1:1" "first draft")
          (Some [ mkLoop (Some [mkGrade 40 "weak"; mkGrade 60 "better"])
                         None None None None None ])
          None Undefined Undefined None (Some true) None None None.

(** One round, graded 50 and 60 and then corrected. *)
Definition correctedVerse : Verse :=
  mkVerse (exampleFields "GEN 1:2" "second draft")
          (Some [ mkLoop (Some [mkGrade 50 "weak"; mkGrade 60 "better"])
                         (Some (VStr "first draft")) None None None None ])
          None Undefined Undefined None None None None None.

(** One round, graded 50 and 60, still open. *)
Definition partlyGradedVerse : Verse :=
  mkVerse (exampleFields "GEN 1:3" "first draft")
          (Some [ mkLoop (Some [mkGrade 50 "weak"; mkGrade 60 "better"])
                         None None None None None ])
          None Undefined Undefined None None None None None.

End gradeReflectLoop.

(** ** reflectionWorker: ingestion *)

Module reflectionWorker.
Import reflectionUtils gradeReflectLoop.

Definition REFERENCE_KEY : list string := ["vref"]%string.
Definition SOURCE_KEY : list string := ["source"]%string.
Definition TRANSLATION_KEY : list string := ["fresh_translation"; "text"]%string.
Definition TRANSLATION_COMMENT_KEY : list string := ["translation_notes"]%string.

(** [lookUpKey(line, key, '')] *)
Definition lookUpOrEmpty (line : Verse) (keys : list string) : outcome value :=
  lookUpKey (VObj (fields line)) (map KStr keys) (VStr "") true.

(** [{}] *)
Definition emptyVerse : Verse :=
  mkVerse [] None None Undefined Undefined None None None None None.

(** The loop of [getReferencedLine]: the line of the first verse whose
    reference is [id]. *)
Fixpoint findReferencedLine (id : string) (n : nat) (rest : list Verse)
  : outcome (option nat) :=
  match rest with
  | [] => Ok None
  | line :: rest' =>
      let! line_id := lookUpOrEmpty line REFERENCE_KEY in
      if strict_eq_str line_id id then Ok (Some n)
      else findReferencedLine id (S n) rest'
  end.

(** [getReferencedLine(id, reflectionContent, makeIfMissing)]: the line
    (by its index) and the collection, to which a new verse may have been
    pushed. *)
Definition getReferencedLine (id : string) (reflectionContent : list Verse)
           (makeIfMissing : bool) : outcome (option nat * list Verse) :=
  let! found := findReferencedLine id 0 reflectionContent in
  match found with
  | Some n => Ok (Some n, reflectionContent)
  | None =>
      if makeIfMissing then
        let! result := setVerseKey emptyVerse REFERENCE_KEY (VStr id) in
        Ok (Some (length reflectionContent), reflectionContent ++ [result])
      else Ok (None, reflectionContent)
  end.

(** [verse.reflection_loops?.[0]?.graded_verse ?? lookUpKey(verse,
    TRANSLATION_KEY, '')] *)
Definition getOldestTranslation (verse : Verse) : outcome value :=
  let current := lookUpOrEmpty verse TRANSLATION_KEY in
  match reflection_loops verse with
  | Some (first :: _) =>
      match graded_verse first with
      | Some text => if nullish text then current else Ok text
      | None => current
      end
  | _ => current
  end.

(** [resetVerseTo(verse, text)].  The assignments before [setKey] stay
    when [setKey] throws: the verse is returned in either case. *)
Definition resetVerseTo (verse : Verse) (text : value) : Verse * outcome unit :=
  let verse := set_reflection_loops verse (Some []) in
  let verse :=
    if truthy_flag (reflection_is_finalized verse)
    then set_reflection_is_finalized verse (Some false) else verse in
  let verse :=
    match reflection_finalized_grade verse with
    | Defined g => if Qeq_bool g 0 then verse
                   else set_reflection_finalized_grade verse Null
    | _ => verse
    end in
  let verse :=
    match reflection_finalized_comment verse with
    | Defined c => if String.eqb c "" then verse
                   else set_reflection_finalized_comment verse Null
    | _ => verse
    end in
  let verse :=
    match comment_mod_loop_count verse with
    | Some c => if c =? 0 then verse
                else set_comment_mod_loop_count verse (Some 0)
    | None => verse
    end in
  match setVerseKey verse TRANSLATION_KEY text with
  | Ok verse' => (verse', Ok tt)
  | Throw e => (verse, Throw e)
  end.

(** [updateReflectionContent]: the collection as the call leaves it, and
    what the call returns or throws. *)
Definition updateReflectionContent (reflectionContent : list Verse)
           (id new_text : string) (is_source : bool)
  : list Verse * outcome bool :=
  if String.eqb new_text "" then (reflectionContent, Ok false)
  else
    match getReferencedLine id reflectionContent true with
    | Throw e => (reflectionContent, Throw e)
    | Ok (None, reflectionContent) => (reflectionContent, Ok false)
    | Ok (Some n, reflectionContent) =>
        match reflectionContent !! n with
        | None => (reflectionContent, Ok false)
        | Some line =>
            if is_source then
              match lookUpOrEmpty line SOURCE_KEY with
              | Throw e => (reflectionContent, Throw e)
              | Ok existingSource =>
                  if strict_eq_str existingSource new_text
                  then (reflectionContent, Ok false)
                  else
                    match setVerseKey line SOURCE_KEY (VStr new_text) with
                    | Ok line' => (<[ n := line' ]> reflectionContent, Ok true)
                    | Throw e => (reflectionContent, Throw e)
                    end
              end
            else
              match getOldestTranslation line with
              | Throw e => (reflectionContent, Throw e)
              | Ok existingTranslation =>
                  if strict_eq_str existingTranslation new_text
                  then (reflectionContent, Ok false)
                  else
                    let '(line', r) := resetVerseTo line (VStr new_text) in
                    (<[ n := line' ]> reflectionContent,
                     let! _ := r in Ok true)
              end
        end
    end.








End reflectionWorker.

(** ** The operations on a verse *)

Module Operations.
Import reflectionUtils gradeReflectLoop reflectionWorker.

(** What a verse carries that no step of the engine writes. *)
Definition flags (v : Verse) : option Z * option bool * option bool :=
  (comment_mod_loop_count v, ai_halted v, grade_only v).

Definition keepFlags (l l' : list Verse) : Prop :=
  Forall2 (fun v v' => flags v' = flags v) l l'.

(** Every way in which the engine and the ingestion change a verse. *)
Inductive verseStep (config : Config) : Verse -> Verse -> Prop :=
| step_computeVerseGrade verse g verse' :
    computeVerseGrade verse config = Ok (g, verse') ->
    verseStep config verse verse'
| step_finalizeVerse verse verse' :
    finalizeVerse verse config = Ok verse' ->
    verseStep config verse verse'
| step_runAdaptationPass verse adaptationResult b verse' :
    runAdaptationPass adaptationResult verse config = Ok (b, verse') ->
    verseStep config verse verse'
| step_skipReflection verse verse' inserted :
    skipReflection verse config = Ok (Some (verse', inserted)) ->
    verseStep config verse verse'
| step_appendGrades verse newGrades :
    verseStep config verse (appendGrades verse newGrades)
| step_applyReflection verse reflectionResult verse' :
    applyReflection verse reflectionResult config = Ok verse' ->
    verseStep config verse verse'
| step_setSource verse text verse' :
    setVerseKey verse SOURCE_KEY (VStr text) = Ok verse' ->
    verseStep config verse verse'
| step_resetVerseTo verse text :
    verseStep config verse (resetVerseTo verse text).1.

(** Two states of a verse that differ at most in the [source] property. *)
Definition sameButSource (v v' : Verse) : Prop :=
  (forall k, k <> "source"%string -> own (fields v') k = own (fields v) k) /\
  set_fields v' [] = set_fields v [].

End Operations.

(** ** reflectionUtils: the edit distance *)

Module editDistance.
#[local] Open Scope nat_scope.

Section Levenshtein.
Context {A : Type} `{EqDecision A}.

(** The inner loop, [j] from 1 to [an], in row [i]: [a] is what is left
    of the first string from [a.charAt(j - 1)] on, [above] is row [i - 1]
    from column [j] on, [diagonal] is [matrix[i - 1][j - 1]] and [left] is
    [matrix[i][j - 1]].  The result is row [i] from column [j] on. *)
Fixpoint fillRow (bi : A) (a : list A) (above : list nat)
         (diagonal left : nat) : list nat :=
  match a, above with
  | aj :: a', up :: above' =>
      let cell :=
        if decide (bi = aj) then diagonal
        else S (Nat.min (Nat.min diagonal left) up) in
      cell :: fillRow bi a' above' up cell
  | _, _ => []
  end.

(** The outer loop, [i] from 1 to [bn]: [b] is what is left of the
    second string from [b.charAt(i - 1)] on and [previous] is row
    [i - 1].  The result is row [bn]. *)
Fixpoint fillRows (i : nat) (b a : list A) (previous : list nat) : list nat :=
  match b with
  | [] => previous
  | bi :: b' =>
      let row :=
        match previous with
        | diagonal :: above => i :: fillRow bi a above diagonal i
        | [] => [i]
        end in
      fillRows (S i) b' a row
  end.

(** [levenshtein(a, b)], the strings as their sequences of code units. *)
Definition levenshtein (a b : list A) : nat :=
  let an := length a in
  let bn := length b in
  if (an =? 0)%nat then bn
  else if (bn =? 0)%nat then an
  else
    let firstRow := seq 0 (S an) in
    default 0%nat (last (fillRows 1 b a firstRow)).

(** The distance by its recurrence on the last characters, the strings
    given last character first. *)
Fixpoint distance (a : list A) : list A -> nat :=
  fix inner (b : list A) : nat :=
    match a, b with
    | [], _ => length b
    | _, [] => length a
    | x :: a', y :: b' =>
        if decide (x = y) then distance a' b'
        else S (Nat.min (Nat.min (distance a' b') (inner b')) (distance a' b))
    end.

(** The prefixes of a string that extend the prefix [before] (given last
    character first) by one or more characters of [after]. *)
Fixpoint prefixes (before after : list A) : list (list A) :=
  match after with
  | [] => []
  | c :: rest => (c :: before) :: prefixes (c :: before) rest
  end.

(** [edits a b n]: [n] single-character insertions, deletions and
    substitutions turn [a] into [b]. *)
Inductive edits : list A -> list A -> nat -> Prop :=
| edits_nil : edits [] [] 0
| edits_keep x a b n : edits a b n -> edits (x :: a) (x :: b) n
| edits_substitute x y a b n : edits a b n -> edits (x :: a) (y :: b) (S n)
| edits_delete x a b n : edits a b n -> edits (x :: a) b (S n)
| edits_insert y a b n : edits a b n -> edits a (y :: b) (S n).

(** Row [length bp] of the matrix, by the recurrence: the distances
    between the prefix [bp] of the second string and the prefixes of the
    first one (prefixes last character first). *)
Definition rowOf (a bp : list A) : list nat :=
  distance bp [] :: map (distance bp) (prefixes [] a).

End Levenshtein.
End editDistance.

(** ** reflectionUtils: verse references and ranges *)

Module verseReferences.
Import reflectionUtils gradeReflectLoop reflectionWorker.

(** What a function can throw besides the errors of the runtime:
    [new Error(message)]. *)
Inductive thrown : Type :=
| Runtime (e : error)
| Error (message : string).

Inductive attempt (A : Type) : Type :=
| Returns (a : A)
| Throws (t : thrown).
Arguments Returns {A} a.
Arguments Throws {A} t.

Definition attempt_bind {A B} (m : attempt A) (k : A -> attempt B) : attempt B :=
  match m with
  | Returns a => k a
  | Throws t => Throws t
  end.

Definition run {A} (m : outcome A) : attempt A :=
  match m with
  | Ok a => Returns a
  | Throw e => Throws (Runtime e)
  end.

(** A number that [parseInt] answers; the integers are exact, where the
    program has doubles (exact up to 2^53). *)
Inductive num : Type :=
| NaN
| Int (z : Z).

(** [x !== y] on numbers: [NaN] differs from itself. *)
Definition num_differs (x y : num) : bool :=
  match x, y with
  | Int a, Int b => negb (a =? b)
  | _, _ => true
  end.

(** [x !== y] on [number | null] *)
Definition chapter_differs (x y : option num) : bool :=
  match x, y with
  | None, None => false
  | Some a, Some b => num_differs a b
  | _, _ => true
  end.

Definition digitValue (c : ascii) : option Z :=
  let n := nat_of_ascii c in
  if ((48 <=? n) && (n <=? 57))%nat then Some (Z.of_nat n - 48) else None.

(** The value of the decimal digits that [s] starts with, after the
    digits already read; [None] as long as there is no digit. *)
Fixpoint digitsValue (s : string) (read : option Z) : option Z :=
  match s with
  | EmptyString => read
  | String c rest =>
      match digitValue c with
      | Some d => digitsValue rest (Some (10 * default 0 read + d))
      | None => read
      end
  end.

(** [parseInt(s, 10)]: leading white space, a sign, then digits up to
    the first character that is none. *)
Definition parseInt (s : string) : num :=
  let s := trimStart s in
  let '(sign, s) :=
    match s with
    | String "-" rest => (-1, rest)
    | String "+" rest => (1, rest)
    | _ => (1, s)
    end in
  match digitsValue s None with
  | Some n => Int (sign * n)
  | None => NaN
  end.

(** Strings of decimal digits. *)
Fixpoint allDigits (s : string) : bool :=
  match s with
  | EmptyString => true
  | String c rest => bool_decide (is_Some (digitValue c)) && allDigits rest
  end.

(** [Number.MAX_SAFE_INTEGER]: up to it the doubles of the program are
    the integers themselves. *)
Definition MAX_SAFE_INTEGER : Z := 2 ^ 53 - 1.

(** [s.includes(c)] for a one-character string [c] *)
Fixpoint includes (s : string) (c : ascii) : bool :=
  match s with
  | EmptyString => false
  | String d rest => Ascii.eqb d c || includes rest c
  end.

(** [s.lastIndexOf(c)], [None] for -1 *)
Fixpoint lastIndexOf (s : string) (c : ascii) : option nat :=
  match s with
  | EmptyString => None
  | String d rest =>
      match lastIndexOf rest c with
      | Some i => Some (S i)
      | None => if Ascii.eqb d c then Some 0%nat else None
      end
  end.

(** [s.split(c)] for a one-character separator: never empty. *)
Fixpoint split (s : string) (c : ascii) : list string :=
  match s with
  | EmptyString => [""%string]
  | String d rest =>
      if Ascii.eqb d c then ""%string :: split rest c
      else match split rest c with
           | part :: parts => String d part :: parts
           | [] => [String d ""]
           end
  end.

(** The third component of [splitRef]: [number | string | null]. *)
Inductive verseOfRef : Type :=
| NoVerse
| VerseNumber (n : num)
| VerseRange (s : string).

(** [splitRef(reference)].  Of [chapterVerseStr.split(':')] the first two
    parts are used; were the second one missing, [verseNum.includes]
    would be a TypeError. *)
Definition splitRef (reference : string)
  : outcome (string * option num * verseOfRef) :=
  match lastIndexOf reference " " with
  | None => Ok (reference, None, NoVerse)
  | Some lastSpaceIndex =>
      let bookSplit := substring 0 lastSpaceIndex reference in
      let chapterVerseStr :=
        substring (S lastSpaceIndex)
                  (String.length reference - S lastSpaceIndex) reference in
      if negb (includes chapterVerseStr ":") then
        Ok (bookSplit, Some (parseInt chapterVerseStr), NoVerse)
      else
        match split chapterVerseStr ":" with
        | chapterNum :: verseNum :: _ =>
            if includes verseNum "-" then
              Ok (bookSplit, Some (parseInt chapterNum), VerseRange verseNum)
            else
              Ok (bookSplit, Some (parseInt chapterNum),
                  VerseNumber (parseInt verseNum))
        | _ => Throw TypeError
        end
  end.

(** [splitRef2(reference)]: book, chapter, start verse and end verse.
    A range that [split('-')] cuts into fewer than two parts (there is
    none: the range includes the separator) would leave [undefined]
    elements, which are not described. *)
Definition splitRef2 (reference : string)
  : outcome (string * option num * option num * option num) :=
  let! r := splitRef reference in
  let '(book, chapter, verse) := r in
  match verse with
  | VerseRange verse =>
      if includes verse "-" then
        match map parseInt (split verse "-") with
        | startVerse :: endVerse :: _ =>
            Ok (book, chapter, Some startVerse, Some endVerse)
        | _ => Throw Unmodelled
        end
      else Ok (book, chapter, None, None)
  | VerseNumber n => Ok (book, chapter, Some n, Some n)
  | NoVerse => Ok (book, chapter, None, None)
  end.

(** [splitRef2] of a value that [lookUpKey] has answered: a TypeError
    unless the value has [includes]; an array has one of its own, which
    is not described. *)
Definition splitRef2_of (reference : value)
  : outcome (string * option num * option num * option num) :=
  match reference with
  | VStr s => splitRef2 s
  | VArr _ => Throw Unmodelled
  | _ => Throw TypeError
  end.

(** A [number | null] inside a template literal. *)
Definition numText (n : option num) : string :=
  match n with
  | None => "null"
  | Some NaN => "NaN"
  | Some (Int z) => pretty z
  end.

(** A value inside a template literal; the texts of objects, arrays and
    fractions are not described. *)
Definition templateText (v : value) : outcome string :=
  match v with
  | VStr s => Ok s
  | VNull => Ok "null"%string
  | VUndefined => Ok "undefined"%string
  | VBool true => Ok "true"%string
  | VBool false => Ok "false"%string
  | VNum q => if Pos.eqb (Qden q) 1 then Ok (pretty (Qnum q))
              else Throw Unmodelled
  | _ => Throw Unmodelled
  end.

Definition rangeMarker : string := "<range>".

(** [(lookUpKey(verse, key, '') as string).trim()]: a TypeError on a
    value that has no [trim]. *)
Definition trimmedText (verse : Verse) (key : list string) : outcome string :=
  let! x := lookUpOrEmpty verse key in
  match x with
  | VStr s => Ok (trim s)
  | _ => Throw TypeError
  end.

(** The source or the translation of a combined verse. *)
Definition combinedText (lastText : value) (thisText : string)
  : outcome value :=
  if String.eqb thisText rangeMarker then Ok lastText
  else
    let! lastText := templateText lastText in
    Ok (VStr (trim (lastText +:+ String newline thisText))).

Notation "'try!' x ':=' m 'in' k" := (attempt_bind m (fun x => k))
  (at level 10, x name, m at level 100, k at level 200).

(** "Create the new structure": a fresh verse with the combined
    reference, and with the source and the translation that are not
    falsy. *)
Definition combineVerse (referenceKey translationKey sourceKey : list string)
           (reference : string) (source translation : value) : outcome Verse :=
  let! combinedVerse := setVerseKey emptyVerse referenceKey (VStr reference) in
  let! combinedVerse :=
    if truthy source then setVerseKey combinedVerse sourceKey source
    else Ok combinedVerse in
  if truthy translation
  then setVerseKey combinedVerse translationKey translation
  else Ok combinedVerse.

(** The body of the loop of [normalizeRanges]. *)
Definition normalizeVerse (referenceKey translationKey sourceKey : list string)
           (normalized : list Verse) (thisVerse : Verse)
  : attempt (list Verse) :=
  try! thisTranslation := run (trimmedText thisVerse translationKey) in
  try! thisSource := run (trimmedText thisVerse sourceKey) in
  match last normalized with
  | Some lastVerse =>
      if String.eqb thisTranslation rangeMarker
         || String.eqb thisSource rangeMarker
      then
        try! lastReference := run (lookUp lastVerse referenceKey) in
        try! thisReference := run (lookUp thisVerse referenceKey) in
        try! lastSplit := run (splitRef2_of lastReference) in
        try! thisSplit := run (splitRef2_of thisReference) in
        let '(lastBook, lastChapter, lastStartVerse, _) := lastSplit in
        let '(thisBook, thisChapter, _, thisEndVerse) := thisSplit in
        if negb (String.eqb lastBook thisBook) then
          Throws (Error "Ranges across books not supported.")
        else if chapter_differs lastChapter thisChapter then
          Throws (Error "Ranges across chapters not supported.")
        else
          let reference :=
            lastBook +:+ " " +:+ numText lastChapter +:+ ":"
            +:+ numText lastStartVerse +:+ "-" +:+ numText thisEndVerse in
          try! lastSource := run (lookUpOrEmpty lastVerse sourceKey) in
          try! source := run (combinedText lastSource thisSource) in
          try! lastTranslation := run (lookUpOrEmpty lastVerse translationKey) in
          try! translation := run (combinedText lastTranslation thisTranslation) in
          try! combinedVerse :=
            run (combineVerse referenceKey translationKey sourceKey
                              reference source translation) in
          Returns (removelast normalized ++ [combinedVerse])
      else Returns (normalized ++ [thisVerse])
  | None => Returns (normalized ++ [thisVerse])
  end.

Fixpoint normalizeRanges_loop (referenceKey translationKey sourceKey : list string)
         (content normalized : list Verse) : attempt (list Verse) :=
  match content with
  | [] => Returns normalized
  | thisVerse :: rest =>
      try! normalized :=
        normalizeVerse referenceKey translationKey sourceKey
                       normalized thisVerse in
      normalizeRanges_loop referenceKey translationKey sourceKey rest normalized
  end.

Definition normalizeRanges (content : list Verse)
           (referenceKey translationKey sourceKey : list string)
  : attempt (list Verse) :=
  normalizeRanges_loop referenceKey translationKey sourceKey content [].



(** *** Overridden references *)

(** ToPropertyKey, for the values whose text is described. *)
Definition propertyKey (v : value) : outcome string := templateText v.

(** The first loop of [getOverriddenReferences]: [lastReference] starts
    as [null]; [overriddenReferences] is the object being filled. *)
Fixpoint collectOverrides (referenceKey overrideKey : list string)
         (translation : list Verse) (lastReference : value)
         (overriddenReferences : list (string * value))
  : outcome (list (string * value)) :=
  match translation with
  | [] => Ok overriddenReferences
  | verse :: rest =>
      let! reference := lookUp verse referenceKey in
      let! overriddenReferences :=
        if truthy lastReference then
          let! isOverride := lookUp verse overrideKey in
          if truthy isOverride then
            let! name := propertyKey lastReference in
            let! obj := assign (VObj overriddenReferences) name reference in
            match obj with
            | VObj props => Ok props
            | _ => Throw Unmodelled
            end
          else Ok overriddenReferences
        else Ok overriddenReferences in
      collectOverrides referenceKey overrideKey rest reference
                       overriddenReferences
  end.

(** [while (currentValue in overriddenReferences) currentValue =
    overriddenReferences[currentValue]]: [None] when the loop has not
    ended after [fuel] rounds. *)
Fixpoint followOverrides (fuel : nat)
         (overriddenReferences : list (string * value)) (currentValue : value)
  : outcome (option value) :=
  let! name := propertyKey currentValue in
  let! present := has_property (KStr name) (VObj overriddenReferences) in
  if present then
    match fuel with
    | O => Ok None
    | S fuel =>
        let! next := get (VObj overriddenReferences) (KStr name) in
        followOverrides fuel overriddenReferences next
    end
  else Ok (Some currentValue).

(** The second loop, over [Object.entries(overriddenReferences)].  The
    entries are taken in the order of insertion (names that are array
    indices would come first, which changes nothing of the result as a
    table). *)
Fixpoint updateOverrides (fuel : nat)
         (overriddenReferences entries updatedReferences : list (string * value))
  : outcome (option (list (string * value))) :=
  match entries with
  | [] => Ok (Some updatedReferences)
  | (key, value) :: rest =>
      let! ended := followOverrides fuel overriddenReferences value in
      match ended with
      | None => Ok None
      | Some currentValue =>
          let! obj := assign (VObj updatedReferences) key currentValue in
          match obj with
          | VObj props =>
              updateOverrides fuel overriddenReferences rest props
          | _ => Throw Unmodelled
          end
      end
  end.

(** [getOverriddenReferences(translation, referenceKey, overrideKey)];
    [None] when a [while] loop has not ended after [fuel] rounds. *)
Definition getOverriddenReferences (fuel : nat) (translation : list Verse)
           (referenceKey : list string) (overrideKey : option (list string))
  : outcome (option (list (string * value))) :=
  let! overriddenReferences :=
    match overrideKey with
    | Some overrideKey =>
        collectOverrides referenceKey overrideKey translation VNull []
    | None => Ok []
    end in
  updateOverrides fuel overriddenReferences overriddenReferences [].

(** What the loops read of a verse: its reference, a string, and whether
    the value under [overrideKey] is truthy. *)
Definition overrideMark (referenceKey overrideKey : list string)
           (verse : Verse) (mark : string * bool) : Prop :=
  lookUp verse referenceKey = Ok (VStr mark.1) /\
  exists x, lookUp verse overrideKey = Ok x /\ truthy x = mark.2.

(** The table of the first loop, from the marks of the verses. *)
Fixpoint links (marks : list (string * bool)) (lastReference : option string)
         (overriddenReferences : list (string * value))
  : list (string * value) :=
  match marks with
  | [] => overriddenReferences
  | (reference, isOverride) :: rest =>
      links rest (Some reference)
            match lastReference with
            | Some l => if isOverride
                        then put overriddenReferences l (VStr reference)
                        else overriddenReferences
            | None => overriddenReferences
            end
  end.

(** A reference that names a property of its own: not empty, and no
    name that objects inherit. *)
Definition plainName (r : string) : Prop :=
  r <> ""%string /\ inherited r = false.

(** The verses after line [i] up to line [j] are marked as overrides, and
    the verse after line [j], if there is one, is not. *)
Definition overrideRun (marks : list (string * bool)) (i j : nat) : Prop :=
  (i <= j)%nat /\
  (forall k, (i < k <= j)%nat -> exists r, marks !! k = Some (r, true)) /\
  (forall r, marks !! S j <> Some (r, true)).

End verseReferences.

(** ** The verses that the search for the lowest grade considers *)

Module Selection.
Import reflectionUtils gradeReflectLoop.

(** The tests that a verse passes before the search for the lowest
    graded verse computes its grade: inside the line range, not halted,
    not grade-only, not finalized, with a reference that is not
    overridden. *)
Definition reflectable (config : Config)
           (overRiddenReferences : list (string * string))
           (verseLineNumber : nat) (verse : Verse) : Prop :=
  beforeStartLine config verseLineNumber = false /\
  afterEndLine config verseLineNumber = false /\
  is_true (ai_halted verse) = false /\
  is_true (grade_only verse) = false /\
  verseIsFinalized verse = false /\
  exists vref,
    lookUp verse (reference_key config) = Ok vref /\
    nullish vref = false /\
    inOverridden vref overRiddenReferences = Ok false.

(** A verse that the search considers, and the grade it has. *)
Definition candidate (config : Config)
           (overRiddenReferences : list (string * string))
           (verseLineNumber : nat) (verse : Verse) (verseGrade : Q) : Prop :=
  reflectable config overRiddenReferences verseLineNumber verse /\
  exists verse', computeVerseGrade verse config = Ok (Some verseGrade, verse').

End Selection.

(** ** reflectionWorker: the modification times of the project files *)

Module workerFiles.

(** [TrackingModTimes]; a date is its [getTime()], in milliseconds (the
    dates are valid ones). *)
Record TrackingModTimes : Type := mkTracking {
  observed_mod_time : Z;
  updated_mod_time : Z;
  reflected_mod_time : Z;
  reported_mod_time : Z
}.

(** The table [{ [file: string]: TrackingModTimes }], an object: its own
    properties in the order of insertion (the paths are no array
    indices). *)
Definition Tracking : Type := list (string * TrackingModTimes).

Fixpoint tracked (table : Tracking) (filePath : string)
  : option TrackingModTimes :=
  match table with
  | [] => None
  | (path, modTimes) :: rest =>
      if String.eqb path filePath then Some modTimes else tracked rest filePath
  end.

(** [table[filePath] = modTimes] *)
Fixpoint track (table : Tracking) (filePath : string)
         (modTimes : TrackingModTimes) : Tracking :=
  match table with
  | [] => [(filePath, modTimes)]
  | (path, old) :: rest =>
      if String.eqb path filePath then (path, modTimes) :: rest
      else (path, old) :: track rest filePath modTimes
  end.

Definition set_observed (m : TrackingModTimes) (t : Z) : TrackingModTimes :=
  mkTracking t (updated_mod_time m) (reflected_mod_time m) (reported_mod_time m).

Definition set_updated (m : TrackingModTimes) (t : Z) : TrackingModTimes :=
  mkTracking (observed_mod_time m) t (reflected_mod_time m) (reported_mod_time m).

(** The loop of [updateObservedModTimes] over the listed files; the
    result is the table and [changed].  A path that names an inherited
    member reads as that member, whose [observed_mod_time] is
    [undefined]: a TypeError. *)
Fixpoint updateObservedModTimes (observedModTimes : Tracking)
         (newModTimes : list (string * Z)) (changed : bool)
  : outcome (Tracking * bool) :=
  match newModTimes with
  | [] => Ok (observedModTimes, changed)
  | (filePath, modTime) :: rest =>
      match tracked observedModTimes filePath with
      | Some modTimes =>
          if observed_mod_time modTimes <? modTime then
            updateObservedModTimes
              (track observedModTimes filePath (set_observed modTimes modTime))
              rest true
          else updateObservedModTimes observedModTimes rest changed
      | None =>
          if inherited filePath then Throw TypeError
          else
            updateObservedModTimes
              (track observedModTimes filePath (mkTracking modTime 0 0 0))
              rest true
      end
  end.

(** [entries.reduce((acc, [filePath, modTimes]) => { acc[filePath] =
    modTimes; return acc; }, {})]; assigning to [__proto__] is not
    described. *)
Fixpoint collectFiles (entries acc : Tracking) : outcome Tracking :=
  match entries with
  | [] => Ok acc
  | (filePath, modTimes) :: rest =>
      if String.eqb filePath "__proto__" then Throw Unmodelled
      else collectFiles rest (track acc filePath modTimes)
  end.

(** [getFilesToUpdate]: the entries whose observed time is later than
    their updated time, in a new table. *)
Definition getFilesToUpdate (trackingModTimes : Tracking) : outcome Tracking :=
  collectFiles
    (filter (fun entry => bool_decide
                            (observed_mod_time entry.2 > updated_mod_time entry.2))
            trackingModTimes)
    [].

(** The loop of [updateUpdatedModTimes]; a file that the table does not
    hold is a TypeError. *)
Fixpoint updateUpdatedModTimes (trackingModTimes filesToUpdate : Tracking)
         (changed : bool) : outcome (Tracking * bool) :=
  match filesToUpdate with
  | [] => Ok (trackingModTimes, changed)
  | (filePath, modTimes) :: rest =>
      match tracked trackingModTimes filePath with
      | Some current =>
          if updated_mod_time current <? observed_mod_time modTimes then
            updateUpdatedModTimes
              (track trackingModTimes filePath
                     (set_updated current (observed_mod_time modTimes)))
              rest true
          else updateUpdatedModTimes trackingModTimes rest changed
      | None => Throw TypeError
      end
  end.

End workerFiles.

(** ** The log view *)

Module logsView.

Record LogMessage : Type := mkLog {
  message : string;
  level : string;
  timestamp : string
}.

(** The state of [ReflectionLogsWebviewProvider] that [addLogMessage]
    uses: the messages, and whether an update of the view is
    scheduled. *)
Record LogState : Type := mkLogState {
  logMessages : list LogMessage;
  updateWebviewTimeout : bool
}.

Definition maxLogMessages : nat := 100.

(** [array.slice(-n)] for a positive [n] *)
Definition slice_last {A} (n : nat) (l : list A) : list A :=
  drop (length l - n) l.

(** [addLogMessage(logData)]: the new state and whether the call has
    scheduled an update. *)
Definition addLogMessage (st : LogState) (logData : LogMessage)
  : LogState * bool :=
  let logMessages := logMessages st ++ [logData] in
  let logMessages :=
    if (maxLogMessages <? length logMessages)%nat
    then slice_last maxLogMessages logMessages
    else logMessages in
  (mkLogState logMessages true, negb (updateWebviewTimeout st)).

(** The callback of the timer: the view is updated and the timer
    forgotten. *)
Definition updateFired (st : LogState) : LogState :=
  mkLogState (logMessages st) false.

(** [clearLogMessages()] *)
Definition clearLogMessages (st : LogState) : LogState :=
  mkLogState [] (updateWebviewTimeout st).

(** Messages added one after the other: the state and the number of
    updates scheduled. *)
Fixpoint addLogMessages (st : LogState) (logs : list LogMessage)
  : LogState * nat :=
  match logs with
  | [] => (st, 0%nat)
  | logData :: rest =>
      let '(st, scheduled) := addLogMessage st logData in
      let '(st, n) := addLogMessages st rest in
      (st, ((if scheduled then 1 else 0) + n)%nat)
  end.

End logsView.


(** ** Key paths through plain objects *)

Module keyPaths.

(** The values that hold no properties to write: [undefined], [null],
    booleans, numbers and strings. *)
Definition primitive (v : value) : bool :=
  match v with
  | VUndefined | VNull | VBool _ | VNum _ | VStr _ => true
  | _ => false
  end.

(** The value that [keys] leads to through own properties of plain
    objects. *)
Fixpoint ownPath (v : value) (keys : list string) : option value :=
  match keys with
  | [] => Some v
  | k :: rest =>
      match v with
      | VObj props =>
          match own props k with
          | Some child => ownPath child rest
          | None => None
          end
      | _ => None
      end
  end.

End keyPaths.

(** ** reflectionWorker: the verses of a notebook *)

Module notebooks.
Import verseReferences.

(** [verse.replace(/<[^>]*>/g, '')].  A match starts at a [<] that a [>]
    follows somewhere, and ends at the first such [>]; [inTag] says that
    the characters read are inside a match. *)
Fixpoint stripTags_from (inTag : bool) (s : string) : string :=
  match s with
  | EmptyString => ""
  | String c rest =>
      if inTag then
        if Ascii.eqb c ">" then stripTags_from false rest
        else stripTags_from true rest
      else if Ascii.eqb c "<" && includes rest ">" then stripTags_from true rest
      else String c (stripTags_from false rest)
  end.

Definition stripTags (s : string) : string := stripTags_from false s.

(** No [<] of [s] is followed by a [>]: [s] holds no tag. *)
Fixpoint tagFree (s : string) : bool :=
  match s with
  | EmptyString => true
  | String c rest =>
      (negb (Ascii.eqb c "<") || negb (includes rest ">")) && tagFree rest
  end.

(** [x ?? d] *)
Definition orElse (x d : value) : value := if nullish x then d else x.

(** The function that [reduce] applies to a cell. *)
Definition notebookCell (acc : list (string * value)) (cell : value)
  : outcome (list (string * value)) :=
  let! metadata := get cell (KStr "metadata") in
  let! id := if nullish metadata then Ok VUndefined
             else get metadata (KStr "id") in
  let id := orElse id (VStr "") in
  let! langId := get cell (KStr "languageId") in
  let langId := orElse langId (VStr "") in
  if truthy id && negb (strict_eq_str langId "paratext") then
    let! verse := get cell (KStr "value") in
    match orElse verse (VStr "") with
    | VStr verse =>
        let verseWithoutHtml := stripTags verse in
        let! name := propertyKey id in
        let! obj := assign (VObj acc) name (VStr verseWithoutHtml) in
        match obj with
        | VObj props => Ok props
        | _ => Throw Unmodelled
        end
    | _ => Throw TypeError
    end
  else Ok acc.

(** [cells.reduce(..., acc)] *)
Fixpoint notebookCells (cells : list value) (acc : list (string * value))
  : outcome (list (string * value)) :=
  match cells with
  | [] => Ok acc
  | cell :: rest =>
      let! acc := notebookCell acc cell in
      notebookCells rest acc
  end.

(** [notebookDataToIdToContent(noteBookData)]: the table from the ids of
    the cells to their texts.  Of a value that is no array, [reduce] is
    no function. *)
Definition notebookDataToIdToContent (noteBookData : value)
  : outcome (list (string * value)) :=
  let! cells := get noteBookData (KStr "cells") in
  match orElse cells (VArr []) with
  | VArr cells => notebookCells cells []
  | _ => Throw TypeError
  end.

End notebooks.

(** ** Small inputs, used to exercise the definitions *)

Module Examples.
Import reflectionUtils gradeReflectLoop reflectionWorker.
Import verseReferences workerFiles logsView notebooks.

(** A verse as the ingestion stores it. *)
Definition plainVerse (vref source text : string) : Verse :=
  set_fields emptyVerse
    [("vref", VStr vref); ("source", VStr source);
     ("fresh_translation", VObj [("text", VStr text)])]%string.

(** GEN 1:1, and GEN 1:2 translated together with it. *)
Definition firstVerse : Verse :=
  plainVerse "GEN 1:1" "In the beginning" "Au commencement".

Definition rangeVerse : Verse :=
  plainVerse "GEN 1:2" "And the earth" "<range>".

Definition thirdVerse : Verse :=
  plainVerse "GEN 1:3" "And God said" "Et Dieu dit".

(** A verse with the flag that marks it as overriding the one before. *)
Definition overrideVerse (vref : string) (isOverride : bool) : Verse :=
  set_fields emptyVerse
    [("vref", VStr vref); ("override", VBool isOverride)]%string.

(** Four verses, the second and the third overriding. *)
Definition overrideMarks : list (string * bool) :=
  [("GEN 1:1", false); ("GEN 1:2", true); ("GEN 1:3", true);
   ("GEN 1:4", false)]%string.

Definition overrideVerses : list Verse :=
  map (fun m => overrideVerse m.1 m.2) overrideMarks.

(** The configuration of the examples, with an adaptation prompt. *)
Definition adaptingConfig : Config :=
  mkConfig (reference_key exampleConfig) (translation_key exampleConfig)
           (translation_comment_key exampleConfig) (source_key exampleConfig)
           (override_key exampleConfig)
           (grades_per_reflection_loop exampleConfig)
           (reflection_loops_per_verse exampleConfig)
           (iterations_pass_comment exampleConfig)
           (grade_mode_enabled exampleConfig) (Some "Adapt the verse."%string)
           (start_line exampleConfig) (end_line exampleConfig)
           (manual_edit_mode exampleConfig) (debug_force_vref exampleConfig)
           (highest_grade_to_reflect exampleConfig)
           (iterations_without_improvement_max exampleConfig)
           (reset_reflection_loops_on_update exampleConfig)
           (summarize_corrections exampleConfig)
           (num_context_verses_before exampleConfig)
           (num_context_verses_after exampleConfig).

(** One round, graded 50 and 60, on a verse whose comments have changed
    since. *)
Definition commentedVerse : Verse :=
  set_comment_mod_loop_count partlyGradedVerse (Some 1).

(** Three tracked files: the first changed since its update, the second
    new, the third up to date. *)
Definition trackedFiles : Tracking :=
  [("files/target/GEN.codex", mkTracking 9 5 0 0);
   ("files/target/EXO.codex", mkTracking 3 0 0 0);
   (".project/comments.json", mkTracking 4 4 0 0)]%string.

(** A notebook of three cells: a verse with markup, a cell of another
    kind, and a cell without an id. *)
Definition exampleNotebook : value :=
  VObj [("cells",
         VArr [VObj [("value", VStr "<p>Au <b>commencement</b></p>");
                     ("languageId", VStr "scripture");
                     ("metadata", VObj [("id", VStr "GEN 1:1")])];
               VObj [("value", VStr "<h1>Genesis</h1>");
                     ("languageId", VStr "paratext");
                     ("metadata", VObj [("id", VStr "GEN 1:0")])];
               VObj [("value", VStr "a < b"); ("metadata", VObj [])]])]%string.

Definition twoLogs : list LogMessage :=
  [mkLog "worker: started" "info" "2025-01-01T00:00:00.000Z";
   mkLog "worker: done" "info" "2025-01-01T00:00:01.000Z"]%string.

End Examples.

(** * Properties *)

(** ** Properties of the key-path accessor *)

Section LookUpKey.
Import reflectionUtils.

Lemma lookUpKey_loop_returns (keys : list key) :
  forall current d nv, exists v, lookUpKey_loop current keys d nv = Ok v.
Proof.
  induction keys as [|k rest IH]; intros current d nv; simpl.
  - destruct (is_null current && negb nv); eauto.
  - destruct current as [| | b | q | s | elems | props | n]; simpl; eauto.
    + destruct k as [s|n]; eauto.
      destruct ((n <? 0) || (n >=? Z.of_nat (length elems))) eqn:Hb; eauto.
      apply orb_false_iff in Hb as [H1 H2].
      assert (Hin : (0 <=? n) && (n <? Z.of_nat (length elems)) = true) by lia.
      rewrite Hin; simpl. apply IH.
    + destruct (bool_decide (is_Some (own props (prop_name k)))
                || inherited (prop_name k)) eqn:Hp; simpl; eauto.
      destruct (own props (prop_name k)); simpl; [apply IH|].
      destruct (inherited (prop_name k)); simpl; apply IH.
    + destruct n as [|name]; simpl; eauto.
      destruct (inherited (prop_name k)) eqn:Hi; simpl; eauto.
      destruct (String.eqb (prop_name k) "__proto__"); simpl; apply IH.
Qed.

Lemma lookUpKey_loop_walk (pre : list key) :
  forall current rest d nv,
    lookUpKey_loop current (pre ++ rest) d nv =
    match walk current pre with
    | Some reached => lookUpKey_loop reached rest d nv
    | None => Ok d
    end.
Proof.
  induction pre as [|k pre IH]; intros current rest d nv; [done|].
  destruct current as [| | b | q | s | elems | props | n]; simpl; try done.
  - destruct k as [s|n]; [done|].
    destruct ((n <? 0) || (n >=? Z.of_nat (length elems))) eqn:Hb; [done|].
    apply orb_false_iff in Hb as [H1 H2].
    assert (Hin : (0 <=? n) && (n <? Z.of_nat (length elems)) = true) by lia.
    rewrite Hin; simpl. apply IH.
  - destruct (own props (prop_name k)) eqn:Ho; simpl; [apply IH|].
    destruct (inherited (prop_name k)); simpl; [apply IH|done].
  - destruct n as [|name]; simpl; [|done].
    destruct (String.eqb (prop_name k) "__proto__") eqn:He; simpl.
    + apply String.eqb_eq in He. rewrite He. simpl. apply IH.
    + destruct (inherited (prop_name k)); simpl; [apply IH|done].
Qed.

(** C10, as stated, fails on a key that the object does not hold but
    inherits: [lookUpKey({}, ["toString"])] answers the inherited method,
    not the default, because the guard is [key in current]. *)
Lemma lookUpKey_missing_key_inherited :
  own [] "toString" = None /\
  lookUpKey (VObj []) [KStr "toString"] VNull true
    = Ok (VNative (PrototypeMember "toString")) /\
  ~ (forall props k rest d nv,
       own props (prop_name k) = None ->
       lookUpKey (VObj props) (k :: rest) d nv = Ok d).
Proof.
  split; [reflexivity|]. split; [reflexivity|].
  intros H. specialize (H [] (KStr "toString") [] VNull true eq_refl).
  vm_compute in H. discriminate H.
Qed.

(** C10 (amended): [lookUpKey] is total, it returns a value for every
    input value and every key path and never throws.  Wherever the path
    has led ([walk data pre = Some reached]), the next key yields the
    supplied default when [reached] is an object that neither holds nor
    inherits the key, when [reached] is an array and the key is not a
    number or is out of bounds, and when [reached] is not an object. *)
Theorem lookUpKey_total_defaults :
  (forall data keys d nv, exists v, lookUpKey data keys d nv = Ok v) /\
  (forall data pre props k rest d nv,
      walk data pre = Some (VObj props) ->
      own props (prop_name k) = None ->
      inherited (prop_name k) = false ->
      lookUpKey data (pre ++ k :: rest) d nv = Ok d) /\
  (forall data pre elems k rest d nv,
      walk data pre = Some (VArr elems) ->
      match k with
      | KStr _ => True
      | KNum n => n < 0 \/ Z.of_nat (length elems) <= n
      end ->
      lookUpKey data (pre ++ k :: rest) d nv = Ok d) /\
  (forall data pre reached k rest d nv,
      walk data pre = Some reached ->
      non_object reached = true ->
      lookUpKey data (pre ++ k :: rest) d nv = Ok d).
Proof.
  split; [intros; apply lookUpKey_loop_returns|].
  unfold lookUpKey.
  split; [|split].
  - intros data pre props k rest d nv Hw Ho Hi.
    rewrite lookUpKey_loop_walk, Hw. simpl. by rewrite Ho, Hi.
  - intros data pre elems k rest d nv Hw Hk.
    rewrite lookUpKey_loop_walk, Hw. simpl.
    destruct k as [s|n]; [done|].
    assert (Hb : (n <? 0) || (n >=? Z.of_nat (length elems)) = true) by lia.
    by rewrite Hb.
  - intros data pre reached k rest d nv Hw Hn.
    rewrite lookUpKey_loop_walk, Hw.
    destruct reached as [| | b | q | s | elems | props | [|name]]; done.
Qed.

Lemma lookUpKey_total_defaults_witness :
  let data := VObj [("fresh_translation", VObj [("text", VStr "In the beginning")]);
                    ("tags", VArr [VStr "a"; VStr "b"])]%string in
  (exists v, lookUpKey data [KStr "fresh_translation"; KStr "text"] VNull true = Ok v) /\
  lookUpKey data ([KStr "fresh_translation"] ++ [KStr "notes"]) (VStr "") true
    = Ok (VStr "") /\
  lookUpKey data ([KStr "tags"] ++ [KNum 2]) VNull true = Ok VNull /\
  lookUpKey data ([KStr "fresh_translation"; KStr "text"] ++ [KStr "length"]) VNull true
    = Ok VNull.
Proof.
  intros data.
  destruct lookUpKey_total_defaults as (Htotal & Hobj & Harr & Hprim).
  split; [apply Htotal|].
  split; [eapply Hobj; reflexivity|].
  split; [eapply Harr; [reflexivity|simpl; lia]|].
  eapply Hprim; reflexivity.
Defined.

End LookUpKey.

(** ** Properties of the grade aggregator and of finalization *)

Section GradeAggregator.
Import reflectionUtils gradeReflectLoop.

Lemma lookUp_returns (verse : Verse) (keys : list string) :
  exists x, lookUp verse keys = Ok x.
Proof. apply lookUpKey_loop_returns. Qed.

Lemma setVerseKey_frame verse keys x verse' :
  setVerseKey verse keys x = Ok verse' ->
  exists props, verse' = set_fields verse props.
Proof.
  unfold setVerseKey.
  destruct (setKey _ _ _) as [[]|]; try done.
  intros [= <-]. eauto.
Qed.

Lemma markLastLoop_length verse config loops loops' :
  markLastLoop verse config loops = Ok loops' ->
  length loops' = length loops /\ loops <> [].
Proof.
  unfold markLastLoop. intros H.
  destruct (last loops) as [lastLoop|] eqn:Hlast; [|done].
  split; [|by intros ->].
  destruct (truthy_prop _); [by injection H as ->|].
  destruct (lookUp verse (translation_key config)); simpl in H; [|done].
  destruct (translation_comment_key config) as [ck|]; simpl in H.
  - destruct (lookUp verse ck); simpl in H; [|done].
    injection H as <-. by rewrite length_insert.
  - injection H as <-. by rewrite length_insert.
Qed.

(** With a recorded comment change the result is the larger of the two
    candidate counts. *)
Lemma computeReflectionLoopsNeeded_touched verse config c :
  comment_mod_loop_count verse = Some c ->
  computeReflectionLoopsNeeded verse config =
  Z.max (c + default 5 (iterations_pass_comment config))
        (default 0 (reflection_loops_per_verse config)).
Proof. intros H. unfold computeReflectionLoopsNeeded. by rewrite H. Qed.

(** Without one, and with the pass count left at its default, it is the
    configured round count. *)
Lemma computeReflectionLoopsNeeded_untouched_default verse config r :
  comment_mod_loop_count verse = None ->
  iterations_pass_comment config = None ->
  reflection_loops_per_verse config = Some r ->
  0 <= r ->
  computeReflectionLoopsNeeded verse config = r.
Proof.
  intros H1 H2 H3 Hr. unfold computeReflectionLoopsNeeded.
  rewrite H1, H2, H3. simpl. unfold ITERATIONS_PASS_COMMENT_DEFAULT. lia.
Qed.

(** C6: on a verse that no comment change has touched, with
    [reflection_loops_per_verse = 2] and [iterations_pass_comment = 10],
    [computeReflectionLoopsNeeded] answers 5, not the configured round
    count 2: the stand-in for the missing [comment_mod_loop_count] is
    minus the default pass count, not minus the configured one. *)
Theorem computeReflectionLoopsNeeded_untouched_configured_pass :
  let verse := mkVerse [("vref", VStr "GEN 1:1")]%string
                       None None Undefined Undefined None None None None None in
  let config := with_rounds defaultConfig 6 (Some 2) (Some 10) in
  comment_mod_loop_count verse = None /\
  reflection_loops_per_verse config = Some 2 /\
  computeReflectionLoopsNeeded verse config = 5.
Proof. repeat split. Qed.

(** C2: on a verse that has a reference and is finalized,
    [computeVerseGrade] returns [reflection_finalized_grade] whatever the
    rounds are changed to (as long as there are rounds), and leaves the
    verse alone; and a verse that [finalizeVerse] has just finalized has
    rounds and a finalized grade. *)
Theorem computeVerseGrade_finalized :
  (forall verse config loops',
      hasReference verse config ->
      verseIsFinalized verse = true ->
      loops' <> [] ->
      let verse' := set_reflection_loops verse (Some loops') in
      computeVerseGrade verse' config =
      Ok (match reflection_finalized_grade verse with
          | Defined g => Some g
          | _ => None
          end, verse')) /\
  (forall verse config verse',
      verseIsFinalized verse = false ->
      finalizeVerse verse config = Ok verse' ->
      verseIsFinalized verse' = true ->
      (exists g, reflection_finalized_grade verse' = Defined g) /\
      (exists loops, reflection_loops verse' = Some loops /\ loops <> [])).
Proof.
  split.
  - intros verse config loops' (vref & Hv & Hn) Hfin Hne verse'.
    unfold computeVerseGrade.
    change (lookUp verse' (reference_key config))
      with (lookUp verse (reference_key config)).
    rewrite Hv. simpl. rewrite Hn.
    destruct loops' as [|l ls]; [done|].
    change (verseIsFinalized verse') with (verseIsFinalized verse).
    by rewrite Hfin.
  - intros verse config verse' Hnot Hfin Hnow.
    unfold finalizeVerse in Hfin.
    destruct (reflection_loops verse) as [loops|] eqn:Hl;
      [|injection Hfin as <-; congruence].
    rewrite Hnot in Hfin.
    destruct (verseNeedsFinalization verse config) as [needed|e] eqn:Hneed;
      simpl in Hfin; [|done].
    destruct needed; simpl in Hfin; [|injection Hfin as <-; congruence].
    destruct (computeVerseGrade verse config) as [[g verse1]|e] eqn:Hg;
      simpl in Hfin; [|done].
    assert (Hnot1 : verseIsFinalized verse1 = false).
    { unfold computeVerseGrade in Hg.
      destruct (lookUp verse (reference_key config)); simpl in Hg; [|done].
      destruct (nullish a); [by injection Hg as _ <-|].
      rewrite Hl in Hg. destruct loops; [by injection Hg as _ <-|].
      rewrite Hnot in Hg.
      destruct (firstGradedLoop _ _). by injection Hg as _ <-. }
    destruct (bestLoopFrom _ _ _) as [[bestIndex bestGrade]|];
      [|injection Hfin as <-; congruence].
    destruct (markLastLoop verse1 config _) as [loops2|e] eqn:Hmark;
      simpl in Hfin; [|done].
    destruct (setVerseKey _ (translation_key config) _) as [verse2|e] eqn:Hs1;
      simpl in Hfin; [|done].
    assert (Hl2 : reflection_loops verse2 = Some loops2).
    { apply setVerseKey_frame in Hs1 as [props ->]. done. }
    assert (Hne : loops2 <> []).
    { apply markLastLoop_length in Hmark as [Hlen Hne].
      intros ->. destruct (default [] (reflection_loops verse1)); done. }
    destruct (translation_comment_key config) as [ck|].
    + destruct (setVerseKey verse2 ck _) as [verse3|e] eqn:Hs2;
        simpl in Hfin; [|done].
      injection Hfin as <-. simpl. split; [eauto|].
      apply setVerseKey_frame in Hs2 as [props ->]. simpl. eauto.
    + simpl in Hfin. injection Hfin as <-. simpl. eauto.
Qed.

(** *** Stashing averages *)

Lemma computeGradeForReflectionLoop_again l config g l' :
  computeGradeForReflectionLoop l config = (g, l') ->
  computeGradeForReflectionLoop l' config = (g, l').
Proof.
  unfold computeGradeForReflectionLoop.
  destruct (average_grade l) as [a|] eqn:Ha.
  - intros [= <- <-]. by rewrite Ha.
  - destruct (0 <? _) eqn:Hc.
    + destruct (_ >=? _) eqn:Hn; intros [= <- <-]; simpl.
      * done.
      * by rewrite Ha, Hc, Hn.
    + intros [= <- <-]. by rewrite Ha, Hc.
Qed.

Lemma firstGradedLoop_again ls config :
  forall g ls', firstGradedLoop ls config = (g, ls') ->
                firstGradedLoop ls' config = (g, ls').
Proof.
  induction ls as [|l ls IH]; intros g ls'; simpl.
  - by intros [= <- <-].
  - destruct (computeGradeForReflectionLoop l config) as [[a|] l1] eqn:Hl.
    + intros [= <- <-]. simpl.
      by rewrite (computeGradeForReflectionLoop_again _ _ _ _ Hl).
    + destruct (firstGradedLoop ls config) as [g2 ls2] eqn:Hrec.
      intros [= <- <-]. simpl.
      rewrite (computeGradeForReflectionLoop_again _ _ _ _ Hl).
      by rewrite (IH _ _ eq_refl).
Qed.

Lemma firstGradedLoop_length ls config :
  forall g ls', firstGradedLoop ls config = (g, ls') -> length ls' = length ls.
Proof.
  induction ls as [|l ls IH]; intros g ls'; simpl.
  - by intros [= <- <-].
  - destruct (computeGradeForReflectionLoop l config) as [[a|] l1] eqn:Hl.
    + by intros [= <- <-].
    + destruct (firstGradedLoop ls config) as [g2 ls2] eqn:Hrec.
      intros [= <- <-]. simpl. f_equal. by eapply IH.
Qed.

(** [computeVerseGrade] only ever rewrites [reflection_loops]. *)
Lemma computeVerseGrade_frame verse config g verse1 :
  computeVerseGrade verse config = Ok (g, verse1) ->
  verse1 = verse \/
  exists loops newestFirst',
    hasReference verse config /\
    reflection_loops verse = Some loops /\ loops <> [] /\
    verseIsFinalized verse = false /\
    firstGradedLoop (reverse loops) config = (g, newestFirst') /\
    verse1 = set_reflection_loops verse (Some (reverse newestFirst')).
Proof.
  unfold computeVerseGrade.
  unfold hasReference.
  destruct (lookUp verse (reference_key config)) as [vref|]; simpl; [|done].
  destruct (nullish vref) eqn:Hn; [intros [= <- <-]; by left|].
  destruct (reflection_loops verse) as [[|l ls]|] eqn:Hl;
    try (intros [= <- <-]; by left).
  destruct (verseIsFinalized verse) eqn:Hf; [intros [= <- <-]; by left|].
  destruct (firstGradedLoop _ _) as [g' nf] eqn:Hfg.
  intros [= <- <-]. right. exists (l :: ls), nf. eauto 10.
Qed.

Lemma computeVerseGrade_again verse config g verse1 :
  computeVerseGrade verse config = Ok (g, verse1) ->
  computeVerseGrade verse1 config = Ok (g, verse1).
Proof.
  intros H. destruct (computeVerseGrade_frame _ _ _ _ H)
    as [->|(loops & nf & (vref & Hv & Hn) & Hl & Hne & Hf & Hfg & ->)]; [done|].
  clear H. unfold computeVerseGrade.
  change (lookUp (set_reflection_loops verse (Some (reverse nf))) (reference_key config))
    with (lookUp verse (reference_key config)).
  rewrite Hv. simpl. rewrite Hn.
  pose proof (firstGradedLoop_length _ _ _ _ Hfg) as Hlen.
  rewrite length_reverse in Hlen.
  destruct (reverse nf) as [|l' ls'] eqn:Hrev.
  { apply (f_equal length) in Hrev. rewrite length_reverse in Hrev.
    destruct loops; simpl in *; [done|lia]. }
  change (verseIsFinalized (set_reflection_loops verse (Some (l' :: ls'))))
    with (verseIsFinalized verse).
  rewrite Hf, <- Hrev, reverse_involutive.
  by rewrite (firstGradedLoop_again _ _ _ _ Hfg).
Qed.

Lemma computeGradeForReflectionLoop_stashed l config g l' :
  computeGradeForReflectionLoop l config = (g, l') -> stashed l l'.
Proof.
  unfold computeGradeForReflectionLoop, stashed.
  destruct (average_grade l) as [a|] eqn:Ha; [intros [= <- <-]; by left|].
  destruct (0 <? _); [|intros [= <- <-]; by left].
  destruct (_ >=? _); intros [= <- <-]; [right; eauto|by left].
Qed.

Lemma firstGradedLoop_stashed ls config :
  forall g ls', firstGradedLoop ls config = (g, ls') -> Forall2 stashed ls ls'.
Proof.
  induction ls as [|l ls IH]; intros g ls'; simpl.
  - intros [= <- <-]. constructor.
  - destruct (computeGradeForReflectionLoop l config) as [[a|] l1] eqn:Hl.
    + intros [= <- <-]. constructor.
      * by eapply computeGradeForReflectionLoop_stashed.
      * apply Forall2_same_length_lookup. split; [done|].
        intros i x y Hx Hy. left. congruence.
    + destruct (firstGradedLoop ls config) as [g2 ls2] eqn:Hrec.
      intros [= <- <-]. constructor.
      * by eapply computeGradeForReflectionLoop_stashed.
      * by eapply IH.
Qed.

Lemma computeVerseGrade_stashed verse config g verse1 loops :
  computeVerseGrade verse config = Ok (g, verse1) ->
  reflection_loops verse = Some loops ->
  exists loops1,
    Forall2 stashed loops loops1 /\
    verse1 = set_reflection_loops verse (Some loops1).
Proof.
  intros H Hl. destruct (computeVerseGrade_frame _ _ _ _ H)
    as [->|(loops' & nf & _ & Hl' & _ & _ & Hfg & ->)].
  - exists loops. split.
    + apply Forall2_same_length_lookup. split; [done|].
      intros i x y Hx Hy. left. congruence.
    + destruct verse; simpl in *; by subst.
  - exists (reverse nf). split; [|done].
    assert (loops' = loops) as -> by congruence.
    apply firstGradedLoop_stashed, Forall2_reverse in Hfg.
    by rewrite reverse_involutive in Hfg.
Qed.

Lemma stashed_grades l l' : stashed l l' -> grades l' = grades l.
Proof. by intros [->|(a & _ & ->)]. Qed.

Lemma stashed_graded_verse l l' :
  stashed l l' ->
  graded_verse l' = graded_verse l /\
  graded_verse_comment l' = graded_verse_comment l.
Proof. by intros [->|(a & _ & ->)]. Qed.

Lemma verseNeedsFinalization_stashed verse config loops loops1 :
  reflection_loops verse = Some loops ->
  Forall2 stashed loops loops1 ->
  verseNeedsFinalization (set_reflection_loops verse (Some loops1)) config
  = verseNeedsFinalization verse config.
Proof.
  intros Hl HF. unfold verseNeedsFinalization.
  change (computeReflectionLoopsNeeded (set_reflection_loops verse (Some loops1)) config)
    with (computeReflectionLoopsNeeded verse config).
  rewrite Hl. simpl.
  rewrite <- (Forall2_length _ _ _ HF).
  destruct (_ <? _); [done|].
  apply Forall2_last in HF.
  destruct HF as [l l1 Hs|]; [|done].
  by rewrite (stashed_grades _ _ Hs).
Qed.

(** *** The scan for the best round *)


(** *** What the precondition of finalization provides *)






Example finalizeVerse_exampleVerse :
  exists verse',
    finalizeVerse exampleVerse exampleConfig = Ok verse' /\
    lookUp verse' (translation_key exampleConfig) = Ok (VStr "second draft") /\
    reflection_is_finalized verse' = Some true /\
    reflection_finalized_grade verse' = Defined (85 # 1) /\
    (graded_verse <$> (default [] (reflection_loops verse') !! 1%nat))
      = Some (Some (VStr "second draft")).
Proof. eexists. repeat split. Qed.


(** C7: a second call of [finalizeVerse] changes nothing: on a finalized
    verse it returns the verse as it is, with every field unchanged, and
    whatever a first call has returned, a second call returns again. *)
Theorem finalizeVerse_idempotent :
  (forall verse config,
      verseIsFinalized verse = true ->
      finalizeVerse verse config = Ok verse) /\
  (forall verse config verse',
      finalizeVerse verse config = Ok verse' ->
      finalizeVerse verse' config = Ok verse').
Proof.
  assert (Hfin : forall verse config,
             verseIsFinalized verse = true ->
             finalizeVerse verse config = Ok verse).
  { intros verse config H. unfold finalizeVerse.
    rewrite H. by destruct (reflection_loops verse). }
  split; [done|].
  intros verse config verse' H.
  unfold finalizeVerse in H.
  destruct (reflection_loops verse) as [loops|] eqn:Hl.
  2:{ injection H as <-. unfold finalizeVerse. by rewrite Hl. }
  destruct (verseIsFinalized verse) eqn:Hf.
  { injection H as <-. by apply Hfin. }
  destruct (verseNeedsFinalization verse config) as [needed|e] eqn:Hneed;
    simpl in H; [|done].
  destruct needed; simpl in H.
  2:{ injection H as <-. unfold finalizeVerse. by rewrite Hl, Hf, Hneed. }
  destruct (computeVerseGrade verse config) as [[g verse1]|e] eqn:Hg;
    simpl in H; [|done].
  destruct (computeVerseGrade_stashed _ _ _ _ _ Hg Hl) as (loops1 & HF & Hv1).
  destruct (bestLoopFrom _ _ _) as [[bestIndex bestGrade]|] eqn:Hbest.
  - apply Hfin.
    destruct (markLastLoop verse1 config _) as [loops2|e]; simpl in H; [|done].
    destruct (setVerseKey _ (translation_key config) _) as [verse2|e];
      simpl in H; [|done].
    destruct (translation_comment_key config) as [ck|]; simpl in H.
    + destruct (setVerseKey verse2 ck _) as [verse3|e]; simpl in H; [|done].
      by injection H as <-.
    + by injection H as <-.
  - injection H as <-. unfold finalizeVerse.
    rewrite (computeVerseGrade_again _ _ _ _ Hg). simpl.
    rewrite Hbest. subst verse1.
    rewrite (verseNeedsFinalization_stashed _ _ _ _ Hl HF), Hneed. simpl.
    change (verseIsFinalized (set_reflection_loops verse (Some loops1)))
      with (verseIsFinalized verse).
    by rewrite Hf.
Qed.

Lemma finalizeVerse_idempotent_witness :
  let loop := mkLoop (Some [mkGrade 80 "good"; mkGrade 90 "fine"])
                     (Some (VStr "In the beginning")) None None None None in
  let verse := mkVerse (exampleFields "GEN 1:1" "In the beginning")
                       (Some [loop]) None Undefined Undefined
                       None None None None None in
  let config := with_rounds defaultConfig 2 (Some 1) None in
  exists verse',
    finalizeVerse verse config = Ok verse' /\
    verseIsFinalized verse' = true /\
    reflection_finalized_grade verse' = Defined (85 # 1) /\
    finalizeVerse verse' config = Ok verse'.
Proof.
  intros loop verse config. eexists.
  split; [reflexivity|]. split; [reflexivity|]. split; [reflexivity|].
  apply (proj2 finalizeVerse_idempotent verse config). reflexivity.
Defined.


Lemma computeVerseGrade_finalized_witness :
  let verse := set_reflection_finalized_grade
                 (set_reflection_is_finalized exampleVerse (Some true))
                 (Defined (85 # 1)) in
  let loops' := [emptyLoop; mkLoop (Some [mkGrade 10 "poor"]) None None
                                   (Some (10 # 1)) None None] in
  hasReference verse exampleConfig /\
  verseIsFinalized verse = true /\
  loops' <> [] /\
  computeVerseGrade (set_reflection_loops verse (Some loops')) exampleConfig
  = Ok (Some (85 # 1), set_reflection_loops verse (Some loops')).
Proof.
  intros verse loops'.
  assert (H1 : hasReference verse exampleConfig)
    by (eexists; split; reflexivity).
  assert (H3 : loops' <> []) by discriminate.
  split; [exact H1|]. split; [reflexivity|]. split; [exact H3|].
  exact (proj1 computeVerseGrade_finalized verse exampleConfig loops'
               H1 eq_refl H3).
Defined.

End GradeAggregator.

(** ** Properties of [setKey] *)

Section SetKey.
Import reflectionUtils.

Lemma own_put_eq props k x : own (put props k x) k = Some x.
Proof.
  induction props as [|[k' v] rest IH]; simpl.
  - by rewrite String.eqb_refl.
  - destruct (String.eqb k' k) eqn:He; simpl; rewrite He; [done|apply IH].
Qed.

Lemma own_put_ne props k x k' : k' <> k -> own (put props k x) k' = own props k'.
Proof.
  intros Hne. induction props as [|[k0 v] rest IH]; simpl.
  - destruct (String.eqb k k') eqn:He; [|done].
    apply String.eqb_eq in He. congruence.
  - destruct (String.eqb k0 k) eqn:He; simpl.
    + apply String.eqb_eq in He as ->.
      destruct (String.eqb k k') eqn:He'; [|done].
      apply String.eqb_eq in He'. congruence.
    + by rewrite IH.
Qed.

(** The first step of [lookUpKey] into an object only looks at the own
    property the key names. *)
Lemma lookUpKey_loop_own props props' k rest d nv :
  own props' k = own props k ->
  lookUpKey_loop (VObj props') (KStr k :: rest) d nv
  = lookUpKey_loop (VObj props) (KStr k :: rest) d nv.
Proof. intros H. simpl. by rewrite H. Qed.

Lemma assign_object v k x r :
  assign v k x = Ok r -> exists props, v = VObj props /\ r = VObj (put props k x).
Proof.
  destruct v; simpl; try done.
  destruct (_ && _); [done|]. intros [= <-]. eauto.
Qed.

Lemma setKey_loop_step v k k2 rest x :
  setKey_loop v (k :: k2 :: rest) x =
  (let! present := has_property (KStr k) v in
   let! current1 := (if present then Ok v else assign v k (VObj [])) in
   let! child := get current1 (KStr k) in
   let! child' := setKey_loop child (k2 :: rest) x in
   assign current1 k child').
Proof. reflexivity. Qed.

Lemma setKey_loop_needs_object ks v x r :
  setKey_loop v ks x = Ok r -> exists props, v = VObj props.
Proof.
  destruct ks as [|k [|k2 rest]].
  - intros H. apply assign_object in H as (p & -> & ->). eauto.
  - intros H. apply assign_object in H as (p & -> & ->). eauto.
  - rewrite setKey_loop_step.
    destruct (has_property (KStr k) v) as [present|]; cbn [Js.bind]; [|done].
    destruct present.
    + cbn [Js.bind].
      destruct (get v (KStr k)) as [child|]; cbn [Js.bind]; [|done].
      destruct (setKey_loop child (k2 :: rest) x); cbn [Js.bind]; [|done].
      intros H. apply assign_object in H as (p & -> & _). eauto.
    + destruct (assign v k (VObj [])) eqn:Ha; cbn [Js.bind]; [|done].
      apply assign_object in Ha as (p & -> & _). eauto.
Qed.

(** When [setKey] runs through an intermediate key: the object it found
    or made there, the object it left there, and the result. *)
Lemma setKey_loop_inv v k k2 rest x r :
  setKey_loop v (k :: k2 :: rest) x = Ok r ->
  exists props child child',
    v = VObj props /\
    (own props k = Some child \/
     own props k = None /\ inherited k = false /\ child = VObj []) /\
    setKey_loop child (k2 :: rest) x = Ok child' /\
    r = VObj (put props k child').
Proof.
  rewrite setKey_loop_step.
  destruct (has_property (KStr k) v) as [present|] eqn:Hp; cbn [Js.bind]; [|done].
  destruct (if present then Ok v else assign v k (VObj []))
    as [current1|] eqn:Hc; cbn [Js.bind]; [|done].
  destruct (get current1 (KStr k)) as [child|] eqn:Hg; cbn [Js.bind]; [|done].
  destruct (setKey_loop child (k2 :: rest) x) as [child'|] eqn:Hs;
    cbn [Js.bind]; [|done].
  intros H. apply assign_object in H as (p & -> & ->).
  destruct present.
  - injection Hc as ->. simpl in Hp, Hg.
    destruct (own p k) as [c|] eqn:Ho.
    + injection Hg as <-. exists p, c, child'. eauto.
    + exfalso. injection Hp as Hp.
      rewrite Hp in Hg. injection Hg as <-.
      apply setKey_loop_needs_object in Hs as [p' Hs].
      unfold inherited_member in Hs.
      by destruct (String.eqb k "__proto__").
  - apply assign_object in Hc as (p' & -> & [= ->]).
    simpl in Hp. injection Hp as Hp. apply orb_false_iff in Hp as [Hown Hinh].
    simpl in Hg. rewrite own_put_eq in Hg. injection Hg as <-.
    exists p', (VObj []), child'.
    split; [done|]. split.
    + right. split; [|done].
      destruct (own p' k) eqn:Ho; [|done].
      rewrite bool_decide_true in Hown by eauto. done.
    + split; [done|].
      f_equal. clear. induction p' as [|[k0 v0] p IH]; simpl.
      * by rewrite String.eqb_refl.
      * destruct (String.eqb k0 k) eqn:He; simpl; rewrite He; [done|].
        by rewrite IH.
Qed.

(** [setKey] succeeds on plain objects only, and answers one. *)
Lemma setKey_loop_object ks :
  forall v x r, setKey_loop v ks x = Ok r ->
                exists props props', v = VObj props /\ r = VObj props'.
Proof.
  destruct ks as [|k [|k2 rest]]; intros v x r.
  - intros H. apply assign_object in H as (p & -> & ->). eauto.
  - intros H. apply assign_object in H as (p & -> & ->). eauto.
  - intros H. apply setKey_loop_inv in H as (p & c & c' & -> & _ & _ & ->). eauto.
Qed.

(** What [setKey] has written, [lookUpKey] reads back. *)
Lemma lookUpKey_setKey ks :
  forall v x r d,
    ks <> [] ->
    setKey_loop v ks x = Ok r ->
    lookUpKey_loop r (map KStr ks) d true = Ok x.
Proof.
  induction ks as [|k rest IH]; intros v x r d Hne; [done|].
  destruct rest as [|k2 rest].
  - intros H. apply assign_object in H as (p & -> & ->).
    simpl. rewrite own_put_eq. simpl.
    by destruct x.
  - intros H. apply setKey_loop_inv in H as (p & c & c' & -> & _ & Hs & ->).
    change (map KStr (k :: k2 :: rest)) with (KStr k :: map KStr (k2 :: rest)).
    cbn [lookUpKey_loop Array_isArray typeof_object is_null andb negb
         has_property get prop_name Js.bind].
    rewrite own_put_eq.
    replace (bool_decide (is_Some (Some c'))) with true by done.
    cbn [orb Js.bind]. by apply (IH c).
Qed.

(** Writing under one top-level key leaves the others as they were. *)
Lemma setKey_loop_other ks :
  forall props x props' k',
    setKey_loop (VObj props) ks x = Ok (VObj props') ->
    head ks <> Some k' -> ks <> [] ->
    own props' k' = own props k'.
Proof.
  destruct ks as [|k [|k2 rest]]; intros props x props' k' H Hk Hne; [done| |].
  - simpl in H. destruct (_ && _); [done|]. injection H as <-.
    apply own_put_ne. simpl in Hk. congruence.
  - simpl in Hk.
    apply setKey_loop_inv in H as (p & c & c' & [= <-] & _ & _ & [= ->]).
    apply own_put_ne. congruence.
Qed.

End SetKey.

(** ** What the steps leave alone *)

Section Frames.
Import reflectionUtils gradeReflectLoop reflectionWorker Operations.

Lemma setVerseKey_flags verse keys x verse' :
  setVerseKey verse keys x = Ok verse' -> flags verse' = flags verse.
Proof. intros H. by apply setVerseKey_frame in H as [props ->]. Qed.

Lemma computeVerseGrade_flags verse config g verse' :
  computeVerseGrade verse config = Ok (g, verse') -> flags verse' = flags verse.
Proof.
  intros H. destruct (computeVerseGrade_frame _ _ _ _ H)
    as [->|(loops & nf & _ & _ & _ & _ & _ & ->)]; done.
Qed.

Ltac flags_done := unfold flags in *; simpl in *; congruence.

Lemma finalizeVerse_flags verse config verse' :
  finalizeVerse verse config = Ok verse' -> flags verse' = flags verse.
Proof.
  unfold finalizeVerse.
  destruct (reflection_loops verse); [|by intros [= <-]].
  destruct (verseIsFinalized verse); [by intros [= <-]|].
  destruct (verseNeedsFinalization verse config) as [[]|]; cbn [Js.bind negb];
    [|by intros [= <-]|done].
  destruct (computeVerseGrade verse config) as [[g verse1]|] eqn:Hg;
    cbn [Js.bind snd]; [|done].
  apply computeVerseGrade_flags in Hg.
  destruct (bestLoopFrom _ _ _) as [[bestIndex bestGrade]|];
    [|intros [= <-]; done].
  destruct (markLastLoop _ _ _); cbn [Js.bind]; [|done].
  destruct (setVerseKey _ (translation_key config) _) as [verse2|] eqn:H2;
    cbn [Js.bind]; [|done].
  apply setVerseKey_flags in H2.
  destruct (translation_comment_key config).
  - destruct (setVerseKey verse2 _ _) as [verse3|] eqn:H3; cbn [Js.bind]; [|done].
    apply setVerseKey_flags in H3. intros [= <-].
    flags_done.
  - cbn [Js.bind]. intros [= <-].
    flags_done.
Qed.

Lemma clear_human_reviewed_flags verse :
  flags (clear_human_reviewed verse) = flags verse.
Proof. unfold clear_human_reviewed. by destruct (truthy_flag _). Qed.

Lemma clear_finalized_flags verse : flags (clear_finalized verse) = flags verse.
Proof. unfold clear_finalized. by destruct (is_true _). Qed.

Lemma runAdaptationPass_flags r verse config b verse' :
  runAdaptationPass r verse config = Ok (b, verse') -> flags verse' = flags verse.
Proof.
  unfold runAdaptationPass.
  destruct (negb _); [by intros [= <- <-]|].
  destruct (truthy_flag (adapted verse)); [by intros [= <- <-]|].
  destruct (recordGradedVerse _ _ _); cbn [Js.bind]; [|done].
  destruct (setVerseKey _ (translation_key config) _) as [verse2|] eqn:H2;
    cbn [Js.bind]; [|done].
  apply setVerseKey_flags in H2.
  destruct (translation_comment_key config).
  - destruct (setVerseKey verse2 _ _) as [verse3|] eqn:H3; cbn [Js.bind]; [|done].
    apply setVerseKey_flags in H3. intros [= <- <-].
    pose proof (clear_human_reviewed_flags verse3). flags_done.
  - cbn [Js.bind]. intros [= <- <-].
    pose proof (clear_human_reviewed_flags verse2). flags_done.
Qed.

(** When the pass does not adapt, it does nothing, whatever the service
    would have answered. *)
Lemma runAdaptationPass_false r verse config verse' :
  runAdaptationPass r verse config = Ok (false, verse') ->
  verse' = verse /\
  forall r', runAdaptationPass r' verse config = Ok (false, verse).
Proof.
  unfold runAdaptationPass.
  destruct (negb _); [by intros [= <-]|].
  destruct (truthy_flag (adapted verse)); [by intros [= <-]|].
  destruct (recordGradedVerse _ _ _); cbn [Js.bind]; [|done].
  destruct (setVerseKey _ (translation_key config) _); cbn [Js.bind]; [|done].
  destruct (translation_comment_key config); cbn [Js.bind]; [|done].
  by destruct (setVerseKey _ _ _).
Qed.

Lemma skipReflection_flags verse config verse' inserted :
  skipReflection verse config = Ok (Some (verse', inserted)) ->
  flags verse' = flags verse.
Proof.
  unfold skipReflection.
  destruct (last _); [|done].
  destruct (_ <=? _); [|done].
  destruct (_ || _); [|done].
  destruct (if negb _ then _ else _); cbn [Js.bind]; [|done].
  intros [= <- <-]. by rewrite clear_finalized_flags.
Qed.

Lemma appendGrades_flags verse newGrades :
  flags (appendGrades verse newGrades) = flags verse.
Proof.
  unfold appendGrades.
  destruct (is_true _); [transitivity (flags (clear_finalized
    (set_reflection_loops verse (Some (update_last
      (fun l => set_grades l (Some (default [] (grades l) ++ newGrades)))
      (openLoop (fun l => bool_decide (is_Some (graded_verse l)))
                (default [] (reflection_loops verse)))))))); [done|]|];
    by rewrite clear_finalized_flags.
Qed.

Lemma applyReflection_flags verse r config verse' :
  applyReflection verse r config = Ok verse' -> flags verse' = flags verse.
Proof.
  unfold applyReflection.
  destruct (reflection_loops verse) as [loops|]; [|done].
  destruct (last loops); [|done].
  destruct (recordGradedVerse _ _ _); cbn [Js.bind]; [|done].
  destruct (setVerseKey _ (translation_key config) _) as [verse2|] eqn:H2;
    cbn [Js.bind]; [|done].
  apply setVerseKey_flags in H2.
  destruct (translation_comment_key config).
  - destruct (setVerseKey verse2 _ _) as [verse3|] eqn:H3; cbn [Js.bind]; [|done].
    apply setVerseKey_flags in H3. intros [= <-].
    destruct (is_true (human_reviewed verse3)); flags_done.
  - cbn [Js.bind]. intros [= <-].
    destruct (is_true (human_reviewed verse2)); flags_done.
Qed.

Lemma resetVerseTo_effect verse text :
  let verse' := (resetVerseTo verse text).1 in
  reflection_loops verse' = Some [] /\
  ai_halted verse' = ai_halted verse /\
  grade_only verse' = grade_only verse /\
  comment_mod_loop_count verse' =
    match comment_mod_loop_count verse with
    | Some c => Some 0
    | None => None
    end.
Proof.
  unfold resetVerseTo.
  set (v1 := set_reflection_loops verse (Some [])).
  set (v2 := if truthy_flag (reflection_is_finalized v1)
             then set_reflection_is_finalized v1 (Some false) else v1).
  set (v3 := match reflection_finalized_grade v2 with
             | Defined g => if Qeq_bool g 0 then v2
                            else set_reflection_finalized_grade v2 Null
             | _ => v2
             end).
  set (v4 := match reflection_finalized_comment v3 with
             | Defined c => if String.eqb c "" then v3
                            else set_reflection_finalized_comment v3 Null
             | _ => v3
             end).
  set (v5 := match comment_mod_loop_count v4 with
             | Some c => if c =? 0 then v4
                         else set_comment_mod_loop_count v4 (Some 0)
             | None => v4
             end).
  assert (H2 : reflection_loops v2 = Some [] /\ flags v2 = flags verse).
  { subst v2. by destruct (truthy_flag _). }
  assert (H3 : reflection_loops v3 = Some [] /\ flags v3 = flags verse).
  { subst v3. destruct (reflection_finalized_grade v2); try done.
    by destruct (Qeq_bool _ _). }
  assert (H4 : reflection_loops v4 = Some [] /\ flags v4 = flags verse).
  { subst v4. destruct (reflection_finalized_comment v3); try done.
    by destruct (String.eqb _ _). }
  assert (H5 : reflection_loops v5 = Some [] /\
               ai_halted v5 = ai_halted verse /\
               grade_only v5 = grade_only verse /\
               comment_mod_loop_count v5 =
               match comment_mod_loop_count verse with
               | Some c => Some 0
               | None => None
               end).
  { destruct H4 as [H4 Hf]. unfold flags in Hf. injection Hf as Hc Ha Hg.
    subst v5. rewrite Hc.
    destruct (comment_mod_loop_count verse) as [c|]; [|done].
    destruct (c =? 0) eqn:Hz; simpl; [|done].
    repeat split; try done. rewrite Hc. f_equal. lia. }
  destruct (setVerseKey v5 TRANSLATION_KEY text) as [v6|] eqn:Hs; simpl; [|done].
  apply setVerseKey_frame in Hs as [props ->]. done.
Qed.

(** C9: whatever the engine or the ingestion does to a verse, its
    [comment_mod_loop_count] stays as it was, unless the step is a reset,
    which empties [reflection_loops] and leaves the count at 0.  No step
    decreases it otherwise. *)
Theorem comment_mod_loop_count_only_reset config verse verse' :
  verseStep config verse verse' ->
  comment_mod_loop_count verse' = comment_mod_loop_count verse \/
  (reflection_loops verse' = Some [] /\ comment_mod_loop_count verse' = Some 0).
Proof.
  intros Hstep. destruct Hstep as
    [verse g verse' H | verse verse' H | verse r b verse' H
    | verse verse' inserted H | verse newGrades | verse r verse' H
    | verse text verse' H | verse text].
  - left. apply computeVerseGrade_flags in H. flags_done.
  - left. apply finalizeVerse_flags in H. flags_done.
  - left. apply runAdaptationPass_flags in H. flags_done.
  - left. apply skipReflection_flags in H. flags_done.
  - left. pose proof (appendGrades_flags verse newGrades). flags_done.
  - left. apply applyReflection_flags in H. flags_done.
  - left. apply setVerseKey_flags in H. flags_done.
  - destruct (resetVerseTo_effect verse text) as (Hl & _ & _ & Hc).
    destruct (comment_mod_loop_count verse); [by right|by left].
Qed.

Lemma comment_mod_loop_count_only_reset_witness :
  let verse := set_comment_mod_loop_count exampleVerse (Some 3) in
  let verse' := (resetVerseTo verse (VStr "first draft")).1 in
  verseStep exampleConfig verse verse' /\
  reflection_loops verse' = Some [] /\
  comment_mod_loop_count verse' = Some 0.
Proof.
  intros verse verse'.
  assert (H : verseStep exampleConfig verse verse') by apply step_resetVerseTo.
  split; [exact H|].
  destruct (comment_mod_loop_count_only_reset exampleConfig verse verse' H)
    as [Hsame|Hreset]; [discriminate Hsame|exact Hreset].
Defined.

End Frames.

(** ** The engine's iteration *)

Section Tick.
Import reflectionUtils gradeReflectLoop reflectionWorker Operations.

Variable adaptationInference : Verse -> AdaptationResult.
Variable gradingChoices : list Verse -> nat -> Z -> list Grade.
Variable reflectionInference : list Verse -> nat -> ReflectionResult.
Variable config : Config.
Variable overRiddenReferences : list (string * string).

Lemma keepFlags_refl l : keepFlags l l.
Proof.
  apply Forall2_same_length_lookup. split; [done|].
  intros i x y Hx Hy. congruence.
Qed.

Lemma keepFlags_trans l1 l2 l3 :
  keepFlags l1 l2 -> keepFlags l2 l3 -> keepFlags l1 l3.
Proof.
  unfold keepFlags. intros H12 H23.
  apply Forall2_same_length_lookup.
  split; [by rewrite (Forall2_length _ _ _ H12), (Forall2_length _ _ _ H23)|].
  intros i x z Hx Hz.
  destruct (Forall2_lookup_l _ _ _ _ _ H12 Hx) as (y & Hy & Hxy).
  pose proof (Forall2_lookup_lr _ _ _ _ _ _ H23 Hy Hz). congruence.
Qed.

Lemma keepFlags_insert l i v v' :
  l !! i = Some v -> flags v' = flags v -> keepFlags l (<[ i := v' ]> l).
Proof.
  intros Hi Hf. apply Forall2_same_length_lookup.
  split; [by rewrite length_insert|].
  intros j x y Hx Hy. destruct (decide (i = j)) as [->|Hne].
  - rewrite list_lookup_insert_eq in Hy by (by eapply lookup_lt_Some).
    congruence.
  - rewrite list_lookup_insert_ne in Hy by done. congruence.
Qed.

Lemma keepFlags_lookup l l' i v :
  keepFlags l l' -> l' !! i = Some v ->
  exists v0, l !! i = Some v0 /\ flags v = flags v0.
Proof.
  intros H Hi. destruct (Forall2_lookup_r _ _ _ _ _ H Hi) as (v0 & H0 & Hf).
  eauto.
Qed.

Lemma adaptContext_keepFlags indices :
  forall output out1,
    adaptContext adaptationInference config overRiddenReferences indices output
    = Ok out1 ->
    keepFlags output out1.
Proof.
  induction indices as [|index rest IH]; intros output out1; simpl.
  - intros [= <-]. apply keepFlags_refl.
  - destruct (output !! index) as [verse|] eqn:Hi; [|done].
    destruct (lookUp verse (reference_key config)); cbn [Js.bind]; [|done].
    destruct (if truthy _ then _ else _) as [used|]; cbn [Js.bind]; [|done].
    destruct used; [|apply IH].
    destruct (runAdaptationPass _ verse config) as [[b verse']|] eqn:Ha;
      cbn [Js.bind]; [|done].
    intros H. eapply keepFlags_trans; [|by apply IH].
    eapply keepFlags_insert; [done|]. by eapply runAdaptationPass_flags.
Qed.

(** Building the context leaves a verse as it is when the adaptation pass
    has nothing to do on it. *)
Lemma adaptContext_keeps indices :
  forall output out1 n verse,
    output !! n = Some verse ->
    (forall r, runAdaptationPass r verse config = Ok (false, verse)) ->
    adaptContext adaptationInference config overRiddenReferences indices output
    = Ok out1 ->
    out1 !! n = Some verse.
Proof.
  induction indices as [|index rest IH]; intros output out1 n verse Hn Hno; simpl.
  - by intros [= <-].
  - destruct (output !! index) as [v|] eqn:Hi; [|done].
    destruct (lookUp v (reference_key config)); cbn [Js.bind]; [|done].
    destruct (if truthy _ then _ else _) as [used|]; cbn [Js.bind]; [|done].
    destruct used; [|by apply IH].
    destruct (runAdaptationPass _ v config) as [[b v']|] eqn:Ha;
      cbn [Js.bind]; [|done].
    apply IH; [|done].
    destruct (decide (index = n)) as [->|Hne].
    + rewrite list_lookup_insert_eq by (by eapply lookup_lt_Some).
      assert (v = verse) as -> by congruence.
      rewrite Hno in Ha. by injection Ha as _ <-.
    + by rewrite list_lookup_insert_ne.
Qed.

Lemma computeTranslationGrade_loop_keepFlags rest :
  forall n count sum count' sum' rest',
    computeTranslationGrade_loop config n rest count sum
    = Ok (count', sum', rest') ->
    keepFlags rest rest'.
Proof.
  induction rest as [|verse rest IH]; intros n count sum count' sum' rest'; simpl.
  - intros [= _ _ <-]. constructor.
  - destruct (beforeStartLine config n).
    { destruct (computeTranslationGrade_loop config (S n) rest count sum)
        as [[[c s] r]|] eqn:Hr; cbn [Js.bind]; [|done].
      intros [= _ _ <-]. constructor; [done|by eapply IH]. }
    destruct (afterEndLine config n).
    { intros [= _ _ <-]. apply keepFlags_refl. }
    destruct (computeVerseGrade verse config) as [[g verse']|] eqn:Hg;
      cbn [Js.bind fst snd]; [|done].
    destruct g as [verseGrade|].
    + destruct (computeTranslationGrade_loop config (S n) rest _ _)
        as [[[c s] r]|] eqn:Hr; cbn [Js.bind]; [|done].
      intros [= _ _ <-]. constructor; [|by eapply IH].
      by eapply computeVerseGrade_flags.
    + destruct (computeTranslationGrade_loop config (S n) rest _ _)
        as [[[c s] r]|] eqn:Hr; cbn [Js.bind]; [|done].
      intros [= _ _ <-]. constructor; [|by eapply IH].
      by eapply computeVerseGrade_flags.
Qed.

Lemma computeTranslationGrade_keepFlags output avg output' :
  computeTranslationGrade output config = Ok (avg, output') ->
  keepFlags output output'.
Proof.
  unfold computeTranslationGrade.
  destruct (computeTranslationGrade_loop config 0 output 0 0)
    as [[[c s] r]|] eqn:Hr; cbn [Js.bind]; [|done].
  apply computeTranslationGrade_loop_keepFlags in Hr.
  destruct (c =? 0); by intros [= _ <-].
Qed.

(** What a sweep that selects a verse has done: the verse is not halted,
    it has fewer unanswered grades than a round takes, the service was
    asked for [neededGrades] grades, and what it answered was appended. *)
Lemma sweep_result rest :
  forall output n out' selected act,
    (forall k v, rest !! k = Some v -> output !! (n + k)%nat = Some v) ->
    sweep adaptationInference gradingChoices config overRiddenReferences
          output n rest = Ok (out', selected, act) ->
    keepFlags output out' /\
    match selected with
    | None => True
    | Some line =>
        exists verse out1 newGrades,
          output !! line = Some verse /\
          is_true (ai_halted verse) = false /\
          computeNumberUnansweredGrades verse config
            < grades_per_reflection_loop config /\
          buildCommonContext adaptationInference config overRiddenReferences
                             line output = Ok out1 /\
          out1 !! line = Some verse /\
          multiGradeVerse
            (gradingChoices out1 line (neededGrades verse config))
            (neededGrades verse config) = Ok newGrades /\
          act = AddedGrades line (neededGrades verse config) newGrades /\
          out' = <[ line := appendGrades verse newGrades ]> out1
    end.
Proof.
  induction rest as [|verse rest IH]; intros output n out' selected act Hpos; simpl.
  - intros [= <- <- <-]. split; [apply keepFlags_refl|done].
  - assert (Hnext : forall k v, rest !! k = Some v ->
                                output !! (S n + k)%nat = Some v).
    { intros k v Hk. specialize (Hpos (S k) v Hk).
      by replace (S n + k)%nat with (n + S k)%nat by lia. }
    assert (Hhere : output !! n = Some verse).
    { specialize (Hpos 0%nat verse eq_refl). by rewrite Nat.add_0_r in Hpos. }
    destruct (beforeStartLine config n); [by apply IH|].
    destruct (afterEndLine config n).
    { intros [= <- <- <-]. split; [apply keepFlags_refl|done]. }
    destruct (is_true (ai_halted verse)) eqn:Hhalt; [by apply IH|].
    destruct (lookUp verse (reference_key config)) as [vref|];
      cbn [Js.bind]; [|done].
    destruct (if nullish vref then _ else _) as [eligible|];
      cbn [Js.bind]; [|done].
    destruct eligible; cbn [negb]; [|by apply IH].
    destruct (runAdaptationPass _ verse config) as [[adaptedNow verse1]|] eqn:Ha;
      cbn [Js.bind fst snd]; [|done].
    destruct adaptedNow.
    { intros [= <- <- <-]. split; [|done].
      eapply keepFlags_insert; [done|]. by eapply runAdaptationPass_flags. }
    destruct (skipReflection verse config) as [[[verse2 inserted]|]|] eqn:Hs;
      cbn [Js.bind]; [| |done].
    { intros [= <- <- <-]. split; [|done].
      eapply keepFlags_insert; [done|]. by eapply skipReflection_flags. }
    destruct (_ <? grades_per_reflection_loop config) eqn:Hun; [|by apply IH].
    unfold gradeSelectedVerse.
    destruct (buildCommonContext _ _ _ n output) as [out1|] eqn:Hctx;
      cbn [Js.bind]; [|done].
    destruct (multiGradeVerse _ _) as [newGrades|] eqn:Hg;
      cbn [Js.bind fst snd]; [|done].
    apply runAdaptationPass_false in Ha as [_ Hno].
    assert (H1 : out1 !! n = Some verse).
    { unfold buildCommonContext in Hctx. by eapply adaptContext_keeps. }
    rewrite H1. cbn [default from_option id].
    intros [= <- <- <-]. split.
    + eapply keepFlags_trans.
      * unfold buildCommonContext in Hctx. by eapply adaptContext_keepFlags.
      * eapply keepFlags_insert; [done|]. apply appendGrades_flags.
    + exists verse, out1, newGrades. repeat split; try done. lia.
Qed.

Lemma selectLowest_result rest :
  forall n lowest lowest' rest',
    selectLowest config overRiddenReferences n rest lowest = Ok (lowest', rest') ->
    keepFlags rest rest' /\
    (lowest' = lowest \/
     exists g k verse,
       lowest' = Some (g, (n + k)%nat) /\ rest !! k = Some verse /\
       is_true (ai_halted verse) = false).
Proof.
  induction rest as [|verse rest IH]; intros n lowest lowest' rest'; simpl.
  - intros [= <- <-]. split; [constructor|by left].
  - assert (Hskip : forall low,
      (let! r := selectLowest config overRiddenReferences (S n) rest low in
       Ok (r.1, verse :: r.2)) = Ok (lowest', rest') ->
      keepFlags (verse :: rest) rest' /\
      (lowest' = low \/
       exists g k verse0,
         lowest' = Some (g, (n + k)%nat) /\ (verse :: rest) !! k = Some verse0 /\
         is_true (ai_halted verse0) = false)).
    { intros low.
      destruct (selectLowest _ _ (S n) rest low) as [[l r]|] eqn:Hr;
        cbn [Js.bind fst snd]; [|done].
      intros [= <- <-]. destruct (IH _ _ _ _ Hr) as [Hk Hl].
      split; [by constructor|].
      destruct Hl as [->|(g & k & v & -> & Hv & Hh)]; [by left|].
      right. exists g, (S k), v. split; [f_equal; f_equal; lia|done]. }
    destruct (beforeStartLine config n); [apply Hskip|].
    destruct (afterEndLine config n).
    { intros [= <- <-]. split; [apply keepFlags_refl|by left]. }
    destruct (is_true (ai_halted verse)) eqn:Hhalt; [apply Hskip|].
    destruct (is_true (grade_only verse)); [apply Hskip|].
    destruct (lookUp verse (reference_key config)) as [vref|];
      cbn [Js.bind]; [|done].
    destruct (if nullish vref then _ else _) as [eligible|];
      cbn [Js.bind]; [|done].
    destruct eligible; cbn [negb]; [|apply Hskip].
    destruct (computeVerseGrade verse config) as [[g verse1]|] eqn:Hg;
      cbn [Js.bind fst snd]; [|done].
    apply computeVerseGrade_flags in Hg.
    match goal with
    | |- context [selectLowest _ _ (S n) rest ?low] => set (low1 := low)
    end.
    destruct (selectLowest _ _ (S n) rest low1) as [[l r]|] eqn:Hr;
      cbn [Js.bind fst snd]; [|done].
    intros [= <- <-]. destruct (IH _ _ _ _ Hr) as [Hk Hl].
    split; [by constructor|].
    destruct Hl as [->|(g' & k & v & -> & Hv & Hh)].
    + subst low1. destruct g as [verseGrade|]; [|by left].
      assert (Hme : exists g0 k verse0,
                 Some (verseGrade, n) = Some (g0, (n + k)%nat) /\
                 (verse :: rest) !! k = Some verse0 /\
                 is_true (ai_halted verse0) = false).
      { exists verseGrade, 0%nat, verse. by rewrite Nat.add_0_r. }
      destruct lowest as [[lg ll]|]; [|by right].
      destruct (Qlt_bool verseGrade lg); [by right|by left].
    + right. exists g', (S k), v. split; [f_equal; f_equal; lia|done].
Qed.

Lemma actOnSelected_keepFlags output line out' act :
  actOnSelected adaptationInference reflectionInference config
                overRiddenReferences output line = Ok (out', act) ->
  keepFlags output out' /\
  (act = FinalizedVerse line \/ act = ReflectedOnVerse line).
Proof.
  unfold actOnSelected.
  destruct (output !! line) as [selectedVerse|] eqn:Hi; [|done].
  destruct (verseNeedsFinalization selectedVerse config) as [needed|];
    cbn [Js.bind]; [|done].
  destruct needed.
  - destruct (finalizeVerse selectedVerse config) as [finalized|] eqn:Hf;
      cbn [Js.bind]; [|done].
    destruct (computeVerseGrade finalized config) as [[g logged]|] eqn:Hg;
      cbn [Js.bind fst snd]; [|done].
    intros [= <- <-]. split; [|by left].
    eapply keepFlags_insert; [done|].
    apply finalizeVerse_flags in Hf. apply computeVerseGrade_flags in Hg.
    congruence.
  - destruct (buildCommonContext _ _ _ line output) as [out1|] eqn:Hctx;
      cbn [Js.bind]; [|done].
    unfold buildCommonContext in Hctx. apply adaptContext_keepFlags in Hctx.
    destruct (Forall2_lookup_l _ _ _ _ _ Hctx Hi) as (v1 & H1 & Hf1).
    rewrite H1. cbn [default from_option id].
    destruct (reflectionReadable v1 config); cbn [Js.bind]; [|done].
    destruct (computeVerseGrade v1 config) as [[g logged]|] eqn:Hg;
      cbn [Js.bind fst snd]; [|done].
    destruct (applyReflection logged _ config) as [reflected|] eqn:Hr;
      cbn [Js.bind]; [|done].
    intros [= <- <-]. split; [|by right].
    eapply keepFlags_trans; [done|].
    eapply keepFlags_insert; [done|].
    apply computeVerseGrade_flags in Hg. apply applyReflection_flags in Hr.
    congruence.
Qed.

Lemma nextAction_result st st' selected act :
  nextAction adaptationInference reflectionInference config
             overRiddenReferences st = Ok (st', selected, act) ->
  keepFlags (reflectionOutput st) (reflectionOutput st') /\
  forall line,
    selected = Some line ->
    (act = FinalizedVerse line \/ act = ReflectedOnVerse line) /\
    (debug_force_vref config = None ->
     exists verse,
       reflectionOutput st !! line = Some verse /\
       is_true (ai_halted verse) = false).
Proof.
  unfold nextAction.
  destruct (computeTranslationGrade (reflectionOutput st) config)
    as [[averageGrade output]|] eqn:Hctg; cbn [Js.bind]; [|done].
  apply computeTranslationGrade_keepFlags in Hctg.
  destruct (is_true (manual_edit_mode config)).
  { intros [= <- <- <-]. by split. }
  destruct (if Qlt_bool _ _ then _ else _) as [best iterations].
  destruct (match iterations_without_improvement_max config with
            | Some m => iterations >? m | None => false end).
  { intros [= <- <- <-]. by split. }
  destruct (debug_force_vref config) as [forced|] eqn:Hdebug.
  - destruct (selectForced config forced 0 output) as [r|];
      cbn [Js.bind]; [|done].
    destruct r as [line|].
    + destruct (actOnSelected _ _ _ _ output line) as [[out' a]|] eqn:Hact;
        cbn [Js.bind fst snd]; [|done].
      apply actOnSelected_keepFlags in Hact as [Hk Ha].
      intros [= <- <- <-]. split; [by eapply keepFlags_trans|].
      intros line' [= <-]. by split.
    + intros [= <- <- <-]. by split.
  - destruct (selectLowest config overRiddenReferences 0 output None)
      as [[low output1]|] eqn:Hsel; cbn [Js.bind fst snd]; [|done].
    apply selectLowest_result in Hsel as [Hk1 Hlow].
    destruct (match fst <$> low, highest_grade_to_reflect config with
              | Some g, Some h => Qlt_bool h g | _, _ => false end).
    { intros [= <- <- <-]. split; [by eapply keepFlags_trans|done]. }
    destruct low as [[g line]|]; cbn [fmap option_fmap option_map snd].
    + destruct (actOnSelected _ _ _ _ output1 line) as [[out' a]|] eqn:Hact;
        cbn [Js.bind fst snd]; [|done].
      apply actOnSelected_keepFlags in Hact as [Hk Ha].
      intros [= <- <- <-].
      split; [eapply keepFlags_trans; [|done]; by eapply keepFlags_trans|].
      intros line' [= <-]. split; [done|]. intros _.
      destruct Hlow as [?|(g' & k & verse & [= -> ->] & Hv & Hh)]; [done|].
      destruct (keepFlags_lookup _ _ _ _ Hctg Hv) as (v0 & H0 & Hf0).
      exists v0. split; [done|].
      unfold flags in Hf0. injection Hf0 as _ Ha0 _. by rewrite <- Ha0.
    + intros [= <- <- <-]. split; [by eapply keepFlags_trans|done].
Qed.

(** An iteration of the engine keeps the number of verses and, on each
    of them, [comment_mod_loop_count], [ai_halted] and [grade_only]. *)
Lemma tick_keepFlags st st' selected act :
  tick adaptationInference gradingChoices reflectionInference config
       overRiddenReferences st = Ok (st', selected, act) ->
  keepFlags (reflectionOutput st) (reflectionOutput st').
Proof.
  unfold tick.
  destruct (sweep _ _ _ _ (reflectionOutput st) 0 (reflectionOutput st))
    as [[[output sel] actionDone]|] eqn:Hsweep; cbn [Js.bind]; [|done].
  apply sweep_result in Hsweep as [Hk _]; [|done].
  destruct sel as [line0|].
  - cbn [Js.bind].
    destruct (computeTranslationGrade _ _) as [[avg out]|] eqn:Hgrade;
      cbn [Js.bind fst snd]; [|done].
    intros [= <- _ _]. simpl.
    apply computeTranslationGrade_keepFlags in Hgrade.
    by apply keepFlags_trans with output.
  - destruct (nextAction _ _ _ _ _) as [[[st1 sel1] act1]|] eqn:Hnext;
      cbn [Js.bind]; [|done].
    apply nextAction_result in Hnext as [Hk1 _].
    destruct (computeTranslationGrade _ _) as [[avg out]|] eqn:Hgrade;
      cbn [Js.bind fst snd]; [|done].
    intros [= <- _ _]. simpl.
    apply computeTranslationGrade_keepFlags in Hgrade.
    apply keepFlags_trans with output; [done|].
    by apply keepFlags_trans with (reflectionOutput st1).
Qed.

(** C4 (amended): whatever the service answers and whatever the
    configuration, a verse that an iteration of the engine selects for
    grading is not flagged [ai_halted]; and a verse it selects for
    finalization or reflection is not flagged [ai_halted] either, as long
    as no [debug_force_vref] is configured. *)
Theorem tick_never_selects_halted st st' line act :
  tick adaptationInference gradingChoices reflectionInference config
       overRiddenReferences st = Ok (st', Some line, act) ->
  match act with
  | AddedGrades _ _ _ => True
  | _ => debug_force_vref config = None
  end ->
  exists verse,
    reflectionOutput st !! line = Some verse /\
    is_true (ai_halted verse) = false.
Proof.
  unfold tick.
  destruct (sweep _ _ _ _ (reflectionOutput st) 0 (reflectionOutput st))
    as [[[output selected] actionDone]|] eqn:Hsweep; cbn [Js.bind]; [|done].
  apply sweep_result in Hsweep as [Hk Hsel]; [|done].
  destruct selected as [line0|].
  - cbn [Js.bind].
    destruct (computeTranslationGrade _ _) as [[avg out]|];
      cbn [Js.bind fst snd]; [|done].
    intros [= <- <- <-] _.
    destruct Hsel as (verse & out1 & newGrades & Hv & Hh & _).
    by exists verse.
  - destruct (nextAction _ _ _ _ _) as [[[st1 sel1] act1]|] eqn:Hnext;
      cbn [Js.bind]; [|done].
    apply nextAction_result in Hnext as [Hk1 Hsel1].
    destruct (computeTranslationGrade _ _) as [[avg out]|];
      cbn [Js.bind fst snd]; [|done].
    intros [= <- -> <-] Hact.
    destruct (Hsel1 line eq_refl) as [Hkind Hnot].
    assert (Hdebug : debug_force_vref config = None).
    { by destruct Hkind as [->| ->]. }
    destruct (Hnot Hdebug) as (verse & Hv & Hh). simpl in Hv.
    destruct (keepFlags_lookup _ _ _ _ Hk Hv) as (v0 & H0 & Hf0).
    exists v0. split; [done|].
    unfold flags in Hf0. injection Hf0 as _ Ha0 _. by rewrite <- Ha0.
Qed.

Lemma multiGradeVerse_length choices n newGrades :
  0 <= n ->
  multiGradeVerse choices n = Ok newGrades ->
  Z.of_nat (length newGrades) = n.
Proof.
  unfold multiGradeVerse. intros Hn.
  destruct (_ <? n) eqn:Hlt; [done|].
  intros [= <-]. rewrite length_take. lia.
Qed.

Lemma appendGrades_loops verse newGrades :
  reflection_loops (appendGrades verse newGrades) =
  Some (update_last
          (fun l => set_grades l (Some (default [] (grades l) ++ newGrades)))
          (openLoop (fun l => bool_decide (is_Some (graded_verse l)))
                    (default [] (reflection_loops verse)))).
Proof.
  unfold appendGrades, clear_finalized. by repeat case_match.
Qed.

Lemma update_last_snoc f init l : update_last f (init ++ [l]) = init ++ [f l].
Proof.
  unfold update_last. rewrite length_app. simpl.
  replace (Nat.pred (length init + 1)) with (length init + 0)%nat by lia.
  by rewrite alter_app_r.
Qed.

(** C3 (amended): when the sweep selects a verse, that verse has fewer
    unanswered grades than [grades_per_reflection_loop]; the one request
    to the service asks for exactly the shortfall, or for exactly one
    grade when grade mode is disabled; the grades that come back are that
    many and are appended to the verse's newest round, after a new round
    has been opened when the verse has none or when the newest one
    already holds a [graded_verse].  In particular, with three grades per
    round, grade mode enabled and two grades in a newest round that holds
    no [graded_verse], exactly one grade is requested. *)
Theorem sweep_requests_shortfall :
  (forall output out' line act,
      sweep adaptationInference gradingChoices config overRiddenReferences
            output 0 output = Ok (out', Some line, act) ->
      exists verse newGrades,
        output !! line = Some verse /\
        computeNumberUnansweredGrades verse config
          < grades_per_reflection_loop config /\
        let requested :=
          if negb (default true (grade_mode_enabled config)) then 1
          else grades_per_reflection_loop config
               - computeNumberUnansweredGrades verse config in
        act = AddedGrades line requested newGrades /\
        Z.of_nat (length newGrades) = requested /\
        out' !! line = Some (appendGrades verse newGrades) /\
        let loops := default [] (reflection_loops verse) in
        (forall init newest,
            loops = init ++ [newest] -> graded_verse newest = None ->
            reflection_loops (appendGrades verse newGrades)
            = Some (init ++ [set_grades newest
                               (Some (default [] (grades newest) ++ newGrades))])) /\
        (loops = [] \/
         (exists newest, last loops = Some newest /\
                         is_Some (graded_verse newest)) ->
         reflection_loops (appendGrades verse newGrades)
         = Some (loops ++ [set_grades emptyLoop (Some newGrades)]))) /\
  (forall verse init newest g1 g2,
      reflection_loops verse = Some (init ++ [newest]) ->
      grades newest = Some [g1; g2] ->
      graded_verse newest = None ->
      grades_per_reflection_loop config = 3 ->
      default true (grade_mode_enabled config) = true ->
      neededGrades verse config = 1).
Proof.
  split.
  - intros output out' line act Hsweep.
    apply sweep_result in Hsweep as [_ Hsel]; [|done].
    destruct Hsel as (verse & out1 & newGrades & Hv & _ & Hun & _ & H1 & Hg & -> & ->).
    exists verse, newGrades.
    split; [done|]. split; [done|].
    assert (Hreq : 0 <= neededGrades verse config).
    { unfold neededGrades. destruct (negb _); lia. }
    split; [done|].
    split; [by apply (multiGradeVerse_length _ _ _ Hreq Hg)|].
    split; [apply list_lookup_insert_eq; by eapply lookup_lt_Some|].
    split.
    + intros init newest Hl Hopen.
      rewrite appendGrades_loops, Hl. unfold openLoop.
      destruct (init ++ [newest]) as [|x xs] eqn:Hcons; [by destruct init|].
      rewrite <- Hcons, last_snoc, Hopen.
      rewrite bool_decide_false by (by intros [? ?]).
      by rewrite update_last_snoc.
    + intros Hclosed. rewrite appendGrades_loops. unfold openLoop.
      destruct Hclosed as [->|(newest & Hlast & Hsome)].
      * simpl. reflexivity.
      * destruct (default [] (reflection_loops verse)) as [|x xs] eqn:Hl;
          [done|].
        rewrite Hlast. rewrite bool_decide_true by done.
        by rewrite update_last_snoc.
  - intros verse init newest g1 g2 Hl Hg Hopen H3 Hmode.
    unfold neededGrades, computeNumberUnansweredGrades.
    rewrite Hmode, Hl, last_snoc, Hopen, Hg, H3. simpl. lia.
Qed.

End Tick.

Section TickExamples.
Import reflectionUtils gradeReflectLoop reflectionWorker Operations.

(** C4, as stated, fails under the debug override: with
    [debug_force_vref] set to its reference, a verse flagged [ai_halted]
    is selected and reflected on (its translation is replaced). *)
Lemma tick_debug_override_selects_halted :
  let config := with_debug_force_vref exampleConfig (Some (VStr "GEN 1:1")) in
  let st := mkState [haltedVerse] 0 0 false in
  ai_halted haltedVerse = Some true /\
  exists st' verse',
    tick exampleAdaptation exampleGrading exampleReflection config [] st
    = Ok (st', Some 0%nat, ReflectedOnVerse 0) /\
    reflectionOutput st' !! 0%nat = Some verse' /\
    ai_halted verse' = Some true /\
    lookUp haltedVerse (translation_key config) = Ok (VStr "first draft") /\
    lookUp verse' (translation_key config) = Ok (VStr "third draft").
Proof.
  intros config st. split; [reflexivity|].
  eexists. eexists. split; [vm_compute; reflexivity|].
  repeat split.
Qed.

Lemma tick_never_selects_halted_witness :
  let config := with_rounds exampleConfig 3 (Some 2) None in
  let st := mkState [haltedVerse; partlyGradedVerse] 0 0 false in
  exists st' newGrades,
    tick exampleAdaptation exampleGrading exampleReflection config [] st
    = Ok (st', Some 1%nat, AddedGrades 1 1 newGrades) /\
    exists verse,
      reflectionOutput st !! 1%nat = Some verse /\
      is_true (ai_halted verse) = false.
Proof.
  intros config st. eexists. eexists.
  assert (H : tick exampleAdaptation exampleGrading exampleReflection config [] st
              = Ok (mkState _ _ _ _, Some 1%nat,
                    AddedGrades 1 1 [mkGrade 70 "fair"]))
    by (vm_compute; reflexivity).
  split; [exact H|].
  exact (tick_never_selects_halted exampleAdaptation exampleGrading
           exampleReflection config [] st _ 1%nat _ H I).
Defined.

(** C3, as stated, fails on a verse whose newest round has been
    corrected: its two grades are answered, so with three grades per round
    the sweep asks for three grades, not one, and they open a new round
    instead of joining the two. *)
Lemma sweep_closed_round_requests_full_round :
  let config := with_rounds exampleConfig 3 (Some 2) None in
  (length <$> (last (default [] (reflection_loops correctedVerse)) ≫= grades))
    = Some 2%nat /\
  grades_per_reflection_loop config = 3 /\
  computeNumberUnansweredGrades correctedVerse config = 0 /\
  exists out' verse' newGrades,
    sweep exampleAdaptation exampleGrading config [] [correctedVerse] 0
          [correctedVerse]
    = Ok (out', Some 0%nat, AddedGrades 0 3 newGrades) /\
    length newGrades = 3%nat /\
    out' !! 0%nat = Some verse' /\
    reflection_loops verse' =
    Some (default [] (reflection_loops correctedVerse)
          ++ [set_grades emptyLoop (Some newGrades)]).
Proof.
  intros config. repeat split.
  eexists. eexists. eexists. split; [vm_compute; reflexivity|].
  repeat split.
Qed.

Lemma sweep_requests_shortfall_witness :
  let config := with_rounds exampleConfig 3 (Some 2) None in
  let output := [haltedVerse; partlyGradedVerse] in
  exists out' newGrades,
    sweep exampleAdaptation exampleGrading config [] output 0 output
    = Ok (out', Some 1%nat, AddedGrades 1 1 newGrades) /\
    Z.of_nat (length newGrades) = 1 /\
    neededGrades partlyGradedVerse config = 1.
Proof.
  intros config output.
  destruct (sweep_requests_shortfall exampleAdaptation exampleGrading config [])
    as [Hsweep Hexample].
  assert (H : sweep exampleAdaptation exampleGrading config [] output 0 output
              = Ok (<[ 1%nat := appendGrades partlyGradedVerse [mkGrade 70 "fair"] ]>
                      output,
                    Some 1%nat, AddedGrades 1 1 [mkGrade 70 "fair"]))
    by (vm_compute; reflexivity).
  eexists. eexists. split; [exact H|].
  split; [reflexivity|].
  exact (Hexample partlyGradedVerse []
           (mkLoop (Some [mkGrade 50 "weak"; mkGrade 60 "better"])
                   None None None None None)
           (mkGrade 50 "weak") (mkGrade 60 "better")
           eq_refl eq_refl eq_refl eq_refl eq_refl).
Defined.

End TickExamples.

(** ** Ingestion *)

Section Ingestion.
Import reflectionUtils gradeReflectLoop reflectionWorker Operations.






(** Key paths that do not start at [source] read the same. *)
Lemma sameButSource_lookUpKey v v' k rest d :
  sameButSource v v' -> k <> "source"%string ->
  lookUpKey (VObj (fields v')) (map KStr (k :: rest)) d true
  = lookUpKey (VObj (fields v)) (map KStr (k :: rest)) d true.
Proof.
  intros [H _] Hk. unfold lookUpKey. simpl map.
  apply lookUpKey_loop_own. by apply H.
Qed.



Lemma setSource_sameButSource line x line' :
  setVerseKey line SOURCE_KEY x = Ok line' -> sameButSource line line'.
Proof.
  unfold setVerseKey, setKey, SOURCE_KEY. simpl.
  intros [= <-]. split; [|done].
  intros k Hk. simpl. by apply own_put_ne.
Qed.

Lemma setSource_returns line x :
  setVerseKey line SOURCE_KEY x
  = Ok (set_fields line (put (fields line) "source" x)).
Proof. reflexivity. Qed.

(** What the search of [getReferencedLine] answers. *)
Lemma findReferencedLine_spec id rest :
  forall n,
    (exists k line,
        findReferencedLine id n rest = Ok (Some (n + k)%nat) /\
        rest !! k = Some line /\
        lookUpOrEmpty line REFERENCE_KEY = Ok (VStr id) /\
        forall k' line', (k' < k)%nat -> rest !! k' = Some line' ->
                         lookUpOrEmpty line' REFERENCE_KEY <> Ok (VStr id)) \/
    (findReferencedLine id n rest = Ok None /\
     forall k line, rest !! k = Some line ->
                    lookUpOrEmpty line REFERENCE_KEY <> Ok (VStr id)).
Proof.
  induction rest as [|line rest IH]; intros n; simpl.
  - right. split; [done|]. intros k line Hk. by destruct k.
  - destruct (lookUpKey_loop_returns (map KStr REFERENCE_KEY)
                (VObj (fields line)) (VStr "") true) as [x Hx].
    change (lookUpOrEmpty line REFERENCE_KEY = Ok x) in Hx.
    rewrite Hx. cbn [Js.bind].
    destruct (strict_eq_str x id) eqn:He.
    + left. exists 0%nat, line.
      split; [by rewrite Nat.add_0_r|]. split; [done|]. split; [|lia].
      destruct x; simpl in He; try done.
      apply String.eqb_eq in He. by subst.
    + assert (Hne : lookUpOrEmpty line REFERENCE_KEY <> Ok (VStr id)).
      { rewrite Hx. intros [= ->]. simpl in He.
        by rewrite String.eqb_refl in He. }
      destruct (IH (S n)) as [(k & l & Hf & Hk & Hl & Hfirst)|[Hf Hnone]].
      * left. exists (S k), l.
        split; [by replace (n + S k)%nat with (S n + k)%nat by lia|].
        split; [done|]. split; [done|].
        intros [|k'] l' Hlt Hk'; simpl in Hk'; [congruence|].
        eapply Hfirst; [|done]. lia.
      * right. split; [done|].
        intros [|k] l Hk; simpl in Hk; [congruence|by eapply Hnone].
Qed.



Lemma sameButSource_reference v v' :
  sameButSource v v' ->
  lookUpOrEmpty v' REFERENCE_KEY = lookUpOrEmpty v REFERENCE_KEY.
Proof. intros H. by apply (sameButSource_lookUpKey _ _ "vref" []). Qed.






End Ingestion.

(** ** The checkpoint store *)

Section JsonlStore.
Import reflectionUtils.

Variable JSON_stringify : value -> option string.
Variable JSON_parse : string -> outcome value.

Lemma split_lines_one line :
  has_newline line = false -> split_lines line = [line].
Proof.
  induction line as [|c rest IH]; simpl; [done|].
  intros H. apply orb_false_iff in H as [Hc Hrest].
  by rewrite Hc, (IH Hrest).
Qed.

Lemma split_lines_append line rest :
  has_newline line = false ->
  split_lines (String.append line (String newline rest))
  = line :: split_lines rest.
Proof.
  induction line as [|c line IH]; simpl.
  - done.
  - intros H. apply orb_false_iff in H as [Hc Hline].
    by rewrite Hc, (IH Hline).
Qed.

Lemma split_join_lines lines :
  lines <> [] ->
  Forall (fun line => has_newline line = false) lines ->
  split_lines (join_lines lines) = lines.
Proof.
  induction lines as [|line rest IH]; [done|].
  intros _ Hall. apply Forall_cons in Hall as [Hline Hrest].
  destruct rest as [|line2 rest].
  - by apply split_lines_one.
  - change (join_lines (line :: line2 :: rest))
      with (String.append line (String newline (join_lines (line2 :: rest)))).
    rewrite split_lines_append by done. f_equal. by apply IH.
Qed.



End JsonlStore.

Section JsonlExamples.
Import reflectionUtils.


(** An empty collection is saved as an empty file and loaded as an empty
    collection. *)
Example saveJsonl_loadJsonl_empty :
  exists fs',
    saveJsonl ExampleCodec.stringify ∅ "reflection.jsonl" [] = Ok fs' /\
    fs' !! "reflection.jsonl"%string = Some ""%string /\
    loadJsonl ExampleCodec.parse fs' "reflection.jsonl" None = Ok [].
Proof. eexists. split; [reflexivity|]. split; [reflexivity|]. reflexivity. Qed.

End JsonlExamples.

(** ** The edit distance *)

Section EditDistance.
Import editDistance.
#[local] Open Scope nat_scope.
Context {A : Type} `{EqDecision A}.
Implicit Types a b bp ap suffix : list A.
Implicit Types x y c : A.

Lemma distance_nil_l b : distance [] b = length b.
Proof. by destruct b. Qed.

Lemma distance_nil_r a : distance a [] = length a.
Proof. by destruct a. Qed.

Lemma distance_cons x a y b :
  distance (x :: a) (y :: b) =
  if decide (x = y) then distance a b
  else S (Nat.min (Nat.min (distance a b) (distance (x :: a) b))
                  (distance a (y :: b))).
Proof. reflexivity. Qed.

Lemma fillRow_distance x bp suffix : forall ap,
  fillRow x suffix (map (distance bp) (prefixes ap suffix))
          (distance bp ap) (distance (x :: bp) ap)
  = map (distance (x :: bp)) (prefixes ap suffix).
Proof.
  induction suffix as [|c suffix IH]; intros ap; [done|].
  cbn [prefixes map fillRow].
  rewrite (distance_cons x bp c ap).
  destruct (decide (x = c)) as [->|Hne].
  - f_equal. rewrite <- (IH (c :: ap)). f_equal.
    rewrite distance_cons. by rewrite decide_True.
  - f_equal. rewrite <- (IH (c :: ap)). f_equal.
    by rewrite distance_cons, decide_False.
Qed.

Lemma fillRows_distance a b : forall bp,
  fillRows (S (length bp)) b a (rowOf a bp) = rowOf a (rev b ++ bp).
Proof.
  induction b as [|x b IH]; intros bp; [done|].
  assert (Hrow : S (length bp)
                 :: fillRow x a (map (distance bp) (prefixes [] a))
                            (distance bp []) (S (length bp))
                 = rowOf a (x :: bp)).
  { unfold rowOf. rewrite distance_nil_r. f_equal.
    rewrite <- (fillRow_distance x bp a []). by rewrite !distance_nil_r. }
  change (fillRows (S (length bp)) (x :: b) a (rowOf a bp))
    with (fillRows (S (S (length bp))) b a
            (S (length bp)
             :: fillRow x a (map (distance bp) (prefixes [] a))
                        (distance bp []) (S (length bp)))).
  rewrite Hrow. simpl rev. rewrite <- app_assoc. exact (IH (x :: bp)).
Qed.

Lemma seq_distance a : forall ap,
  map (distance []) (prefixes ap a) = seq (S (length ap)) (length a).
Proof.
  induction a as [|c a IH]; intros ap; [done|].
  simpl. f_equal. apply (IH (c :: ap)).
Qed.

Lemma last_prefixes a : forall ap c,
  last (prefixes ap (c :: a)) = Some (rev (c :: a) ++ ap).
Proof.
  induction a as [|d a IH]; intros ap c; [done|].
  change (prefixes ap (c :: d :: a))
    with ((c :: ap) :: prefixes (c :: ap) (d :: a)).
  rewrite last_cons, (IH (c :: ap) d). simpl. by rewrite <- !app_assoc.
Qed.

Lemma last_map {B C} (f : B -> C) (l : list B) :
  last (map f l) = f <$> last l.
Proof.
  induction l as [|y [|z l] IH]; [done..|].
  change (last (map f (y :: z :: l))) with (last (map f (z :: l))).
  by rewrite IH.
Qed.

Lemma levenshtein_distance a b : levenshtein a b = distance (rev b) (rev a).
Proof.
  unfold levenshtein.
  destruct a as [|c a]; [by rewrite distance_nil_r, length_rev|].
  destruct b as [|x b]; [by rewrite distance_nil_l, length_rev|].
  cbn [length Nat.eqb].
  pose proof (fillRows_distance (c :: a) (x :: b) []) as H.
  unfold rowOf at 1 in H. rewrite seq_distance in H. simpl length in H.
  change (distance [] [] :: seq 1 (S (length a))) with (seq 0 (S (S (length a)))) in H.
  rewrite H. unfold rowOf. rewrite app_nil_r.
  rewrite last_cons, last_map, last_prefixes. simpl. by rewrite app_nil_r.
Qed.

Lemma distance_sym a : forall b, distance a b = distance b a.
Proof.
  induction a as [|x a IHa]; intros b.
  - by rewrite distance_nil_l, distance_nil_r.
  - induction b as [|y b IHb]; [done|].
    rewrite !distance_cons.
    destruct (decide (x = y)) as [->|Hne].
    + rewrite decide_True by done. apply IHa.
    + rewrite decide_False by done.
      rewrite (IHa b), (IHa (y :: b)), IHb. f_equal. lia.
Qed.

Lemma distance_refl a : distance a a = 0%nat.
Proof.
  induction a as [|x a IH]; [done|].
  by rewrite distance_cons, decide_True.
Qed.

Lemma distance_zero a : forall b, distance a b = 0%nat -> a = b.
Proof.
  induction a as [|x a IH]; intros [|y b]; try done.
  rewrite distance_cons. destruct (decide (x = y)) as [->|]; [|done].
  intros H. f_equal. by apply IH.
Qed.

Lemma distance_upper a : forall b,
  (distance a b <= Nat.max (length a) (length b))%nat.
Proof.
  induction a as [|x a IH]; intros b.
  - rewrite distance_nil_l. simpl. lia.
  - destruct b as [|y b]; [rewrite distance_nil_r; simpl; lia|].
    rewrite distance_cons. specialize (IH b). simpl length.
    destruct (decide (x = y)); lia.
Qed.

Lemma distance_lower a : forall b,
  (length a - length b <= distance a b)%nat /\
  (length b - length a <= distance a b)%nat.
Proof.
  induction a as [|x a IHa]; intros b.
  - rewrite distance_nil_l. simpl. lia.
  - induction b as [|y b IHb]; [rewrite distance_nil_r; simpl; lia|].
    rewrite distance_cons.
    pose proof (IHa b). pose proof (IHa (y :: b)). simpl length in *.
    destruct (decide (x = y)); lia.
Qed.

(** Adding a character to one of the strings moves the distance by at
    most one. *)
Lemma distance_step_l n : forall a b x,
  (length a + length b <= n)%nat ->
  (distance (x :: a) b <= S (distance a b))%nat /\
  (distance a b <= S (distance (x :: a) b))%nat.
Proof.
  induction n as [|n IH]; intros a b x Hn.
  - destruct a, b; simpl in Hn; try lia. simpl. lia.
  - assert (Hr : forall a' b' y,
               (length a' + length b' <= n)%nat ->
               (distance a' (y :: b') <= S (distance a' b'))%nat /\
               (distance a' b' <= S (distance a' (y :: b')))%nat).
    { intros a' b' y H. rewrite (distance_sym a' (y :: b')), (distance_sym a' b').
      apply IH. lia. }
    destruct b as [|y b].
    + rewrite !distance_nil_r. simpl. lia.
    + rewrite distance_cons. simpl length in Hn.
      destruct (Hr a b y ltac:(lia)) as [H1 H2].
      destruct (IH a b x ltac:(lia)) as [H3 H4].
      destruct (decide (x = y)); lia.
Qed.

Lemma distance_cons_l x a b : (distance (x :: a) b <= S (distance a b))%nat.
Proof. by apply (distance_step_l (length a + length b)). Qed.

Lemma distance_cons_r y a b : (distance a (y :: b) <= S (distance a b))%nat.
Proof. rewrite (distance_sym a (y :: b)), (distance_sym a b). apply distance_cons_l. Qed.

Lemma edits_distance a b n : edits a b n -> (distance a b <= n)%nat.
Proof.
  induction 1 as [|x a b n _ IH|x y a b n _ IH|x a b n _ IH|y a b n _ IH].
  - done.
  - by rewrite distance_cons, decide_True.
  - rewrite distance_cons. destruct (decide (x = y)); lia.
  - pose proof (distance_cons_l x a b). lia.
  - pose proof (distance_cons_r y a b). lia.
Qed.

Lemma edits_insert_all b : edits [] b (length b).
Proof. induction b; simpl; by constructor. Qed.

Lemma edits_delete_all a : edits a [] (length a).
Proof. induction a; simpl; by constructor. Qed.

Lemma distance_edits a : forall b, edits a b (distance a b).
Proof.
  induction a as [|x a IHa]; intros b.
  - rewrite distance_nil_l. apply edits_insert_all.
  - induction b as [|y b IHb].
    + rewrite distance_nil_r. apply (edits_delete_all (x :: a)).
    + rewrite distance_cons. destruct (decide (x = y)) as [->|Hne].
      * by apply edits_keep.
      * destruct (Nat.min_spec (distance a b) (distance (x :: a) b))
          as [[_ ->]|[_ ->]];
        [destruct (Nat.min_spec (distance a b) (distance a (y :: b)))
            as [[_ ->]|[_ ->]]
        |destruct (Nat.min_spec (distance (x :: a) b) (distance a (y :: b)))
            as [[_ ->]|[_ ->]]].
        -- by apply edits_substitute.
        -- by apply edits_delete.
        -- by apply edits_insert.
        -- by apply edits_delete.
Qed.

Lemma edits_snoc_keep a b n x : edits a b n -> edits (a ++ [x]) (b ++ [x]) n.
Proof.
  induction 1; simpl; try by constructor.
  apply edits_keep, edits_nil.
Qed.

Lemma edits_snoc_substitute a b n x y :
  edits a b n -> edits (a ++ [x]) (b ++ [y]) (S n).
Proof.
  induction 1; simpl; try by constructor.
  apply edits_substitute, edits_nil.
Qed.

Lemma edits_snoc_delete a b n x : edits a b n -> edits (a ++ [x]) b (S n).
Proof.
  induction 1; simpl; try by constructor.
  apply edits_delete, edits_nil.
Qed.

Lemma edits_snoc_insert a b n y : edits a b n -> edits a (b ++ [y]) (S n).
Proof.
  induction 1; simpl; try by constructor.
  apply edits_insert, edits_nil.
Qed.

Lemma edits_rev a b n : edits a b n -> edits (rev a) (rev b) n.
Proof.
  induction 1; simpl.
  - constructor.
  - by apply edits_snoc_keep.
  - by apply edits_snoc_substitute.
  - by apply edits_snoc_delete.
  - by apply edits_snoc_insert.
Qed.

Lemma edits_sym a b n : edits a b n -> edits b a n.
Proof. induction 1; by constructor. Qed.

Lemma edits_trans a b n :
  edits a b n ->
  forall (t : list A) m,
    edits b t m -> exists k, (k <= n + m)%nat /\ edits a t k.
Proof.
  induction 1 as [|x a b n _ IH|x y a b n _ IH|x a b n _ IH|y a b n _ IH];
    intros t m H2.
  - exists m. by split; [lia|].
  - remember (x :: b) as l eqn:Hl. revert Hl.
    induction H2 as [|x' b' c' m' H2 _|x' y' b' c' m' H2 _|x' b' c' m' H2 _
                     |y' b' c' m' H2 IH2]; intros Hl; simplify_eq.
    + destruct (IH _ _ H2) as (k & Hk & He).
      exists k. split; [lia|by constructor].
    + destruct (IH _ _ H2) as (k & Hk & He).
      exists (S k). split; [lia|by constructor].
    + destruct (IH _ _ H2) as (k & Hk & He).
      exists (S k). split; [lia|by constructor].
    + destruct (IH2 eq_refl) as (k & Hk & He).
      exists (S k). split; [lia|by constructor].
  - remember (y :: b) as l eqn:Hl. revert Hl.
    induction H2 as [|x' b' c' m' H2 _|x' y' b' c' m' H2 _|x' b' c' m' H2 _
                     |y' b' c' m' H2 IH2]; intros Hl; simplify_eq.
    + destruct (IH _ _ H2) as (k & Hk & He).
      exists (S k). split; [lia|by constructor].
    + destruct (IH _ _ H2) as (k & Hk & He).
      exists (S k). split; [lia|by constructor].
    + destruct (IH _ _ H2) as (k & Hk & He).
      exists (S k). split; [lia|by constructor].
    + destruct (IH2 eq_refl) as (k & Hk & He).
      exists (S k). split; [lia|by constructor].
  - destruct (IH _ _ H2) as (k & Hk & He).
    exists (S k). split; [lia|by constructor].
  - remember (y :: b) as l eqn:Hl. revert Hl.
    induction H2 as [|x' b' c' m' H2 _|x' y' b' c' m' H2 _|x' b' c' m' H2 _
                     |y' b' c' m' H2 IH2]; intros Hl; simplify_eq.
    + destruct (IH _ _ H2) as (k & Hk & He).
      exists (S k). split; [lia|by constructor].
    + destruct (IH _ _ H2) as (k & Hk & He).
      exists (S k). split; [lia|by constructor].
    + destruct (IH _ _ H2) as (k & Hk & He).
      exists k. split; [lia|done].
    + destruct (IH2 eq_refl) as (k & Hk & He).
      exists (S k). split; [lia|by constructor].
Qed.

Lemma levenshtein_edits a b : edits a b (levenshtein a b).
Proof.
  rewrite levenshtein_distance.
  rewrite <- (rev_involutive a), <- (rev_involutive b) at 1.
  apply edits_rev, edits_sym, distance_edits.
Qed.

Lemma levenshtein_le_edits a b n :
  edits a b n -> (levenshtein a b <= n)%nat.
Proof.
  rewrite levenshtein_distance.
  intros H. by apply edits_distance, edits_sym, edits_rev.
Qed.

(** [levenshtein a b] is the least number of single-character
    insertions, deletions and substitutions that turn [a] into [b]: so
    many edits do it, and no fewer do. *)
Theorem levenshtein_least_edits a b :
  edits a b (levenshtein a b) /\
  forall n, edits a b n -> levenshtein a b <= n.
Proof. split; [apply levenshtein_edits|apply levenshtein_le_edits]. Qed.

Lemma levenshtein_zero a b : levenshtein a b = 0 <-> a = b.
Proof.
  rewrite levenshtein_distance. split.
  - intros H. apply distance_zero in H.
    by rewrite <- (rev_involutive a), <- (rev_involutive b), H.
  - intros ->. apply distance_refl.
Qed.

Lemma levenshtein_sym a b : levenshtein a b = levenshtein b a.
Proof. rewrite !levenshtein_distance. apply distance_sym. Qed.

Lemma levenshtein_triangle a b (t : list A) :
  levenshtein a t <= levenshtein a b + levenshtein b t.
Proof.
  destruct (edits_trans _ _ _ (levenshtein_edits a b) _ _ (levenshtein_edits b t))
    as (k & Hk & He).
  apply levenshtein_le_edits in He. lia.
Qed.

(** [levenshtein] is a metric on strings: it is zero between equal
    strings only, it does not depend on the order of its arguments, and
    going through a third string is never shorter. *)
Theorem levenshtein_metric a b (t : list A) :
  (levenshtein a b = 0 <-> a = b) /\
  levenshtein a b = levenshtein b a /\
  levenshtein a t <= levenshtein a b + levenshtein b t.
Proof.
  split; [apply levenshtein_zero|].
  split; [apply levenshtein_sym|apply levenshtein_triangle].
Qed.

(** The distance is at least the difference of the lengths and at most
    the greater length; with an empty string it is the length of the
    other one. *)
Theorem levenshtein_bounds a b :
  length a - length b <= levenshtein a b /\
  length b - length a <= levenshtein a b /\
  levenshtein a b <= Nat.max (length a) (length b) /\
  levenshtein a [] = length a /\
  levenshtein [] b = length b.
Proof.
  split; [|split; [|split; [|split]]].
  4: { unfold levenshtein. simpl. by destruct (length a). }
  4: { reflexivity. }
  all: rewrite levenshtein_distance;
    pose proof (distance_lower (rev b) (rev a)) as [H1 H2];
    pose proof (distance_upper (rev b) (rev a)) as H3;
    rewrite !length_rev in *; lia.
Qed.

End EditDistance.

(** ** References and ranges of verses *)

Section VerseReferences.
Import reflectionUtils gradeReflectLoop reflectionWorker verseReferences.

Lemma append_cons c (s1 s2 : string) :
  String c s1 +:+ s2 = String c (s1 +:+ s2).
Proof. reflexivity. Qed.

Lemma append_assoc (s1 s2 s3 : string) :
  (s1 +:+ s2) +:+ s3 = s1 +:+ (s2 +:+ s3).
Proof.
  induction s1 as [|c s1 IH]; [done|]. by rewrite !append_cons, IH.
Qed.

Lemma append_nil_r (s : string) : s +:+ "" = s.
Proof. induction s as [|c s IH]; [done|]. by rewrite append_cons, IH. Qed.

Lemma length_append (s1 s2 : string) :
  String.length (s1 +:+ s2) = (String.length s1 + String.length s2)%nat.
Proof.
  induction s1 as [|c s1 IH]; [done|]. rewrite append_cons. simpl.
  by rewrite IH.
Qed.

Lemma allDigits_append s1 s2 :
  allDigits (s1 +:+ s2) = allDigits s1 && allDigits s2.
Proof.
  induction s1 as [|c s1 IH]; [done|]. rewrite append_cons. simpl.
  by rewrite IH, andb_assoc.
Qed.

Lemma digitValue_pretty_N_char x :
  (x < 10)%N -> digitValue (pretty_N_char x) = Some (Z.of_N x).
Proof.
  intros H.
  assert (x = 0 \/ x = 1 \/ x = 2 \/ x = 3 \/ x = 4 \/ x = 5 \/ x = 6
          \/ x = 7 \/ x = 8 \/ x = 9)%N as Hx by lia.
  destruct Hx as [->|[->|[->|[->|[->|[->|[->|[->|[->| ->]]]]]]]]]; reflexivity.
Qed.

Lemma digitValue_not_space c d : digitValue c = Some d -> is_space c = false.
Proof.
  unfold digitValue, is_space. intros H.
  destruct ((48 <=? nat_of_ascii c)%nat && (nat_of_ascii c <=? 57)%nat) eqn:He;
    [|done].
  apply andb_true_iff in He as [H1 H2].
  apply Nat.leb_le in H1, H2.
  repeat (apply orb_false_iff; split); try apply andb_false_iff;
    rewrite ?Nat.leb_gt, ?Nat.eqb_neq; lia.
Qed.

Lemma digitValue_not_char c d (e : ascii) :
  digitValue c = Some d ->
  ((nat_of_ascii e < 48)%nat \/ (57 < nat_of_ascii e)%nat) ->
  Ascii.eqb c e = false.
Proof.
  unfold digitValue. intros H He.
  destruct ((48 <=? nat_of_ascii c)%nat && (nat_of_ascii c <=? 57)%nat) eqn:Hc;
    [|done].
  apply andb_true_iff in Hc as [H1 H2]. apply Nat.leb_le in H1, H2.
  apply Ascii.eqb_neq. intros ->. lia.
Qed.

(** What [pretty_N_go] puts before [s]: digits, read back as [x]. *)
Lemma pretty_N_go_digits x :
  (0 < x)%N ->
  exists k : Z,
    0 <= k /\
    forall s,
      exists c rest d,
        pretty_N_go x s = String c rest /\ digitValue c = Some d /\
        (forall read,
            digitsValue (pretty_N_go x s) read
            = digitsValue s (Some (default 0 read * 10 ^ k + Z.of_N x))) /\
        exists digits,
          pretty_N_go x s = digits +:+ s /\ allDigits digits = true.
Proof.
  induction (N.lt_wf_0 x) as [x _ IH]. intros Hx.
  assert (Hc : digitValue (pretty_N_char (x `mod` 10))
               = Some (Z.of_N (x `mod` 10)%N)).
  { apply digitValue_pretty_N_char. by apply N.mod_lt. }
  destruct (decide (x `div` 10 = 0)%N) as [Hz|Hnz].
  - exists 1. split; [lia|]. intros s.
    rewrite pretty_N_go_step, Hz, pretty_N_go_0 by done.
    eexists _, _, _. split; [done|]. split; [exact Hc|]. split.
    + intros read. simpl. rewrite Hc.
      apply (f_equal (fun z => digitsValue s (Some z))).
      assert (Hm : (x `mod` 10 = x)%N).
      { rewrite (N.div_mod x 10) at 2 by done. rewrite Hz. lia. }
      rewrite Hm, Z.pow_1_r. generalize (default 0 read). intros. lia.
    + exists (String (pretty_N_char (x `mod` 10)) ""). split; [done|].
      simpl. by rewrite Hc.
  - destruct (IH (x `div` 10)%N) as (k & Hk & Hgo).
    { apply N.div_lt; lia. }
    { by apply N.neq_0_lt_0. }
    exists (k + 1). split; [lia|]. intros s.
    rewrite pretty_N_go_step by done.
    destruct (Hgo (String (pretty_N_char (x `mod` 10)) s))
      as (c & rest & d & Heq & Hd & Hread & digits & Happ & Hall).
    exists c, rest, d. split; [done|]. split; [done|]. split.
    + intros read. rewrite Hread. simpl. rewrite Hc.
      apply (f_equal (fun z => digitsValue s (Some z))).
      rewrite Z.pow_add_r, Z.pow_1_r by lia.
      assert (Z.of_N x = 10 * Z.of_N (x `div` 10) + Z.of_N (x `mod` 10)).
      { rewrite (N.div_mod x 10) at 1 by done. lia. }
      generalize dependent (default 0 read). intros. lia.
    + exists (digits +:+ String (pretty_N_char (x `mod` 10)) "").
      split.
      * by rewrite Happ, append_assoc.
      * rewrite allDigits_append, Hall. simpl. by rewrite Hc.
Qed.

Lemma pretty_nonneg_digits z :
  0 <= z ->
  exists c rest d,
    pretty z = String c rest /\ digitValue c = Some d /\
    allDigits (pretty z) = true /\
    digitsValue (pretty z) None = Some z.
Proof.
  intros Hz. destruct z as [|p|p]; [|clear Hz|lia].
  - by exists "0"%char, ""%string, 0.
  - change (pretty (Z.pos p)) with (pretty (N.pos p)).
    unfold pretty, pretty_N. rewrite decide_False by done.
    destruct (pretty_N_go_digits (N.pos p) ltac:(lia)) as (k & Hk & Hgo).
    destruct (Hgo ""%string) as (c & rest & d & Heq & Hd & Hread & ds & Happ & Hall).
    exists c, rest, d. split; [done|]. split; [done|]. split.
    + by rewrite Happ, append_nil_r.
    + rewrite Hread. simpl. done.
Qed.

Lemma trimStart_digit c rest d :
  digitValue c = Some d -> trimStart (String c rest) = String c rest.
Proof. intros H. simpl. by rewrite (digitValue_not_space c d). Qed.

(** [parseInt] reads back the decimal text of a natural number. *)
Lemma parseInt_pretty z : 0 <= z -> parseInt (pretty z) = Int z.
Proof.
  intros Hz.
  destruct (pretty_nonneg_digits z Hz) as (c & rest & d & Heq & Hd & _ & Hv).
  unfold parseInt. rewrite Heq, (trimStart_digit c rest d Hd).
  rewrite Heq in Hv.
  assert (Hsign : match String c rest with
                  | String "-"%char rest0 => (-1, rest0)
                  | String "+"%char rest0 => (1, rest0)
                  | _ => (1, String c rest)
                  end = (1, String c rest)).
  { clear -Hd.
    destruct c as [[] [] [] [] [] [] [] []]; try done; by vm_compute in Hd. }
  rewrite Hsign, Hv. f_equal. lia.
Qed.

Lemma includes_digits s (e : ascii) :
  allDigits s = true ->
  ((nat_of_ascii e < 48)%nat \/ (57 < nat_of_ascii e)%nat) ->
  includes s e = false.
Proof.
  intros Hs He. induction s as [|c s IH]; [done|].
  simpl in *. apply andb_true_iff in Hs as [Hc Hs].
  apply bool_decide_eq_true in Hc as [d Hd].
  by rewrite (digitValue_not_char c d e Hd He), IH.
Qed.

Lemma includes_append s1 s2 e :
  includes (s1 +:+ s2) e = includes s1 e || includes s2 e.
Proof.
  induction s1 as [|c s1 IH]; [done|]. rewrite append_cons. simpl.
  by rewrite IH, orb_assoc.
Qed.

Lemma lastIndexOf_none s e : includes s e = false -> lastIndexOf s e = None.
Proof.
  induction s as [|c s IH]; [done|]. simpl. intros H.
  apply orb_false_iff in H as [Hc Hs]. by rewrite (IH Hs), Hc.
Qed.

Lemma lastIndexOf_append s1 s2 e :
  includes s2 e = false ->
  lastIndexOf (s1 +:+ String e s2) e = Some (String.length s1).
Proof.
  intros H. induction s1 as [|c s1 IH].
  - simpl. by rewrite (lastIndexOf_none s2 e H), Ascii.eqb_refl.
  - rewrite append_cons. simpl. by rewrite IH.
Qed.

Lemma substring_prefix s1 s2 :
  substring 0 (String.length s1) (s1 +:+ s2) = s1.
Proof.
  induction s1 as [|c s1 IH].
  - simpl. by destruct s2.
  - rewrite append_cons. simpl. by rewrite IH.
Qed.

Lemma substring_all s : substring 0 (String.length s) s = s.
Proof. induction s as [|c s IH]; [done|]. simpl. by rewrite IH. Qed.

Lemma substring_suffix s1 c s2 :
  substring (S (String.length s1))
            (String.length (s1 +:+ String c s2) - S (String.length s1))
            (s1 +:+ String c s2) = s2.
Proof.
  induction s1 as [|d s1 IH].
  - simpl. rewrite Nat.sub_0_r. apply substring_all.
  - rewrite append_cons. simpl String.length.
    change (substring (S (S (String.length s1))) ?m (String d ?s))
      with (substring (S (String.length s1)) m s).
    exact IH.
Qed.

Lemma split_none s e : includes s e = false -> split s e = [s].
Proof.
  induction s as [|c s IH]; [done|]. simpl. intros H.
  apply orb_false_iff in H as [Hc Hs]. by rewrite Hc, (IH Hs).
Qed.

Lemma split_append s1 s2 e :
  includes s1 e = false ->
  split (s1 +:+ String e s2) e = s1 :: split s2 e.
Proof.
  intros H. induction s1 as [|c s1 IH].
  - simpl. by rewrite Ascii.eqb_refl.
  - rewrite append_cons. simpl in *.
    apply orb_false_iff in H as [Hc Hs]. by rewrite Hc, (IH Hs).
Qed.


Lemma pretty_plain z (e : ascii) :
  0 <= z ->
  ((nat_of_ascii e < 48)%nat \/ (57 < nat_of_ascii e)%nat) ->
  includes (pretty z) e = false.
Proof.
  intros Hz He.
  destruct (pretty_nonneg_digits z Hz) as (_ & _ & _ & _ & _ & Hall & _).
  by apply includes_digits.
Qed.

(** The parts of a reference [book chapterVerse], whatever the book. *)
Lemma splitRef_parts book chapterVerse :
  includes chapterVerse " " = false ->
  lastIndexOf (book +:+ " " +:+ chapterVerse) " " = Some (String.length book) /\
  substring 0 (String.length book) (book +:+ " " +:+ chapterVerse) = book /\
  substring (S (String.length book))
            (String.length (book +:+ " " +:+ chapterVerse)
             - S (String.length book))
            (book +:+ " " +:+ chapterVerse) = chapterVerse.
Proof.
  intros H. change (" " +:+ chapterVerse) with (String " " chapterVerse).
  split; [by apply lastIndexOf_append|].
  split; [apply substring_prefix|apply substring_suffix].
Qed.

Lemma splitRef_chapter_verse book c v :
  0 <= c -> 0 <= v ->
  splitRef (book +:+ " " +:+ pretty c +:+ ":" +:+ pretty v)
  = Ok (book, Some (Int c), VerseNumber (Int v)).
Proof.
  intros Hc Hv. unfold splitRef.
  assert (Hsp : includes (pretty c +:+ ":" +:+ pretty v) " " = false).
  { change (":" +:+ pretty v) with (String ":" (pretty v)).
    rewrite includes_append. simpl.
    rewrite !pretty_plain by (done || (vm_compute; lia)). done. }
  destruct (splitRef_parts book _ Hsp) as (-> & -> & ->).
  change (":" +:+ pretty v) with (String ":" (pretty v)).
  rewrite includes_append. simpl includes. rewrite orb_true_r.
  cbn [negb].
  rewrite split_append by (apply pretty_plain; [done|vm_compute; lia]).
  rewrite split_none by (apply pretty_plain; [done|vm_compute; lia]).
  rewrite (pretty_plain v "-") by (done || (vm_compute; lia)).
  by rewrite !parseInt_pretty.
Qed.

Lemma splitRef2_verse book c v :
  0 <= c -> 0 <= v ->
  splitRef2 (book +:+ " " +:+ pretty c +:+ ":" +:+ pretty v)
  = Ok (book, Some (Int c), Some (Int v), Some (Int v)).
Proof.
  intros Hc Hv. unfold splitRef2. by rewrite splitRef_chapter_verse.
Qed.

Lemma splitRef2_range book c v1 v2 :
  0 <= c -> 0 <= v1 -> 0 <= v2 ->
  splitRef2 (book +:+ " " +:+ pretty c +:+ ":" +:+ pretty v1
             +:+ "-" +:+ pretty v2)
  = Ok (book, Some (Int c), Some (Int v1), Some (Int v2)).
Proof.
  intros Hc Hv1 Hv2. unfold splitRef2, splitRef.
  assert (Hrange : includes (pretty v1 +:+ "-" +:+ pretty v2) "-" = true).
  { change ("-" +:+ pretty v2) with (String "-" (pretty v2)).
    rewrite includes_append. simpl. by rewrite orb_true_r. }
  assert (Hplain : forall e : ascii,
             ((nat_of_ascii e < 45)%nat \/ (57 < nat_of_ascii e)%nat) ->
             includes (pretty v1 +:+ "-" +:+ pretty v2) e = false).
  { intros e He. change ("-" +:+ pretty v2) with (String "-" (pretty v2)).
    rewrite includes_append. cbn [includes].
    rewrite !pretty_plain by (done || lia).
    rewrite orb_false_r. cbn [orb]. apply Ascii.eqb_neq. intros <-.
    vm_compute in He. lia. }
  assert (Hsp : includes (pretty c +:+ ":" +:+ pretty v1
                          +:+ "-" +:+ pretty v2) " " = false).
  { change (":" +:+ ?x) with (String ":" x).
    rewrite includes_append. simpl.
    rewrite Hplain by (vm_compute; lia).
    rewrite pretty_plain by (done || (vm_compute; lia)). done. }
  destruct (splitRef_parts book _ Hsp) as (-> & -> & ->).
  change (":" +:+ ?x) with (String ":" x).
  rewrite includes_append. simpl includes. rewrite orb_true_r.
  cbn [negb].
  rewrite split_append by (apply pretty_plain; [done|vm_compute; lia]).
  rewrite split_none by (apply Hplain; vm_compute; lia).
  rewrite Hrange. cbn [Js.bind]. rewrite Hrange.
  change ("-" +:+ pretty v2) with (String "-" (pretty v2)).
  rewrite split_append by (apply pretty_plain; [done|vm_compute; lia]).
  rewrite split_none by (apply pretty_plain; [done|vm_compute; lia]).
  simpl map. by rewrite !parseInt_pretty.
Qed.


(** [splitRef2] reads a reference back from its parts, whatever the
    book (it may hold spaces, colons and hyphens): [book c:v] is verse
    [v] of chapter [c], from [v] to [v], and [book c:v1-v2] is the
    verses from [v1] to [v2]. *)
Theorem splitRef2_reads book c v1 v2 :
  0 <= c <= MAX_SAFE_INTEGER ->
  0 <= v1 <= MAX_SAFE_INTEGER ->
  0 <= v2 <= MAX_SAFE_INTEGER ->
  splitRef2 (book +:+ " " +:+ pretty c +:+ ":" +:+ pretty v1)
  = Ok (book, Some (Int c), Some (Int v1), Some (Int v1)) /\
  splitRef2 (book +:+ " " +:+ pretty c +:+ ":" +:+ pretty v1
             +:+ "-" +:+ pretty v2)
  = Ok (book, Some (Int c), Some (Int v1), Some (Int v2)).
Proof.
  intros [Hc _] [Hv1 _] [Hv2 _].
  split; [by apply splitRef2_verse|by apply splitRef2_range].
Qed.

(** *** [normalizeRanges] *)

Lemma normalizeRanges_loop_app rk tk sk content1 content2 :
  forall normalized,
    normalizeRanges_loop rk tk sk (content1 ++ content2) normalized
    = try! n := normalizeRanges_loop rk tk sk content1 normalized in
      normalizeRanges_loop rk tk sk content2 n.
Proof.
  induction content1 as [|v content1 IH]; intros normalized; [done|].
  simpl. destruct (normalizeVerse rk tk sk normalized v); simpl; [apply IH|done].
Qed.

(** A verse that the loop keeps as it is. *)
Lemma normalizeVerse_keeps rk tk sk normalized verse t s :
  trimmedText verse tk = Ok t ->
  trimmedText verse sk = Ok s ->
  normalized = [] \/ (t <> rangeMarker /\ s <> rangeMarker) ->
  normalizeVerse rk tk sk normalized verse = Returns (normalized ++ [verse]).
Proof.
  intros Ht Hs Hcase. unfold normalizeVerse. rewrite Ht, Hs. simpl.
  destruct Hcase as [->|[Hnt Hns]]; [done|].
  destruct (last normalized); [|done].
  apply String.eqb_neq in Hnt, Hns. by rewrite Hnt, Hns.
Qed.

Lemma normalizeRanges_loop_keeps rk tk sk content :
  forall normalized,
    Forall (fun verse => exists t s,
                trimmedText verse tk = Ok t /\ trimmedText verse sk = Ok s /\
                t <> rangeMarker /\ s <> rangeMarker) content ->
    normalizeRanges_loop rk tk sk content normalized
    = Returns (normalized ++ content).
Proof.
  induction content as [|v content IH]; intros normalized Hall.
  - by rewrite app_nil_r.
  - apply Forall_cons in Hall as [(t & s & Ht & Hs & Hnt & Hns) Hall].
    simpl. rewrite (normalizeVerse_keeps rk tk sk normalized v t s) by auto.
    simpl. rewrite (IH _ Hall). by rewrite <- app_assoc.
Qed.

(** Without ranges the result is the input: when the source and the
    translation of every verse can be read as strings and no verse after
    the first is marked [<range>], [normalizeRanges] returns the verses
    as they are (a mark on the first verse has nothing to join). *)
Theorem normalizeRanges_without_ranges first rest rk tk sk :
  (exists t s, trimmedText first tk = Ok t /\ trimmedText first sk = Ok s) ->
  Forall (fun verse => exists t s,
              trimmedText verse tk = Ok t /\ trimmedText verse sk = Ok s /\
              t <> rangeMarker /\ s <> rangeMarker) rest ->
  normalizeRanges (first :: rest) rk tk sk = Returns (first :: rest).
Proof.
  intros (t & s & Ht & Hs) Hrest. unfold normalizeRanges. simpl.
  rewrite (normalizeVerse_keeps rk tk sk [] first t s) by auto.
  simpl. by rewrite normalizeRanges_loop_keeps.
Qed.

Lemma length_removelast_snoc {A} (l : list A) x :
  l <> [] -> length (removelast l ++ [x]) = length l.
Proof.
  intros Hl. destruct (exists_last Hl) as (l' & y & ->).
  rewrite removelast_last. by rewrite !length_app.
Qed.

Lemma normalizeVerse_length rk tk sk normalized verse out :
  normalizeVerse rk tk sk normalized verse = Returns out ->
  length out = S (length normalized) \/
  (normalized <> [] /\ length out = length normalized).
Proof.
  unfold normalizeVerse.
  destruct (run (trimmedText verse tk)) as [t|]; simpl; [|done].
  destruct (run (trimmedText verse sk)) as [s|]; simpl; [|done].
  destruct (last normalized) as [lastVerse|] eqn:Hlast.
  2:{ intros [= <-]. left. rewrite length_app. simpl. lia. }
  destruct (_ || _).
  2:{ intros [= <-]. left. rewrite length_app. simpl. lia. }
  intros H. right.
  assert (Hne : normalized <> []) by (by intros ->).
  split; [done|].
  repeat match type of H with
         | attempt_bind ?m _ = _ => destruct m; simpl in H; [|done]
         | (let '(_, _) := ?p in _) = _ => destruct p
         | (if ?b then _ else _) = _ => destruct b; [try done|try done]
         | Returns _ = Returns _ => injection H as <-
         end;
    by apply length_removelast_snoc.
Qed.


(** [normalizeRanges] only joins verses: the result is never longer
    than the input, and it is empty for the empty input only. *)
Theorem normalizeRanges_length content rk tk sk out :
  normalizeRanges content rk tk sk = Returns out ->
  (length out <= length content)%nat /\ (content <> [] -> out <> []).
Proof.
  unfold normalizeRanges.
  assert (Hloop : forall content normalized out,
             normalizeRanges_loop rk tk sk content normalized = Returns out ->
             (length normalized <= length out
              <= length normalized + length content)%nat /\
             (content <> [] -> out <> [])).
  { clear. induction content as [|v content IH]; intros normalized out.
    - intros [= <-]. simpl. split; [lia|done].
    - simpl.
      destruct (normalizeVerse rk tk sk normalized v) as [n|] eqn:Hv;
        simpl; [|done].
      intros Hrest. apply IH in Hrest as [Hlen _].
      apply normalizeVerse_length in Hv.
      split; [destruct Hv as [Hv|[Hne Hv]]; lia|].
      intros _ ->.
      destruct Hv as [Hv|[Hne Hv]]; [simpl in Hlen; lia|].
      destruct normalized; [done|]. simpl in *. lia. }
  intros H. apply Hloop in H as [Hlen Hne]. simpl in Hlen. split; [lia|done].
Qed.

(** *** What [setKey] and [lookUpKey] do on a verse *)

Lemma put_put props k x y : put (put props k x) k y = put props k y.
Proof.
  induction props as [|[k0 v0] p IH]; simpl.
  - by rewrite String.eqb_refl.
  - destruct (String.eqb k0 k) eqn:He; simpl; rewrite He; [done|].
    by rewrite IH.
Qed.

Lemma inherited_proto k : inherited k = false -> String.eqb k "__proto__" = false.
Proof.
  intros H. apply String.eqb_neq. intros ->. by vm_compute in H.
Qed.

Lemma setKey_loop_fresh ks :
  forall props k x,
    own props k = None ->
    Forall (fun k => inherited k = false) (k :: ks) ->
    exists props', setKey_loop (VObj props) (k :: ks) x = Ok (VObj props').
Proof.
  induction ks as [|k2 ks IH]; intros props k x Hown Hplain.
  - apply Forall_cons in Hplain as [Hk _]. simpl.
    rewrite (inherited_proto k Hk). simpl. eauto.
  - apply Forall_cons in Hplain as [Hk Hplain].
    rewrite setKey_loop_step. simpl has_property. rewrite Hown, Hk.
    cbn [bool_decide orb Js.bind].
    replace (bool_decide (is_Some (@None value))) with false
      by (symmetry; apply bool_decide_eq_false; by intros [? ?]).
    cbn [orb Js.bind]. cbn [assign]. rewrite Hown, (inherited_proto k Hk).
    cbn [andb Js.bind get prop_name]. rewrite own_put_eq. cbn [Js.bind].
    destruct (IH [] k2 x eq_refl Hplain) as (child & ->). cbn [Js.bind].
    cbn [assign]. rewrite (inherited_proto k Hk). cbn [andb]. eauto.
Qed.










(** Ranges across books and across chapters are refused: when a verse
    marked [<range>] follows a verse of another book, or of another
    chapter of the same book, [normalizeRanges] throws the error that
    says so. *)
Theorem normalizeRanges_across content init lastVerse thisVerse rk tk sk
        book1 c1 v1 book2 c2 v2 thisTranslation thisSource :
  normalizeRanges content rk tk sk = Returns (init ++ [lastVerse]) ->
  0 <= c1 <= MAX_SAFE_INTEGER -> 0 <= v1 <= MAX_SAFE_INTEGER ->
  0 <= c2 <= MAX_SAFE_INTEGER -> 0 <= v2 <= MAX_SAFE_INTEGER ->
  lookUp lastVerse rk
    = Ok (VStr (book1 +:+ " " +:+ pretty c1 +:+ ":" +:+ pretty v1)) ->
  lookUp thisVerse rk
    = Ok (VStr (book2 +:+ " " +:+ pretty c2 +:+ ":" +:+ pretty v2)) ->
  trimmedText thisVerse tk = Ok thisTranslation ->
  trimmedText thisVerse sk = Ok thisSource ->
  thisTranslation = rangeMarker \/ thisSource = rangeMarker ->
  book1 <> book2 \/ c1 <> c2 ->
  normalizeRanges (content ++ [thisVerse]) rk tk sk
  = Throws (Error (if decide (book1 = book2)
                   then "Ranges across chapters not supported."
                   else "Ranges across books not supported.")).
Proof.
  intros Hcontent [Hc1 _] [Hv1 _] [Hc2 _] [Hv2 _] Hlast Hthis Ht Hs Hmark Hdiff.
  unfold normalizeRanges in *. rewrite normalizeRanges_loop_app, Hcontent.
  simpl. unfold normalizeVerse. rewrite Ht, Hs. simpl.
  rewrite last_snoc.
  assert (Hm : String.eqb thisTranslation rangeMarker
               || String.eqb thisSource rangeMarker = true).
  { destruct Hmark as [->| ->]; rewrite String.eqb_refl;
      [done|apply orb_true_r]. }
  rewrite Hm, Hlast, Hthis. simpl.
  rewrite !splitRef2_verse by done. simpl.
  destruct (decide (book1 = book2)) as [->|Hbook].
  - rewrite String.eqb_refl. simpl.
    destruct Hdiff as [|Hc]; [done|].
    by rewrite (proj2 (Z.eqb_neq c1 c2) Hc).
  - by rewrite (proj2 (String.eqb_neq book1 book2) Hbook).
Qed.

End VerseReferences.

(** ** Overridden references *)

Section OverriddenReferences.
Import reflectionUtils gradeReflectLoop reflectionWorker verseReferences.

Variables referenceKey overrideKey : list string.
Implicit Types marks : list (string * bool).

Lemma assign_plain props k x :
  inherited k = false -> assign (VObj props) k x = Ok (VObj (put props k x)).
Proof. intros Hk. simpl. by rewrite (inherited_proto k Hk). Qed.

Lemma collectOverrides_links translation marks :
  Forall2 (overrideMark referenceKey overrideKey) translation marks ->
  Forall (fun m => plainName m.1) marks ->
  forall lastReference acc,
    from_option plainName True lastReference ->
    collectOverrides referenceKey overrideKey translation
                     (from_option VStr VNull lastReference) acc
    = Ok (links marks lastReference acc).
Proof.
  induction 1 as [|verse [r f] translation marks [Hr (x & Hx & Hf)] _ IH];
    intros Hplain lastReference acc Hlast; [done|].
  apply Forall_cons in Hplain as [[Hne Hinh] Hplain]. simpl in *.
  rewrite Hr. cbn [Js.bind].
  destruct lastReference as [l|]; simpl.
  - destruct Hlast as [Hlne Hlinh].
    assert (negb (String.eqb l "") = true) as ->.
    { apply negb_true_iff. by apply String.eqb_neq. }
    rewrite Hx. cbn [Js.bind]. rewrite Hf.
    destruct f.
    + cbn [Js.bind propertyKey templateText].
      rewrite (inherited_proto l Hlinh). cbn [andb Js.bind].
      by apply (IH Hplain (Some r)).
    + cbn [Js.bind]. by apply (IH Hplain (Some r)).
  - by apply (IH Hplain (Some r)).
Qed.

Lemma own_link acc lastReference (f : bool) p k :
  (forall l, lastReference = Some l -> l <> k) ->
  own (match lastReference with
       | Some l => if f then put acc l (VStr p) else acc
       | None => acc
       end) k = own acc k.
Proof.
  intros H. destruct lastReference as [l|]; [|done]. destruct f; [|done].
  apply own_put_ne. intros Hkl. by apply (H l).
Qed.

Lemma links_outside marks :
  forall lastReference acc k,
    (forall l, lastReference = Some l -> l <> k) ->
    k ∉ marks.*1 ->
    own (links marks lastReference acc) k = own acc k.
Proof.
  induction marks as [|[r f] marks IH]; intros lastReference acc k Hl Hk;
    [done|].
  simpl. rewrite fmap_cons in Hk. apply not_elem_of_cons in Hk as [Hr Hk].
  rewrite IH; [by apply own_link| |done].
  intros l [= <-]. done.
Qed.

Lemma links_last marks acc k :
  k ∉ marks.*1 ->
  own (links marks (Some k) acc) k
  = match marks with
    | (r, true) :: _ => Some (VStr r)
    | _ => own acc k
    end.
Proof.
  intros Hk. destruct marks as [|[r f] marks]; [done|].
  simpl. rewrite fmap_cons in Hk. apply not_elem_of_cons in Hk as [Hr Hk].
  rewrite links_outside; [|by intros l [= <-]|done].
  destruct f; [apply own_put_eq|done].
Qed.

Lemma links_own before marks k fk :
  forall lastReference acc,
    NoDup (option_list lastReference ++ (before ++ (k, fk) :: marks).*1) ->
    own (links (before ++ (k, fk) :: marks) lastReference acc) k
    = match marks with
      | (r, true) :: _ => Some (VStr r)
      | _ => own acc k
      end.
Proof.
  induction before as [|[p fp] before IH]; intros lastReference acc Hnd.
  - simpl in *. rewrite links_last.
    + rewrite own_link; [done|]. intros l ->. simpl in Hnd.
      apply NoDup_cons in Hnd as [Hl _]. intros ->. apply Hl. left.
    + apply NoDup_app in Hnd as (_ & _ & Hnd).
      by apply NoDup_cons in Hnd as [Hk _].
  - simpl in *. rewrite (IH (Some p)).
    + rewrite own_link; [done|]. intros l ->. simpl in Hnd.
      apply NoDup_cons in Hnd as [Hl _]. intros ->. apply Hl.
      right. rewrite fmap_app, fmap_cons. apply elem_of_app. right. left.
    + apply NoDup_app in Hnd as (_ & _ & Hnd). done.
Qed.

Lemma links_lookup marks i k fk :
  NoDup marks.*1 ->
  marks !! i = Some (k, fk) ->
  own (links marks None []) k
  = match marks !! S i with
    | Some (r, true) => Some (VStr r)
    | _ => None
    end.
Proof.
  intros Hnd Hi.
  rewrite <- (take_drop_middle marks i (k, fk) Hi) at 1.
  rewrite links_own by (simpl; by rewrite take_drop_middle).
  replace (marks !! S i) with (drop (S i) marks !! 0%nat)
    by (rewrite lookup_drop; f_equal; lia).
  by destruct (drop (S i) marks) as [|[r []] rest].
Qed.

Lemma links_absent marks k :
  k ∉ marks.*1 -> own (links marks None []) k = None.
Proof. intros Hk. by rewrite links_outside. Qed.

Lemma marks_plain marks i r f :
  Forall (fun m => plainName m.1) marks ->
  marks !! i = Some (r, f) -> plainName r.
Proof. intros Hall Hi. by apply (Forall_lookup_1 _ _ _ _ Hall Hi). Qed.

Lemma followOverrides_run marks :
  NoDup marks.*1 ->
  Forall (fun m => plainName m.1) marks ->
  forall n i r f e fe fuel,
    marks !! i = Some (r, f) ->
    marks !! (i + n)%nat = Some (e, fe) ->
    overrideRun marks i (i + n) ->
    (n <= fuel)%nat ->
    followOverrides fuel (links marks None []) (VStr r) = Ok (Some (VStr e)).
Proof.
  intros Hnd Hplain.
  induction n as [|n IH]; intros i r f e fe fuel Hi Hj (_ & Hrun & Hend) Hfuel.
  - rewrite Nat.add_0_r in *. rewrite Hi in Hj. injection Hj as <- <-.
    destruct (marks_plain _ _ _ _ Hplain Hi) as [_ Hinh].
    assert (Hown : own (links marks None []) r = None).
    { rewrite (links_lookup marks i r f Hnd Hi).
      destruct (marks !! S i) as [[r' []]|] eqn:Hn; try done.
      by destruct (Hend r'). }
    destruct fuel; simpl; by rewrite Hown, Hinh.
  - destruct (Hrun (S i) ltac:(lia)) as (r' & Hnext).
    destruct (marks_plain _ _ _ _ Hplain Hi) as [_ Hinh].
    assert (Hown : own (links marks None []) r = Some (VStr r')).
    { by rewrite (links_lookup marks i r f Hnd Hi), Hnext. }
    destruct fuel as [|fuel]; [lia|].
    simpl. rewrite Hown. simpl.
    apply (IH (S i) r' true e fe); [done| | |lia].
    + by replace (S i + n)%nat with (i + S n)%nat by lia.
    + replace (S i + n)%nat with (i + S n)%nat by lia.
      split; [lia|]. split; [|done]. intros k Hk. apply Hrun. lia.
Qed.

Lemma overrideRun_exists marks :
  forall m i, (length marks <= i + m)%nat -> (i < length marks)%nat ->
              exists n, (i + n < length marks)%nat /\ overrideRun marks i (i + n).
Proof.
  induction m as [|m IH]; intros i Hm Hi; [lia|].
  destruct (marks !! S i) as [[r []]|] eqn:Hn.
  - assert (S i < length marks)%nat by (by apply lookup_lt_Some in Hn).
    destruct (IH (S i) ltac:(lia) ltac:(lia)) as (n & Hlt & _ & Hrun & Hend).
    exists (S n). replace (i + S n)%nat with (S i + n)%nat by lia.
    split; [done|]. split; [lia|]. split; [|done].
    intros k Hk. destruct (decide (k = S i)) as [->|]; [eauto|].
    apply Hrun. lia.
  - exists 0%nat. rewrite Nat.add_0_r. split; [done|]. split; [lia|].
    split; [intros; lia|]. intros r'. rewrite Hn. congruence.
  - exists 0%nat. rewrite Nat.add_0_r. split; [done|]. split; [lia|].
    split; [intros; lia|]. intros r'. by rewrite Hn.
Qed.

Lemma own_None props k : own props k = None <-> k ∉ props.*1.
Proof.
  induction props as [|[k0 v0] props IH]; simpl.
  - split; [intros _; apply not_elem_of_nil|done].
  - rewrite not_elem_of_cons. destruct (String.eqb k0 k) eqn:He.
    + apply String.eqb_eq in He as ->. split; [done|]. by intros [? _].
    + apply String.eqb_neq in He. rewrite IH. split; [|by intros [_ ?]].
      intros H. split; [congruence|done].
Qed.

Lemma own_elem_of props k v :
  NoDup props.*1 -> (k, v) ∈ props -> own props k = Some v.
Proof.
  induction props as [|[k0 v0] props IH]; intros Hnd Hin.
  - by apply elem_of_nil in Hin.
  - rewrite fmap_cons in Hnd. apply NoDup_cons in Hnd as [Hk0 Hnd].
    apply elem_of_cons in Hin as [[= <- <-]|Hin]; simpl.
    + by rewrite String.eqb_refl.
    + destruct (String.eqb k0 k) eqn:He; [|by apply IH].
      apply String.eqb_eq in He as ->. destruct Hk0.
      apply list_elem_of_fmap. by exists (k, v).
Qed.

Lemma put_keys props k x :
  NoDup props.*1 -> NoDup (put props k x).*1.
Proof.
  induction props as [|[k0 v0] props IH]; intros Hnd; simpl.
  - apply NoDup_singleton.
  - rewrite fmap_cons in Hnd. apply NoDup_cons in Hnd as [Hk0 Hnd].
    destruct (String.eqb k0 k) eqn:He.
    + rewrite fmap_cons. by apply NoDup_cons.
    + rewrite fmap_cons. apply NoDup_cons. split; [|by apply IH].
      simpl. apply own_None. rewrite own_put_ne.
      * by apply own_None.
      * by apply String.eqb_neq in He.
Qed.

Lemma links_keys marks :
  forall lastReference acc,
    NoDup acc.*1 -> NoDup (links marks lastReference acc).*1.
Proof.
  induction marks as [|[r f] marks IH]; intros lastReference acc Hnd; [done|].
  simpl. apply IH. destruct lastReference; [|done]. destruct f; [|done].
  by apply put_keys.
Qed.

Lemma updateOverrides_own fuel O entries :
  forall acc,
    NoDup entries.*1 ->
    (forall k v, (k, v) ∈ entries ->
                 inherited k = false /\
                 exists e, followOverrides fuel O v = Ok (Some e)) ->
    exists updated,
      updateOverrides fuel O entries acc = Ok (Some updated) /\
      (forall k, k ∉ entries.*1 -> own updated k = own acc k) /\
      (forall k v e, (k, v) ∈ entries ->
                     followOverrides fuel O v = Ok (Some e) ->
                     own updated k = Some e).
Proof.
  induction entries as [|[key value] entries IH]; intros acc Hnd Hall.
  - exists acc. split; [done|]. split; [done|].
    intros k v e Hin. by apply elem_of_nil in Hin.
  - rewrite fmap_cons in Hnd. apply NoDup_cons in Hnd as [Hkey Hnd].
    destruct (Hall key value ltac:(left)) as [Hinh (e0 & He0)].
    destruct (IH (put acc key e0) Hnd) as (updated & Hu & Hout & Hin).
    { intros k v Hkv. apply Hall. by right. }
    exists updated. split; [|split].
    + simpl. rewrite He0. cbn [Js.bind].
      rewrite (inherited_proto key Hinh). cbn [andb Js.bind]. done.
    + intros k Hk. rewrite fmap_cons in Hk.
      apply not_elem_of_cons in Hk as [Hne Hk].
      rewrite (Hout k Hk). by apply own_put_ne.
    + intros k v e Hkv He.
      apply elem_of_cons in Hkv as [[= -> ->]|Hkv]; [|by apply (Hin k v)].
      rewrite (Hout key Hkey), own_put_eq. congruence.
Qed.

(** The entries of the table: a verse whose successor is marked. *)
Lemma links_entry marks k v :
  NoDup marks.*1 ->
  own (links marks None []) k = Some v ->
  exists i fk r, marks !! i = Some (k, fk) /\
                 marks !! S i = Some (r, true) /\ v = VStr r.
Proof.
  intros Hnd Hown.
  destruct (decide (k ∈ marks.*1)) as [Hin|Hout].
  - apply list_elem_of_fmap in Hin as ([k' fk] & -> & Hin). simpl in *.
    apply list_elem_of_lookup in Hin as (i & Hi).
    rewrite (links_lookup marks i k' fk Hnd Hi) in Hown.
    destruct (marks !! S i) as [[r []]|] eqn:Hn; try done.
    injection Hown as <-. by exists i, fk, r.
  - by rewrite links_absent in Hown.
Qed.

(** For verses with distinct references, [getOverriddenReferences]
    answers, with fuel for as many rounds as there are verses: a verse
    followed by a run of overriding verses is overridden by the last
    verse of the run, also when the run is longer than one verse, and a
    verse that no override follows is not in the table. *)
Theorem getOverriddenReferences_ranges fuel translation marks :
  Forall2 (overrideMark referenceKey overrideKey) translation marks ->
  Forall (fun m => plainName m.1) marks ->
  NoDup marks.*1 ->
  (length translation <= fuel)%nat ->
  exists updated,
    getOverriddenReferences fuel translation referenceKey (Some overrideKey)
      = Ok (Some updated) /\
    forall i r f,
      marks !! i = Some (r, f) ->
      ((forall r', marks !! S i <> Some (r', true)) -> own updated r = None) /\
      (forall j e fe,
          (i < j)%nat -> overrideRun marks i j -> marks !! j = Some (e, fe) ->
          own updated r = Some (VStr e)).
Proof.
  intros Hmarks Hplain Hnd Hfuel.
  pose proof (Forall2_length _ _ _ Hmarks) as Hlen.
  unfold getOverriddenReferences.
  pose proof (collectOverrides_links translation marks Hmarks Hplain None [] I)
    as Hcollect.
  simpl in Hcollect. rewrite Hcollect.
  cbn [Js.bind]. set (O := links marks None []).
  assert (HO : NoDup O.*1) by (apply links_keys, NoDup_nil_2).
  assert (Hfollow : forall i r f,
             marks !! i = Some (r, f) ->
             forall j e fe, (i <= j)%nat -> overrideRun marks i j ->
                            marks !! j = Some (e, fe) ->
                            followOverrides fuel O (VStr r) = Ok (Some (VStr e))).
  { intros i r f Hi j e fe Hij Hrun Hj.
    apply (followOverrides_run marks Hnd Hplain (j - i) i r f e fe);
      replace (i + (j - i))%nat with j by lia; try done.
    apply lookup_lt_Some in Hj. lia. }
  destruct (updateOverrides_own fuel O O [] HO) as (updated & Hu & Hout & Hin).
  { intros k v Hkv. apply (own_elem_of _ _ _ HO) in Hkv.
    apply (links_entry marks k v Hnd) in Hkv as (i & fk & r & Hi & Hn & ->).
    split; [by destruct (marks_plain _ _ _ _ Hplain Hi)|].
    destruct (overrideRun_exists marks (length marks) (S i) ltac:(lia))
      as (n & Hlt & Hrun).
    { by apply lookup_lt_Some in Hn. }
    destruct (lookup_lt_is_Some_2 marks (S i + n)%nat Hlt) as [[e fe] He].
    exists (VStr e). apply (Hfollow (S i) r true Hn (S i + n)%nat e fe); [lia|done..]. }
  exists updated. split; [done|]. intros i r f Hi. split.
  - intros Hnext. rewrite Hout; [done|]. apply own_None. unfold O.
    rewrite (links_lookup marks i r f Hnd Hi).
    destruct (marks !! S i) as [[r' []]|] eqn:Hn; try done.
    by destruct (Hnext r').
  - intros j e fe Hij Hrun Hj.
    destruct Hrun as (_ & Hrun & Hend).
    destruct (Hrun (S i) ltac:(lia)) as (r1 & Hn).
    apply (Hin r (VStr r1)).
    + apply list_elem_of_lookup.
      assert (Hown : own O r = Some (VStr r1)).
      { unfold O. by rewrite (links_lookup marks i r f Hnd Hi), Hn. }
      clear -Hown. induction O as [|[k0 v0] O IH]; [done|]. simpl in Hown.
      destruct (String.eqb k0 r) eqn:He.
      * apply String.eqb_eq in He as ->. injection Hown as ->. by exists 0%nat.
      * destruct (IH Hown) as (n & Hn). by exists (S n).
    + apply (Hfollow (S i) r1 true Hn j e fe); [lia| |done].
      split; [lia|]. split; [|done]. intros k Hk. apply Hrun. lia.
Qed.

Lemma followOverrides_cycle a b fuel :
  a <> b ->
  forall x, x = a \/ x = b ->
    followOverrides fuel [(a, VStr b); (b, VStr a)] (VStr x) = Ok None.
Proof.
  intros Hab. apply String.eqb_neq in Hab as Hne.
  induction fuel as [|fuel IH]; intros x Hx.
  - destruct Hx as [->| ->]; simpl.
    + by rewrite String.eqb_refl.
    + by rewrite Hne, String.eqb_refl.
  - destruct Hx as [->| ->]; cbn [followOverrides propertyKey templateText
      Js.bind has_property get prop_name own].
    + rewrite String.eqb_refl.
      replace (bool_decide (is_Some (Some (VStr b)))) with true by done.
      cbn [orb Js.bind]. apply IH. by right.
    + rewrite Hne, String.eqb_refl.
      replace (bool_decide (is_Some (Some (VStr a)))) with true by done.
      cbn [orb Js.bind]. apply IH. by left.
Qed.

(** A reference that comes back can keep the second loop running for
    ever: for three verses with the references [a], [b] and [a] again,
    the last two overriding, each of the two references is overridden by
    the other, and the [while] loop has not ended after any number of
    rounds. *)
Theorem getOverriddenReferences_cycle fuel translation a b fa :
  Forall2 (overrideMark referenceKey overrideKey) translation
          [(a, fa); (b, true); (a, true)] ->
  plainName a -> plainName b -> a <> b ->
  getOverriddenReferences fuel translation referenceKey (Some overrideKey)
  = Ok None.
Proof.
  intros Hmarks Ha Hb Hab. unfold getOverriddenReferences.
  assert (Hplain : Forall (fun m : string * bool => plainName m.1)
                          [(a, fa); (b, true); (a, true)]).
  { constructor; [exact Ha|]. constructor; [exact Hb|].
    constructor; [exact Ha|constructor]. }
  pose proof (collectOverrides_links translation _ Hmarks Hplain None [] I)
    as Hcollect.
  simpl in Hcollect. rewrite Hcollect. cbn [Js.bind].
  assert (Hne : String.eqb a b = false) by (by apply String.eqb_neq).
  rewrite Hne. cbn [updateOverrides].
  rewrite (followOverrides_cycle a b fuel Hab b) by (by right).
  done.
Qed.

End OverriddenReferences.

(** ** The search for the lowest grade *)

Section SelectLowest.
Import reflectionUtils gradeReflectLoop Selection.

Variable config : Config.
Variable overRiddenReferences : list (string * string).

#[local] Abbreviation candidateAt := (candidate config overRiddenReferences).

Lemma afterEndLine_later n m :
  afterEndLine config n = true -> (n <= m)%nat -> afterEndLine config m = true.
Proof.
  unfold afterEndLine. destruct (end_line config); [|done]. lia.
Qed.

Lemma Qlt_bool_true x y : Qlt_bool x y = true <-> (x < y)%Q.
Proof.
  unfold Qlt_bool. rewrite negb_true_iff. split.
  - intros H. apply Qnot_le_lt. intros Hle.
    apply Qle_bool_iff in Hle. congruence.
  - intros H. destruct (Qle_bool y x) eqn:He; [|done].
    apply Qle_bool_iff in He. by apply Qle_not_lt in He.
Qed.

Lemma Qlt_bool_false x y : Qlt_bool x y = false <-> (y <= x)%Q.
Proof.
  unfold Qlt_bool. rewrite negb_false_iff. apply Qle_bool_iff.
Qed.

(** The search, from any line on and with any lowest grade found so far:
    the answer is the one found so far or a candidate with a strictly
    lower grade, and no candidate has a lower grade than the answer, nor
    the same grade on an earlier line. *)
Lemma selectLowest_lowest_from rest :
  forall n lowest lowest' rest',
    selectLowest config overRiddenReferences n rest lowest = Ok (lowest', rest') ->
    (forall g0 l0, lowest = Some (g0, l0) -> (l0 < n)%nat) ->
    (lowest' = lowest \/
     exists g k verse,
       lowest' = Some (g, (n + k)%nat) /\ rest !! k = Some verse /\
       candidateAt (n + k)%nat verse g /\
       forall g0 l0, lowest = Some (g0, l0) -> (g < g0)%Q) /\
    (forall k verse g',
        rest !! k = Some verse -> candidateAt (n + k)%nat verse g' ->
        exists g l, lowest' = Some (g, l) /\ (g <= g')%Q /\
                    ((n + k < l)%nat -> (g < g')%Q)).
Proof.
  induction rest as [|verse rest IH]; intros n lowest lowest' rest'; simpl.
  - intros [= <- <-] _. split; [by left|]. intros k v g' Hk. done.
  - intros Hrun Hbefore.
    (* the verse is passed over *)
    assert (Hskip :
      (forall g, ~ candidateAt n verse g) ->
      (let! r := selectLowest config overRiddenReferences (S n) rest lowest in
       Ok (r.1, verse :: r.2)) = Ok (lowest', rest') ->
      (lowest' = lowest \/
       exists g k verse0,
         lowest' = Some (g, (n + k)%nat) /\ (verse :: rest) !! k = Some verse0 /\
         candidateAt (n + k)%nat verse0 g /\
         forall g0 l0, lowest = Some (g0, l0) -> (g < g0)%Q) /\
      (forall k verse0 g',
          (verse :: rest) !! k = Some verse0 ->
          candidateAt (n + k)%nat verse0 g' ->
          exists g l, lowest' = Some (g, l) /\ (g <= g')%Q /\
                      ((n + k < l)%nat -> (g < g')%Q))).
    { intros Hnot.
      destruct (selectLowest _ _ (S n) rest lowest) as [[l r]|] eqn:Hr;
        cbn [Js.bind fst snd]; [|done].
      intros [= <- <-].
      destruct (IH _ _ _ _ Hr) as [Hl Hall].
      { intros g0 l0 H0. specialize (Hbefore g0 l0 H0). lia. }
      split.
      - destruct Hl as [->|(g & k & v & -> & Hv & Hc & Hlt)]; [by left|].
        right. exists g, (S k), v.
        replace (n + S k)%nat with (S n + k)%nat by lia. done.
      - intros [|k] v g' Hk Hc.
        + simpl in Hk. injection Hk as <-. rewrite Nat.add_0_r in Hc.
          by destruct (Hnot g').
        + replace (n + S k)%nat with (S n + k)%nat in * by lia.
          by apply (Hall k v g'). }
    destruct (beforeStartLine config n) eqn:Hstart.
    { apply Hskip; [|done]. intros g [(H & _) _]. congruence. }
    destruct (afterEndLine config n) eqn:Hend.
    { injection Hrun as <- <-. split; [by left|].
      intros k v g' _ [(_ & H & _) _].
      rewrite (afterEndLine_later n (n + k)) in H by (done || lia). done. }
    destruct (is_true (ai_halted verse)) eqn:Hhalt.
    { apply Hskip; [|done]. intros g [(_ & _ & H & _) _]. congruence. }
    destruct (is_true (grade_only verse)) eqn:Honly.
    { apply Hskip; [|done]. intros g [(_ & _ & _ & H & _) _]. congruence. }
    destruct (lookUp verse (reference_key config)) as [vref|] eqn:Hvref;
      cbn [Js.bind] in Hrun; [|done].
    destruct (nullish vref) eqn:Hnull.
    { cbn [Js.bind negb] in Hrun. apply Hskip; [|done].
      intros g [(_ & _ & _ & _ & _ & x & Hx & Hn & _) _]. congruence. }
    destruct (inOverridden vref overRiddenReferences) as [o|] eqn:Ho;
      cbn [Js.bind] in Hrun; [|done].
    destruct (negb o && negb (verseIsFinalized verse)) eqn:Helig;
      cbn [negb] in Hrun.
    2:{ apply Hskip; [|done].
        intros g [(_ & _ & _ & _ & Hf & x & Hx & Hn & Hov) _].
        assert (x = vref) as -> by congruence.
        rewrite Ho in Hov. injection Hov as ->. by rewrite Hf in Helig. }
    apply andb_true_iff in Helig as [Hno Hnf].
    apply negb_true_iff in Hno, Hnf. subst o.
    assert (Hreflectable : reflectable config overRiddenReferences n verse).
    { repeat (split; [done|]). by exists vref. }
    destruct (computeVerseGrade verse config) as [[vg verse1]|] eqn:Hg;
      cbn [Js.bind fst snd] in Hrun; [|done].
    match type of Hrun with
    | context [selectLowest _ _ (S n) rest ?low] => set (low1 := low) in Hrun
    end.
    destruct (selectLowest _ _ (S n) rest low1) as [[l r]|] eqn:Hr;
      cbn [Js.bind fst snd] in Hrun; [|done].
    injection Hrun as <- <-.
    (* what the verse does to the lowest grade found *)
    assert (Hlow1 :
      (forall g0 l0, low1 = Some (g0, l0) -> (l0 < S n)%nat) /\
      (low1 = lowest \/
       exists g, vg = Some g /\ low1 = Some (g, n) /\
                 forall g0 l0, lowest = Some (g0, l0) -> (g < g0)%Q) /\
      (forall g', vg = Some g' ->
                  exists g l0, low1 = Some (g, l0) /\ (g <= g')%Q /\
                               (l0 <= n)%nat)).
    { subst low1. destruct vg as [g|].
      - destruct lowest as [[lg ll]|].
        + specialize (Hbefore lg ll eq_refl).
          destruct (Qlt_bool g lg) eqn:Hlt.
          * apply Qlt_bool_true in Hlt.
            split; [intros g0 l0 [= <- <-]; lia|]. split.
            -- right. exists g. split; [done|]. split; [done|].
               by intros g0 l0 [= <- <-].
            -- intros g' [= <-]. exists g, n. split; [done|].
               split; [apply Qle_refl|lia].
          * apply Qlt_bool_false in Hlt.
            split; [intros g0 l0 [= <- <-]; lia|]. split; [by left|].
            intros g' [= <-]. exists lg, ll. split; [done|]. split; [done|lia].
        + split; [intros g0 l0 [= <- <-]; lia|]. split.
          * right. exists g. by split; [|split].
          * intros g' [= <-]. exists g, n. split; [done|].
            split; [apply Qle_refl|lia].
      - split; [intros g0 l0 H0; specialize (Hbefore g0 l0 H0); lia|].
        split; [by left|done]. }
    destruct Hlow1 as (Hb1 & Hstep & Hthis).
    destruct (IH _ _ _ _ Hr Hb1) as [Hl Hall].
    split.
    + destruct Hl as [->|(g & k & v & -> & Hv & Hc & Hlt)].
      * destruct Hstep as [->|(g & -> & -> & Hlt)]; [by left|].
        right. exists g, 0%nat, verse. rewrite Nat.add_0_r.
        split; [done|]. split; [done|]. split; [|done].
        split; [done|]. by exists verse1.
      * right. exists g, (S k), v.
        replace (n + S k)%nat with (S n + k)%nat by lia.
        split; [done|]. split; [done|]. split; [done|].
        intros g0 l0 H0.
        destruct Hstep as [->|(g1 & -> & -> & Hlt1)]; [by apply (Hlt g0 l0)|].
        apply Qlt_trans with g1; [by apply (Hlt g1 n)|by apply (Hlt1 g0 l0)].
    + intros [|k] v g' Hk Hc.
      * simpl in Hk. injection Hk as <-. rewrite Nat.add_0_r in *.
        destruct Hc as [_ (v1 & Hc)]. rewrite Hg in Hc. injection Hc as -> _.
        destruct (Hthis g' eq_refl) as (g & l0 & Hlow & Hle & Hl0).
        destruct Hl as [->|(g2 & k2 & v2 & -> & Hv2 & Hc2 & Hlt2)].
        -- exists g, l0. split; [done|]. split; [done|lia].
        -- exists g2, (S n + k2)%nat. split; [done|].
           assert (g2 < g')%Q.
           { apply Qlt_le_trans with g; [by apply (Hlt2 g l0)|done]. }
           split; [by apply Qlt_le_weak|done].
      * replace (n + S k)%nat with (S n + k)%nat in * by lia.
        by apply (Hall k v g').
Qed.

(** The search for the lowest grade answers a verse that passes the
    tests and has a grade, no other such verse has a lower grade, and
    those before it have a higher one; it answers none only when there
    is no such verse. *)
Theorem selectLowest_lowest output lowest output' :
  selectLowest config overRiddenReferences 0 output None = Ok (lowest, output') ->
  match lowest with
  | Some (g, line) =>
      (exists verse,
          output !! line = Some verse /\
          candidate config overRiddenReferences line verse g) /\
      (forall line' verse' g',
          output !! line' = Some verse' ->
          candidate config overRiddenReferences line' verse' g' ->
          (g <= g')%Q /\ ((line' < line)%nat -> (g < g')%Q))
  | None =>
      forall line' verse' g',
        output !! line' = Some verse' ->
        ~ candidate config overRiddenReferences line' verse' g'
  end.
Proof.
  intros Hrun.
  destruct (selectLowest_lowest_from output 0 None lowest output' Hrun)
    as [Hfound Hall]; [done|].
  destruct lowest as [[g line]|].
  - split.
    + destruct Hfound as [|(g1 & k & v & [= -> ->] & Hv & Hc & _)]; [done|].
      by exists v.
    + intros line' verse' g' Hv Hc.
      destruct (Hall line' verse' g' Hv Hc) as (g1 & l & [= <- <-] & Hle & Hlt).
      done.
  - intros line' verse' g' Hv Hc.
    by destruct (Hall line' verse' g' Hv Hc) as (g1 & l & ? & _).
Qed.

End SelectLowest.

(** ** The steps of the sweep, one after the other *)

Section EngineSteps.
Import reflectionUtils gradeReflectLoop.

Lemma last_update_last (f : ReflectionLoop -> ReflectionLoop) loops :
  last (update_last f loops) = f <$> last loops.
Proof.
  destruct loops as [|l loops _] using rev_ind; [done|].
  by rewrite update_last_snoc, !last_snoc.
Qed.

Lemma length_update_last (f : ReflectionLoop -> ReflectionLoop) loops :
  length (update_last f loops) = length loops.
Proof. unfold update_last. apply length_alter. Qed.

(** An adaptation pass happens once: the pass that has adapted a verse
    records the translation it found in the newest round, marks the round
    and the verse, and a later pass leaves the verse alone. *)
Theorem runAdaptationPass_once r verse config verse' old :
  runAdaptationPass r verse config = Ok (true, verse') ->
  lookUp verse (translation_key config) = Ok old ->
  (exists lastLoop,
      (reflection_loops verse' ≫= last) = Some lastLoop /\
      graded_verse lastLoop = Some old /\
      is_adaptation lastLoop = Some true) /\
  adapted verse' = Some true /\
  forall r', runAdaptationPass r' verse' config = Ok (false, verse').
Proof.
  unfold runAdaptationPass.
  destruct (truthy_string (adaptation_prompt config)) eqn:Hp; [|done].
  cbn [negb]. destruct (truthy_flag (adapted verse)) eqn:Ha; [done|].
  unfold recordGradedVerse. intros Hrun Hold.
  set (loops := openLoop _ _) in Hrun.
  assert (Hlast : exists l, last loops = Some l /\
                            default emptyLoop (last loops) = l).
  { subst loops. unfold openLoop.
    destruct (default [] (reflection_loops verse)) as [|l0 ls] eqn:Hl.
    - simpl. eauto.
    - destruct (last (l0 :: ls)) as [l1|] eqn:H1.
      + destruct (truthy_prop (graded_verse l1)).
        * rewrite last_snoc. eauto.
        * rewrite H1. eauto.
      + by apply last_None in H1. }
  destruct Hlast as (l & Hl & Hd). rewrite Hd in Hrun.
  assert (Hrec : exists l1,
             (let! loop :=
                match translation_comment_key config with
                | Some ck => let! c := lookUp verse ck in
                             Ok (set_graded_verse_comment l (Some c))
                | None => Ok l
                end in
              let! text := lookUp verse (translation_key config) in
              Ok (set_graded_verse loop (Some text)))
             = Ok (set_graded_verse l1 (Some old))).
  { destruct (translation_comment_key config) as [ck|].
    - destruct (lookUp_returns verse ck) as [c ->]. cbn [Js.bind].
      rewrite Hold. cbn [Js.bind]. eauto.
    - cbn [Js.bind]. rewrite Hold. cbn [Js.bind]. eauto. }
  destruct Hrec as (l1 & Hrec). rewrite Hrec in Hrun. cbn [Js.bind] in Hrun.
  match type of Hrun with
  | context [set_reflection_loops verse (Some ?ls)] => set (loops' := ls) in Hrun
  end.
  assert (Hloops' : last loops' = Some (set_is_adaptation
                                           (set_graded_verse l1 (Some old))
                                           (Some true))).
  { subst loops'. by rewrite last_update_last, Hl. }
  destruct (setVerseKey (set_reflection_loops verse (Some loops')) _ _)
    as [v1|] eqn:H1; cbn [Js.bind] in Hrun; [|done].
  apply setVerseKey_frame in H1 as (p1 & ->).
  assert (Hv2 : exists p2,
             verse' = set_adapted
                        (clear_human_reviewed
                           (set_fields (set_reflection_loops verse (Some loops')) p2))
                        (Some true)).
  { destruct (translation_comment_key config) as [ck|].
    - destruct (setVerseKey _ ck _) as [v2|] eqn:H2; cbn [Js.bind] in Hrun;
        [|done].
      apply setVerseKey_frame in H2 as (p2 & ->). injection Hrun as <-.
      by exists p2.
    - cbn [Js.bind] in Hrun. injection Hrun as <-. by exists p1. }
  destruct Hv2 as (p2 & ->).
  split; [|split].
  - exists (set_is_adaptation (set_graded_verse l1 (Some old)) (Some true)).
    split; [|done]. unfold clear_human_reviewed. simpl.
    by destruct (truthy_flag (human_reviewed verse)).
  - done.
  - intros r'. cbn [negb].
    unfold clear_human_reviewed. simpl.
    by destruct (truthy_flag (human_reviewed verse)).
Qed.

(** The catch-up after a comment change happens once: on the verse that
    [skipReflection] has answered, the block does not act again. *)
Theorem skipReflection_once verse config verse' inserted :
  skipReflection verse config = Ok (Some (verse', inserted)) ->
  skipReflection verse' config = Ok None.
Proof.
  unfold skipReflection.
  destruct (last (default [] (reflection_loops verse))) as [l|] eqn:Hl; [|done].
  destruct (_ <=? _) eqn:Hle; [|done].
  destruct (negb _ || verseIsFinalized verse) eqn:Hc; [|done].
  set (inserted0 := bool_decide (is_Some (graded_verse l))) in *.
  intros Hrun.
  assert (Hl' : exists l',
             (if negb inserted0 then recordGradedVerse verse config l
              else Ok l) = Ok l' /\ is_Some (graded_verse l')).
  { destruct inserted0 eqn:Hi; simpl.
    - exists l. split; [done|]. by apply bool_decide_eq_true in Hi.
    - unfold recordGradedVerse in *.
      destruct (match translation_comment_key config with
                | Some _ => _ | None => _ end) as [l1|]; cbn [Js.bind] in *;
        [|done].
      destruct (lookUp verse (translation_key config)) as [t|];
        cbn [Js.bind] in *; [|done].
      eexists. split; [done|]. simpl. eauto. }
  destruct Hl' as (l' & Hrec & Hsome). rewrite Hrec in Hrun.
  cbn [Js.bind] in Hrun. injection Hrun as <- _.
  set (loops := default [] (reflection_loops verse)) in *.
  assert (Hloops : reflection_loops
                     (clear_finalized
                        (set_reflection_loops verse
                           (Some (update_last (fun _ => l') loops))))
                   = Some (update_last (fun _ => l') loops)).
  { unfold clear_finalized. by destruct (is_true _). }
  rewrite Hloops.
  change (default [] (Some (update_last (fun _ => l') loops)))
    with (update_last (fun _ => l') loops).
  rewrite last_update_last, Hl. cbn [fmap option_fmap option_map].
  rewrite length_update_last.
  assert (Hcount : comment_mod_loop_count
                     (clear_finalized
                        (set_reflection_loops verse
                           (Some (update_last (fun _ => l') loops))))
                   = comment_mod_loop_count verse).
  { unfold clear_finalized. by destruct (is_true _). }
  rewrite Hcount, Hle.
  rewrite (bool_decide_eq_true_2 _ Hsome). cbn [negb orb].
  assert (Hfin : verseIsFinalized
                   (clear_finalized
                      (set_reflection_loops verse
                         (Some (update_last (fun _ => l') loops)))) = false).
  { unfold clear_finalized, verseIsFinalized.
    destruct verse as [? ? [[]|] ? ? ? ? ? ? ?]; reflexivity. }
  by rewrite Hfin.
Qed.

Lemma openLoop_open closed loops l :
  closed l = false -> openLoop closed (loops ++ [l]) = loops ++ [l].
Proof.
  intros Hl. unfold openLoop.
  assert (Hsame : match loops ++ [l] with
                  | [] => [emptyLoop]
                  | _ :: _ => loops ++ [l]
                  end = loops ++ [l]) by (by destruct loops).
  by rewrite Hsame, last_snoc, Hl.
Qed.

Lemma appendGrades_count verse newGrades :
  comment_mod_loop_count (appendGrades verse newGrades)
  = comment_mod_loop_count verse.
Proof. unfold appendGrades, clear_finalized. by repeat case_match. Qed.

(** One request completes the round: after the grading step the verse
    has as many unanswered grades as a round takes. *)
Theorem sweep_completes_round adaptationInference gradingChoices config
        overRiddenReferences output out' line act verse :
  sweep adaptationInference gradingChoices config overRiddenReferences
        output 0 output = Ok (out', Some line, act) ->
  default true (grade_mode_enabled config) = true ->
  output !! line = Some verse ->
  (forall lastLoop, (reflection_loops verse ≫= last) = Some lastLoop ->
                    graded_verse lastLoop = None) ->
  exists verse',
    out' !! line = Some verse' /\
    computeNumberUnansweredGrades verse' config
    = grades_per_reflection_loop config.
Proof.
  intros Hsweep Hmode Hline Hopen.
  apply sweep_result in Hsweep as [_ Hsel]; [|done].
  destruct Hsel as (verse0 & out1 & newGrades & Hv & _ & Hshort & _ & Hout1
                    & Hgrades & _ & ->).
  assert (verse0 = verse) as -> by congruence.
  exists (appendGrades verse newGrades). split.
  { apply list_lookup_insert_eq. by eapply lookup_lt_Some. }
  assert (Hneeded : neededGrades verse config
                    = grades_per_reflection_loop config
                      - computeNumberUnansweredGrades verse config).
  { unfold neededGrades. by rewrite Hmode. }
  apply multiGradeVerse_length in Hgrades; [|lia].
  rewrite Hneeded in Hgrades.
  assert (Hcount : computeReflectionLoopsNeeded
                     (appendGrades verse newGrades) config
                   = computeReflectionLoopsNeeded verse config).
  { unfold computeReflectionLoopsNeeded. by rewrite appendGrades_count. }
  unfold computeNumberUnansweredGrades in *.
  rewrite appendGrades_loops, Hcount.
  destruct (reflection_loops verse) as [loops|] eqn:Hloops.
  - change (default [] (Some loops)) with loops.
    destruct loops as [|l loops _] using rev_ind.
    + simpl in *. lia.
    + rewrite last_snoc in Hshort, Hgrades.
      specialize (Hopen l). simpl in Hopen. rewrite last_snoc in Hopen.
      specialize (Hopen eq_refl).
      rewrite Hopen in Hshort, Hgrades. simpl in Hshort, Hgrades.
      rewrite openLoop_open
        by (rewrite Hopen; apply bool_decide_eq_false_2; by intros [? ?]).
      rewrite update_last_snoc, last_snoc. simpl. rewrite Hopen. simpl.
      destruct (grades l) as [gs|]; simpl in *; rewrite ?length_app; lia.
  - simpl in *. lia.
Qed.

End EngineSteps.

(** ** The steps of the ingestion *)

Section IngestionSteps.
Import reflectionUtils gradeReflectLoop reflectionWorker Operations.

Lemma getReferencedLine_line id content :
  exists n content' line,
    getReferencedLine id content true = Ok (Some n, content') /\
    content' !! n = Some line /\
    lookUpOrEmpty line REFERENCE_KEY = Ok (VStr id) /\
    (forall k line', (k < n)%nat -> content' !! k = Some line' ->
                     lookUpOrEmpty line' REFERENCE_KEY <> Ok (VStr id)) /\
    (content' = content \/
     (content' = content ++ [line] /\ n = length content /\
      line = set_fields emptyVerse [("vref"%string, VStr id)])).
Proof.
  unfold getReferencedLine.
  destruct (findReferencedLine_spec id content 0)
    as [(k & line & Hf & Hk & Hl & Hfirst)|[Hf Hnone]];
    simpl in Hf; rewrite Hf; cbn [Js.bind].
  - exists k, content, line. split; [done|]. split; [done|]. split; [done|].
    split; [done|by left].
  - change (setVerseKey emptyVerse REFERENCE_KEY (VStr id))
      with (Ok (set_fields emptyVerse [("vref"%string, VStr id)])).
    cbn [Js.bind].
    exists (length content), (content ++ [set_fields emptyVerse [("vref"%string, VStr id)]]),
      (set_fields emptyVerse [("vref"%string, VStr id)]).
    split; [done|].
    split; [by apply list_lookup_middle|]. split.
    + reflexivity.
    + split; [|by right].
      intros k line' Hlt Hk'. rewrite lookup_app_l in Hk' by done.
      by apply (Hnone k).
Qed.

(** [getReferencedLine] with [makeIfMissing]: the line it answers is the
    first with the reference; it is a line of the collection, which
    stays as it is, or, when no line has the reference, a new last line
    that holds the reference and nothing else. *)
Theorem getReferencedLine_makes id content :
  exists n content' line,
    getReferencedLine id content true = Ok (Some n, content') /\
    content' !! n = Some line /\
    lookUpOrEmpty line REFERENCE_KEY = Ok (VStr id) /\
    (forall k line', (k < n)%nat -> content' !! k = Some line' ->
                     lookUpOrEmpty line' REFERENCE_KEY <> Ok (VStr id)) /\
    (content' = content \/
     (content' = content ++ [line] /\ n = length content /\
      line = set_fields emptyVerse [("vref"%string, VStr id)])).
Proof. apply getReferencedLine_line. Qed.

Lemma findReferencedLine_same id rest rest' :
  Forall2 (fun v v' => lookUpOrEmpty v' REFERENCE_KEY
                       = lookUpOrEmpty v REFERENCE_KEY) rest rest' ->
  forall n, findReferencedLine id n rest' = findReferencedLine id n rest.
Proof.
  induction 1 as [|v v' rest rest' Hv _ IH]; intros n; [done|].
  simpl. rewrite Hv.
  destruct (lookUpOrEmpty v REFERENCE_KEY); cbn [Js.bind]; [|done].
  by rewrite IH.
Qed.

Lemma same_references_insert content n line line' :
  content !! n = Some line ->
  lookUpOrEmpty line' REFERENCE_KEY = lookUpOrEmpty line REFERENCE_KEY ->
  Forall2 (fun v v' => lookUpOrEmpty v' REFERENCE_KEY
                       = lookUpOrEmpty v REFERENCE_KEY)
          content (<[ n := line' ]> content).
Proof.
  intros Hn Hl. apply Forall2_same_length_lookup.
  split; [by rewrite length_insert|].
  intros i x y Hx Hy. destruct (decide (i = n)) as [->|Hne].
  - rewrite list_lookup_insert_eq in Hy by (by eapply lookup_lt_Some).
    congruence.
  - rewrite list_lookup_insert_ne in Hy by done. congruence.
Qed.

(** Writing under a first key other than [vref] keeps the reference. *)
Lemma setVerseKey_reference line k rest x line' :
  k <> "vref"%string ->
  setVerseKey line (k :: rest) x = Ok line' ->
  lookUpOrEmpty line' REFERENCE_KEY = lookUpOrEmpty line REFERENCE_KEY.
Proof.
  intros Hk. unfold setVerseKey, setKey.
  destruct (setKey_loop (VObj (fields line)) (k :: rest) x) as [[]|] eqn:Hs;
    try done.
  intros [= <-]. unfold lookUpOrEmpty. simpl fields.
  apply (lookUpKey_loop_own _ _ "vref").
  apply (setKey_loop_other (k :: rest) _ x); [done|simpl; congruence|done].
Qed.

Lemma resetVerseTo_reads verse text verse' :
  resetVerseTo verse text = (verse', Ok tt) ->
  reflection_loops verse' = Some [] /\
  verseIsFinalized verse' = false /\
  lookUpOrEmpty verse' TRANSLATION_KEY = Ok text /\
  lookUpOrEmpty verse' REFERENCE_KEY = lookUpOrEmpty verse REFERENCE_KEY.
Proof.
  unfold resetVerseTo.
  set (v1 := set_reflection_loops verse (Some [])).
  set (v2 := if truthy_flag (reflection_is_finalized v1)
             then set_reflection_is_finalized v1 (Some false) else v1).
  set (v3 := match reflection_finalized_grade v2 with
             | Defined g => if Qeq_bool g 0 then v2
                            else set_reflection_finalized_grade v2 Null
             | _ => v2
             end).
  set (v4 := match reflection_finalized_comment v3 with
             | Defined c => if String.eqb c "" then v3
                            else set_reflection_finalized_comment v3 Null
             | _ => v3
             end).
  set (v5 := match comment_mod_loop_count v4 with
             | Some c => if c =? 0 then v4
                         else set_comment_mod_loop_count v4 (Some 0)
             | None => v4
             end).
  assert (H2 : reflection_loops v2 = Some [] /\ verseIsFinalized v2 = false
               /\ fields v2 = fields verse).
  { subst v2 v1. unfold verseIsFinalized, truthy_flag.
    destruct verse as [? ? [[]|] ? ? ? ? ? ? ?]; done. }
  assert (H3 : reflection_loops v3 = Some [] /\ verseIsFinalized v3 = false
               /\ fields v3 = fields verse).
  { subst v3. destruct (reflection_finalized_grade v2); try done.
    by destruct (Qeq_bool _ _). }
  assert (H4 : reflection_loops v4 = Some [] /\ verseIsFinalized v4 = false
               /\ fields v4 = fields verse).
  { subst v4. destruct (reflection_finalized_comment v3); try done.
    by destruct (String.eqb _ _). }
  assert (H5 : reflection_loops v5 = Some [] /\ verseIsFinalized v5 = false
               /\ fields v5 = fields verse).
  { subst v5. destruct (comment_mod_loop_count v4); try done.
    by destruct (_ =? _). }
  destruct H5 as (Hl & Hf & Hfields).
  destruct (setVerseKey v5 TRANSLATION_KEY text) as [v6|] eqn:Hs; [|done].
  intros [= <-].
  pose proof (setVerseKey_frame _ _ _ _ Hs) as [props ->].
  split; [done|]. split; [done|]. split.
  - unfold lookUpOrEmpty.
    apply (lookUpKey_setKey TRANSLATION_KEY (VObj (fields v5)) text); [done|].
    unfold setVerseKey, setKey in Hs.
    destruct (setKey_loop (VObj (fields v5)) TRANSLATION_KEY text) as [[]|];
      try done.
    by injection Hs as <-.
  - rewrite (setVerseKey_reference v5 "fresh_translation" ["text"%string] text _
               ltac:(done) Hs).
    unfold lookUpOrEmpty. by rewrite Hfields.
Qed.

(** The second half of [updateReflectionContent], on the line that
    [getReferencedLine] has answered. *)
Lemma updateReflectionContent_found content id text is_source n line :
  text <> ""%string ->
  getReferencedLine id content true = Ok (Some n, content) ->
  content !! n = Some line ->
  updateReflectionContent content id text is_source
  = if is_source then
      match lookUpOrEmpty line SOURCE_KEY with
      | Throw e => (content, Throw e)
      | Ok existingSource =>
          if strict_eq_str existingSource text then (content, Ok false)
          else match setVerseKey line SOURCE_KEY (VStr text) with
               | Ok line' => (<[ n := line' ]> content, Ok true)
               | Throw e => (content, Throw e)
               end
      end
    else
      match getOldestTranslation line with
      | Throw e => (content, Throw e)
      | Ok existingTranslation =>
          if strict_eq_str existingTranslation text then (content, Ok false)
          else let '(line', r) := resetVerseTo line (VStr text) in
               (<[ n := line' ]> content, let! _ := r in Ok true)
      end.
Proof.
  intros Ht Hg Hn. unfold updateReflectionContent.
  apply String.eqb_neq in Ht. rewrite Ht, Hg. cbv beta iota. rewrite Hn.
  reflexivity.
Qed.

Lemma getReferencedLine_found id content n line :
  content !! n = Some line ->
  lookUpOrEmpty line REFERENCE_KEY = Ok (VStr id) ->
  (forall k line', (k < n)%nat -> content !! k = Some line' ->
                   lookUpOrEmpty line' REFERENCE_KEY <> Ok (VStr id)) ->
  getReferencedLine id content true = Ok (Some n, content).
Proof.
  intros Hn Hl Hfirst. unfold getReferencedLine.
  destruct (findReferencedLine_spec id content 0)
    as [(k & line0 & Hf & Hk & Hl0 & Hfirst0)|[Hf Hnone]];
    simpl in Hf; rewrite Hf; cbn [Js.bind].
  - assert (n = k) as ->; [|done].
    destruct (lt_eq_lt_dec n k) as [[Hlt|Heq]|Hgt]; [|done|].
    + by destruct (Hfirst0 n line Hlt Hn).
    + by destruct (Hfirst k line0 Hgt Hk).
  - by destruct (Hnone n line Hn).
Qed.

(** Ingesting the same text again changes nothing: after a call that
    has returned, the same call returns [false] and leaves the collection
    as it is. *)
Theorem updateReflectionContent_again content id text is_source content' changed :
  updateReflectionContent content id text is_source = (content', Ok changed) ->
  updateReflectionContent content' id text is_source = (content', Ok false).
Proof.
  destruct (decide (text = ""%string)) as [->|Ht].
  { unfold updateReflectionContent. simpl. by intros [= <- _]. }
  destruct (getReferencedLine_line id content)
    as (n & content1 & line & Hg & Hn & Hl & Hfirst & Hcase).
  assert (Hg1 : getReferencedLine id content1 true = Ok (Some n, content1)).
  { by apply (getReferencedLine_found id content1 n line); [..|exact Hfirst]. }
  assert (Hfirst_run :
            updateReflectionContent content id text is_source
            = updateReflectionContent content1 id text is_source).
  { unfold updateReflectionContent.
    rewrite (proj2 (String.eqb_neq text "") Ht), Hg, Hg1. reflexivity. }
  rewrite Hfirst_run.
  rewrite (updateReflectionContent_found content1 id text is_source n line)
    by done.
  assert (Hagain : forall line',
             lookUpOrEmpty line' REFERENCE_KEY = Ok (VStr id) ->
             getReferencedLine id (<[ n := line' ]> content1) true
             = Ok (Some n, <[ n := line' ]> content1) /\
             <[ n := line' ]> content1 !! n = Some line').
  { intros line' Hl'.
    assert (Hat : <[ n := line' ]> content1 !! n = Some line').
    { apply list_lookup_insert_eq. by eapply lookup_lt_Some. }
    split; [|done].
    apply (getReferencedLine_found id _ n line'); [done|done|].
    intros k l Hlt Hk. rewrite list_lookup_insert_ne in Hk by lia.
    by apply (Hfirst k l). }
  destruct is_source.
  - destruct (lookUpOrEmpty line SOURCE_KEY) as [src|] eqn:Hsrc; [|done].
    destruct (strict_eq_str src text) eqn:He.
    + intros [= <- _].
      rewrite (updateReflectionContent_found content1 id text true n line)
        by done.
      by rewrite Hsrc, He.
    + rewrite setSource_returns. intros [= <- _].
      set (line' := set_fields line (put (fields line) "source" (VStr text))).
      destruct (Hagain line') as [Hg' Hn'].
      { rewrite <- Hl. apply sameButSource_reference.
        by eapply setSource_sameButSource, setSource_returns. }
      rewrite (updateReflectionContent_found _ id text true n line') by done.
      assert (Hread : lookUpOrEmpty line' SOURCE_KEY = Ok (VStr text)).
      { unfold lookUpOrEmpty, lookUpKey. simpl. rewrite own_put_eq. done. }
      rewrite Hread. simpl. by rewrite String.eqb_refl.
  - destruct (getOldestTranslation line) as [old|] eqn:Hold; [|done].
    destruct (strict_eq_str old text) eqn:He.
    + intros [= <- _].
      rewrite (updateReflectionContent_found content1 id text false n line)
        by done.
      by rewrite Hold, He.
    + destruct (resetVerseTo line (VStr text)) as [line' r] eqn:Hreset.
      destruct r as [[]|]; [|done]. cbn [Js.bind]. intros [= <- _].
      destruct (resetVerseTo_reads _ _ _ Hreset) as (Hloops & _ & Htext & Href).
      destruct (Hagain line') as [Hg' Hn']; [congruence|].
      rewrite (updateReflectionContent_found _ id text false n line') by done.
      unfold getOldestTranslation. rewrite Hloops, Htext. simpl.
      by rewrite String.eqb_refl.
Qed.

Lemma resetVerseTo_returns verse text :
  (own (fields verse) "fresh_translation" = None \/
   exists props, own (fields verse) "fresh_translation" = Some (VObj props)) ->
  exists verse', resetVerseTo verse text = (verse', Ok tt).
Proof.
  intros Hshape. unfold resetVerseTo.
  set (v1 := set_reflection_loops verse (Some [])).
  set (v2 := if truthy_flag (reflection_is_finalized v1)
             then set_reflection_is_finalized v1 (Some false) else v1).
  set (v3 := match reflection_finalized_grade v2 with
             | Defined g => if Qeq_bool g 0 then v2
                            else set_reflection_finalized_grade v2 Null
             | _ => v2
             end).
  set (v4 := match reflection_finalized_comment v3 with
             | Defined c => if String.eqb c "" then v3
                            else set_reflection_finalized_comment v3 Null
             | _ => v3
             end).
  set (v5 := match comment_mod_loop_count v4 with
             | Some c => if c =? 0 then v4
                         else set_comment_mod_loop_count v4 (Some 0)
             | None => v4
             end).
  assert (H2 : fields v2 = fields verse).
  { subst v2 v1. by destruct (truthy_flag _). }
  assert (H3 : fields v3 = fields verse).
  { subst v3. destruct (reflection_finalized_grade v2); try done.
    by destruct (Qeq_bool _ _). }
  assert (H4 : fields v4 = fields verse).
  { subst v4. destruct (reflection_finalized_comment v3); try done.
    by destruct (String.eqb _ _). }
  assert (H5 : fields v5 = fields verse).
  { subst v5. destruct (comment_mod_loop_count v4); try done.
    by destruct (_ =? _). }
  clearbody v5. clear v1 v2 v3 v4 H2 H3 H4.
  assert (Hset : exists v6, setVerseKey v5 TRANSLATION_KEY text = Ok v6).
  { unfold setVerseKey, setKey, TRANSLATION_KEY. rewrite H5.
    rewrite setKey_loop_step. simpl has_property.
    change (inherited "fresh_translation") with false.
    destruct Hshape as [Hnone|(props & Hsome)].
    - rewrite Hnone.
      replace (bool_decide (is_Some (@None value))) with false
        by (symmetry; apply bool_decide_eq_false; by intros [? ?]).
      cbn [orb Js.bind assign].
      change (String.eqb "fresh_translation" "__proto__") with false.
      cbn [andb Js.bind get prop_name].
      rewrite own_put_eq. cbn [Js.bind setKey_loop assign].
      change (String.eqb "text" "__proto__") with false.
      change (String.eqb "fresh_translation" "__proto__") with false.
      cbn [andb Js.bind]. eauto.
    - rewrite Hsome.
      replace (bool_decide (is_Some (Some (VObj props)))) with true
        by (symmetry; apply bool_decide_eq_true; eauto).
      cbn [orb Js.bind get prop_name]. rewrite Hsome.
      cbn [Js.bind setKey_loop assign].
      change (String.eqb "text" "__proto__") with false.
      change (String.eqb "fresh_translation" "__proto__") with false.
      cbn [andb Js.bind]. eauto. }
  destruct Hset as (v6 & ->). eauto.
Qed.

(** A translation that differs from the oldest draft resets the verse to
    the new text: no rounds, not finalized, and the text as the current
    translation; the other lines stay as they are. *)
Theorem updateReflectionContent_translation content id text n line existing :
  text <> ""%string ->
  content !! n = Some line ->
  lookUpOrEmpty line REFERENCE_KEY = Ok (VStr id) ->
  (forall k line', (k < n)%nat -> content !! k = Some line' ->
                   lookUpOrEmpty line' REFERENCE_KEY <> Ok (VStr id)) ->
  getOldestTranslation line = Ok existing ->
  strict_eq_str existing text = false ->
  (own (fields line) "fresh_translation" = None \/
   exists props, own (fields line) "fresh_translation" = Some (VObj props)) ->
  exists line',
    updateReflectionContent content id text false
    = (<[ n := line' ]> content, Ok true) /\
    reflection_loops line' = Some [] /\
    verseIsFinalized line' = false /\
    lookUpOrEmpty line' TRANSLATION_KEY = Ok (VStr text) /\
    lookUpOrEmpty line' REFERENCE_KEY = Ok (VStr id).
Proof.
  intros Ht Hn Hl Hfirst Hold He Hshape.
  destruct (resetVerseTo_returns line (VStr text) Hshape) as (line' & Hreset).
  destruct (resetVerseTo_reads _ _ _ Hreset) as (Hloops & Hfin & Htext & Href).
  exists line'. split; [|by rewrite Href].
  rewrite (updateReflectionContent_found content id text false n line); try done.
  - by rewrite Hold, He, Hreset.
  - by apply (getReferencedLine_found id content n line); [..|exact Hfirst].
Qed.

End IngestionSteps.

(** ** The messages of the log view *)

Section LogsView.
Import logsView.

Lemma slice_last_app {A} n (l : list A) x :
  (0 < n)%nat ->
  slice_last n (slice_last n l ++ [x]) = slice_last n (l ++ [x]).
Proof.
  intros Hn. unfold slice_last.
  destruct (decide (length l <= n)%nat) as [Hle|Hgt].
  - replace (length l - n)%nat with 0%nat by lia. by rewrite drop_0.
  - assert (Hd : (length l - n <= length l)%nat) by lia.
    assert (Hsplit : drop (length l - n) l ++ [x]
                     = drop (length l - n) (l ++ [x])).
    { by rewrite drop_app_le by lia. }
    rewrite Hsplit, drop_drop. f_equal.
    rewrite length_drop, !length_app. simpl. lia.
Qed.

(** After any messages, the buffer holds the last hundred of those it
    has received, oldest first, and an update of the view is scheduled. *)
Lemma addLogMessage_keeps st logData all :
  logMessages st = slice_last maxLogMessages all ->
  logMessages (addLogMessage st logData).1
  = slice_last maxLogMessages (all ++ [logData]).
Proof.
  intros Hst. unfold addLogMessage. cbn [fst logMessages].
  rewrite Hst.
  destruct (_ <? _)%nat eqn:Hlt.
  - apply slice_last_app. unfold maxLogMessages. lia.
  - apply Nat.ltb_ge in Hlt. rewrite length_app in Hlt. simpl in Hlt.
    rewrite <- (slice_last_app maxLogMessages all logData)
      by (unfold maxLogMessages; lia).
    unfold slice_last at 2.
    rewrite length_app. simpl.
    replace (_ - maxLogMessages)%nat with 0%nat; [done|].
    unfold maxLogMessages in *. lia.
Qed.

Lemma addLogMessages_cons st logData logs :
  addLogMessages st (logData :: logs)
  = (((addLogMessages (addLogMessage st logData).1 logs).1),
     ((if (addLogMessage st logData).2 then 1 else 0)
      + (addLogMessages (addLogMessage st logData).1 logs).2)%nat).
Proof.
  cbn [addLogMessages]. generalize (addLogMessage st logData).
  intros [st1 b]. cbn [fst snd]. by destruct (addLogMessages st1 logs).
Qed.

(** The view keeps the last hundred messages: when it holds the last
    hundred of the messages so far, then after more messages it holds
    the last hundred of all of them, in their order, and an update of
    the view is pending. *)
Theorem addLogMessages_last_hundred logs st all :
  logMessages st = slice_last maxLogMessages all ->
  let st' := (addLogMessages st logs).1 in
  logMessages st' = slice_last maxLogMessages (all ++ logs) /\
  (length (logMessages st') <= maxLogMessages)%nat /\
  (logs <> [] -> updateWebviewTimeout st' = true).
Proof.
  revert st all.
  induction logs as [|logData logs IH]; intros st all Hst.
  - simpl. rewrite app_nil_r. split; [done|]. split; [|done].
    rewrite Hst. unfold slice_last. rewrite length_drop. lia.
  - rewrite addLogMessages_cons. cbn [fst].
    pose proof (addLogMessage_keeps st logData all Hst) as Hkeeps.
    destruct (IH (addLogMessage st logData).1 (all ++ [logData]) Hkeeps)
      as (Hmsgs & Hlen & Hsched).
    rewrite <- app_assoc in Hmsgs. split; [done|]. split; [done|].
    intros _. destruct logs as [|l logs]; [done|by apply Hsched].
Qed.

(** A burst of messages schedules one update of the view: the first
    message schedules it when none is pending, the others find it
    pending. *)
Theorem addLogMessages_debounce logs st :
  (addLogMessages st logs).2
  = if updateWebviewTimeout st then 0%nat
    else match logs with [] => 0%nat | _ => 1%nat end.
Proof.
  assert (Hpending : forall logs st,
             updateWebviewTimeout st = true -> (addLogMessages st logs).2 = 0%nat).
  { clear. induction logs as [|l logs IH]; intros st Hst; [done|].
    rewrite addLogMessages_cons. cbn [snd].
    rewrite (IH (addLogMessage st l).1) by done.
    unfold addLogMessage. cbn [snd]. by rewrite Hst. }
  destruct (updateWebviewTimeout st) eqn:Hst; [by apply Hpending|].
  destruct logs as [|l logs]; [done|].
  rewrite addLogMessages_cons. cbn [snd].
  rewrite (Hpending logs (addLogMessage st l).1) by done.
  unfold addLogMessage. cbn [snd]. by rewrite Hst.
Qed.

End LogsView.

(** ** The modification times of the files *)

Section WorkerFiles.
Import workerFiles.
Implicit Types table acc entries : Tracking.

Lemma tracked_track_eq table path m : tracked (track table path m) path = Some m.
Proof.
  induction table as [|[p o] table IH]; simpl.
  - by rewrite String.eqb_refl.
  - destruct (String.eqb p path) eqn:He; simpl; rewrite He; [done|apply IH].
Qed.

Lemma tracked_track_ne table path m path' :
  path' <> path -> tracked (track table path m) path' = tracked table path'.
Proof.
  intros Hne. induction table as [|[p o] table IH]; simpl.
  - destruct (String.eqb path path') eqn:He; [|done].
    apply String.eqb_eq in He. congruence.
  - destruct (String.eqb p path) eqn:He; simpl.
    + apply String.eqb_eq in He as ->.
      destruct (String.eqb path path') eqn:He'; [|done].
      apply String.eqb_eq in He'. congruence.
    + by rewrite IH.
Qed.

Lemma tracked_None table path : tracked table path = None <-> path ∉ table.*1.
Proof.
  induction table as [|[p o] table IH]; simpl.
  - split; [intros _; apply not_elem_of_nil|done].
  - rewrite not_elem_of_cons. destruct (String.eqb p path) eqn:He.
    + apply String.eqb_eq in He as ->. split; [done|]. by intros [? _].
    + apply String.eqb_neq in He. rewrite IH. split; [|by intros [_ ?]].
      intros H. split; [congruence|done].
Qed.

Lemma tracked_elem_of table path m :
  NoDup table.*1 -> (path, m) ∈ table -> tracked table path = Some m.
Proof.
  induction table as [|[p o] table IH]; intros Hnd Hin.
  - by apply elem_of_nil in Hin.
  - rewrite fmap_cons in Hnd. apply NoDup_cons in Hnd as [Hp Hnd].
    apply elem_of_cons in Hin as [[= <- <-]|Hin]; simpl.
    + by rewrite String.eqb_refl.
    + destruct (String.eqb p path) eqn:He; [|by apply IH].
      apply String.eqb_eq in He as ->. destruct Hp.
      apply list_elem_of_fmap. by exists (path, m).
Qed.

Lemma track_keys table path m :
  is_Some (tracked table path) -> (track table path m).*1 = table.*1.
Proof.
  induction table as [|[p0 o0] table IH]; simpl; intros [x Hx]; [done|].
  destruct (String.eqb p0 path) eqn:He; [done|].
  rewrite !fmap_cons, IH; eauto.
Qed.

Lemma track_absent table path m :
  path ∉ table.*1 -> track table path m = table ++ [(path, m)].
Proof.
  induction table as [|[p0 o0] table IH]; simpl; [done|].
  rewrite not_elem_of_cons. intros [Hne Hin].
  destruct (String.eqb p0 path) eqn:He.
  - apply String.eqb_eq in He. congruence.
  - by rewrite IH.
Qed.

Lemma elem_of_tracked table path m :
  tracked table path = Some m -> (path, m) ∈ table.
Proof.
  induction table as [|[p o] table IH]; simpl; [done|].
  destruct (String.eqb p path) eqn:He.
  - apply String.eqb_eq in He as ->. intros [= ->]. apply elem_of_cons. by left.
  - intros H. apply elem_of_cons. right. by apply IH.
Qed.

Lemma collectFiles_fresh entries : forall acc,
  NoDup (acc.*1 ++ entries.*1) -> "__proto__" ∉ entries.*1 ->
  collectFiles entries acc = Ok (acc ++ entries).
Proof.
  induction entries as [|[p o] entries IH]; intros acc Hnd Hp; simpl.
  - by rewrite app_nil_r.
  - rewrite fmap_cons in Hp. apply not_elem_of_cons in Hp as [Hp Hp'].
    simpl in Hp. destruct (String.eqb p "__proto__") eqn:He.
    { apply String.eqb_eq in He. congruence. }
    rewrite fmap_cons in Hnd. simpl in Hnd.
    assert (p ∉ acc.*1) as Hfresh.
    { apply NoDup_app in Hnd as (_ & Hd & _). intros Hin.
      apply (Hd p Hin). apply elem_of_cons. by left. }
    rewrite track_absent by done.
    rewrite IH; [by rewrite <- app_assoc| |done].
    rewrite fmap_app. simpl. by rewrite <- app_assoc.
Qed.

Lemma getFilesToUpdate_filter table :
  NoDup table.*1 -> "__proto__" ∉ table.*1 ->
  getFilesToUpdate table =
    Ok (filter (fun entry => bool_decide
                  (observed_mod_time entry.2 > updated_mod_time entry.2)) table).
Proof.
  intros Hnd Hp. unfold getFilesToUpdate.
  rewrite collectFiles_fresh; [done| |].
  - simpl. eapply sublist_NoDup; [exact Hnd|].
    apply fmap_sublist, sublist_filter.
  - intros Hin. apply Hp. apply list_elem_of_fmap in Hin as (e & He & Hin).
    apply list_elem_of_filter in Hin as [_ Hin].
    apply list_elem_of_fmap. by exists e.
Qed.

(** The files to update are the tracked files observed later than
    updated. *)
Lemma getFilesToUpdate_tracked table files path :
  NoDup table.*1 -> "__proto__" ∉ table.*1 ->
  getFilesToUpdate table = Ok files ->
  path ∈ files.*1 <->
  exists m, tracked table path = Some m /\
            observed_mod_time m > updated_mod_time m.
Proof.
  intros Hnd Hp. rewrite getFilesToUpdate_filter by done. intros [= <-].
  split.
  - intros Hin. apply list_elem_of_fmap in Hin as ([p m] & -> & Hin).
    apply list_elem_of_filter in Hin as [HP Hin]. simpl in *.
    exists m. split; [by apply tracked_elem_of|].
    by apply Is_true_true, bool_decide_eq_true in HP.
  - intros (m & Hm & Hlt). apply list_elem_of_fmap. exists (path, m).
    split; [done|]. apply list_elem_of_filter. split.
    + simpl. by apply Is_true_true, bool_decide_eq_true.
    + by apply elem_of_tracked.
Qed.

Lemma updateUpdatedModTimes_loop updated : forall table changed,
  NoDup updated.*1 ->
  (forall path m, (path, m) ∈ updated -> is_Some (tracked table path)) ->
  exists table' changed',
    updateUpdatedModTimes table updated changed = Ok (table', changed') /\
    table'.*1 = table.*1 /\
    (forall path, path ∉ updated.*1 -> tracked table' path = tracked table path) /\
    (forall path m, (path, m) ∈ updated ->
       exists current, tracked table path = Some current /\
         tracked table' path =
           Some (set_updated current
                   (Z.max (updated_mod_time current) (observed_mod_time m)))).
Proof.
  induction updated as [|[p m] updated IH]; intros table changed Hnd Hin; simpl.
  - exists table, changed. repeat split; try done.
    intros ?? H. by apply elem_of_nil in H.
  - rewrite fmap_cons in Hnd. apply NoDup_cons in Hnd as [Hp Hnd]. simpl in Hp.
    destruct (Hin p m) as [current Hcur]; [apply elem_of_cons; by left|].
    rewrite Hcur.
    set (next := if updated_mod_time current <? observed_mod_time m
                 then track table p (set_updated current (observed_mod_time m))
                 else table).
    assert (next.*1 = table.*1) as Hkeys.
    { unfold next. destruct (_ <? _); [|done]. apply track_keys. eauto. }
    assert (forall path, path <> p -> tracked next path = tracked table path)
      as Hother.
    { intros path Hne. unfold next. destruct (_ <? _); [|done].
      by apply tracked_track_ne. }
    assert (tracked next p =
            Some (set_updated current
                    (Z.max (updated_mod_time current) (observed_mod_time m))))
      as Hp'.
    { unfold next. destruct (Z.ltb_spec (updated_mod_time current)
                                        (observed_mod_time m)).
      - rewrite tracked_track_eq. f_equal. f_equal. lia.
      - rewrite Hcur. f_equal. destruct current. unfold set_updated. simpl.
        f_equal. simpl in *. lia. }
    destruct (IH next (if updated_mod_time current <? observed_mod_time m
                       then true else changed) Hnd)
      as (table' & changed' & Hrun & Hk & Hout & Hdone).
    { intros path m' Hm'. destruct (decide (path = p)) as [->|Hne].
      - rewrite Hp'. eauto.
      - rewrite Hother by done. apply (Hin path m'), elem_of_cons. by right. }
    exists table', changed'. split; [|split; [|split]].
    + unfold next in Hrun. by destruct (_ <? _).
    + by rewrite Hk.
    + intros path Hpath. rewrite ?fmap_cons in Hpath.
      apply not_elem_of_cons in Hpath as [Hne Hpath].
      rewrite Hout by done. by apply Hother.
    + intros path m' Hm'. apply elem_of_cons in Hm' as [[= -> ->]|Hm'].
      * exists current. split; [done|]. by rewrite Hout.
      * assert (path <> p) as Hne.
        { intros ->. apply Hp. apply list_elem_of_fmap. by exists (p, m'). }
        destruct (Hdone path m' Hm') as (cur & Hc & Hc').
        exists cur. split; [by rewrite <- Hother|done].
Qed.

(** The files that [updateReflectionFiles] reports as updated are not
    handed out again: after [updateUpdatedModTimes], the files to update
    are those that were to be updated and were not reported. *)
Theorem updateUpdatedModTimes_settles table files updated :
  NoDup table.*1 -> "__proto__" ∉ table.*1 ->
  getFilesToUpdate table = Ok files ->
  NoDup updated.*1 -> updated ⊆ files ->
  exists table' changed files',
    updateUpdatedModTimes table updated false = Ok (table', changed) /\
    getFilesToUpdate table' = Ok files' /\
    forall path, path ∈ files'.*1 <-> path ∈ files.*1 /\ path ∉ updated.*1.
Proof.
  intros Hnd Hp Hfiles Hndu Hsub.
  assert (forall path m, (path, m) ∈ updated ->
            tracked table path = Some m /\
            observed_mod_time m > updated_mod_time m) as Hentries.
  { intros path m Hm. apply Hsub in Hm.
    rewrite getFilesToUpdate_filter in Hfiles by done.
    injection Hfiles as <-. apply list_elem_of_filter in Hm as [HP Hm].
    split; [by apply tracked_elem_of|].
    by apply Is_true_true, bool_decide_eq_true in HP. }
  destruct (updateUpdatedModTimes_loop updated table false Hndu)
    as (table' & changed & Hrun & Hkeys & Hout & Hdone).
  { intros path m Hm. destruct (Hentries path m Hm) as [-> _]. eauto. }
  assert (NoDup table'.*1) as Hnd' by by rewrite Hkeys.
  assert ("__proto__" ∉ table'.*1) as Hp' by by rewrite Hkeys.
  eexists table', changed, _. split; [done|].
  split; [by apply getFilesToUpdate_filter|].
  intros path.
  rewrite (getFilesToUpdate_tracked table' _ path Hnd' Hp'
             (getFilesToUpdate_filter table' Hnd' Hp')).
  rewrite (getFilesToUpdate_tracked table files path Hnd Hp Hfiles).
  destruct (decide (path ∈ updated.*1)) as [Hin|Hout'].
  - split; [|by intros [_ ?]].
    intros (m' & Hm' & Hlt). exfalso.
    apply list_elem_of_fmap in Hin as ([p m] & -> & Hin). simpl in *.
    destruct (Hdone p m Hin) as (cur & Hc & Hc').
    destruct (Hentries p m Hin) as [Ht _].
    rewrite Hc in Ht. injection Ht as ->.
    rewrite Hc' in Hm'. injection Hm' as <-. simpl in Hlt. lia.
  - rewrite Hout by done. split; [by intros H|by intros [H _]].
Qed.

Lemma updateObservedModTimes_loop listed : forall table changed,
  NoDup listed.*1 ->
  (forall path, path ∈ listed.*1 -> tracked table path = None ->
                inherited path = false) ->
  exists table' changed',
    updateObservedModTimes table listed changed = Ok (table', changed') /\
    (forall path, path ∉ listed.*1 -> tracked table' path = tracked table path) /\
    (forall path modTime, (path, modTime) ∈ listed ->
       tracked table' path =
         Some match tracked table path with
              | Some m => set_observed m (Z.max (observed_mod_time m) modTime)
              | None => mkTracking modTime 0 0 0
              end).
Proof.
  induction listed as [|[p z] listed IH]; intros table changed Hnd Hin; simpl.
  - exists table, changed. repeat split; try done.
    intros ?? H. by apply elem_of_nil in H.
  - rewrite fmap_cons in Hnd. apply NoDup_cons in Hnd as [Hp Hnd]. simpl in Hp.
    set (entry := match tracked table p with
                  | Some m => set_observed m (Z.max (observed_mod_time m) z)
                  | None => mkTracking z 0 0 0
                  end).
    set (next := match tracked table p with
                 | Some m => if observed_mod_time m <? z
                             then track table p (set_observed m z) else table
                 | None => track table p (mkTracking z 0 0 0)
                 end).
    assert (forall path, path <> p -> tracked next path = tracked table path)
      as Hother.
    { intros path Hne. unfold next. destruct (tracked table p) as [m|].
      - destruct (_ <? _); [|done]. by apply tracked_track_ne.
      - by apply tracked_track_ne. }
    assert (tracked next p = Some entry) as Hp'.
    { unfold next, entry. destruct (tracked table p) as [m|] eqn:Hm.
      - destruct (Z.ltb_spec (observed_mod_time m) z).
        + rewrite tracked_track_eq. f_equal. f_equal. lia.
        + rewrite Hm. f_equal. destruct m. unfold set_observed. simpl.
          f_equal. simpl in *. lia.
      - apply tracked_track_eq. }
    destruct (IH next (match tracked table p with
                       | Some m => if observed_mod_time m <? z
                                   then true else changed
                       | None => true
                       end) Hnd)
      as (table' & changed' & Hrun & Hout & Hdone).
    { intros path Hpath Hnone. apply Hin.
      - rewrite fmap_cons. apply elem_of_cons. by right.
      - rewrite <- Hother; [done|]. intros ->. done. }
    exists table', changed'. split; [|split].
    + unfold next in Hrun. destruct (tracked table p) as [m|] eqn:Hm.
      * by destruct (_ <? _).
      * rewrite (Hin p); [done| |done]. rewrite fmap_cons.
        apply elem_of_cons. by left.
    + intros path Hpath. rewrite ?fmap_cons in Hpath.
      apply not_elem_of_cons in Hpath as [Hne Hpath].
      rewrite Hout by done. by apply Hother.
    + intros path z' Hz'. apply elem_of_cons in Hz' as [[= -> ->]|Hz'].
      * by rewrite Hout.
      * assert (path <> p) as Hne.
        { intros ->. apply Hp. apply list_elem_of_fmap. by exists (p, z'). }
        rewrite (Hdone path z' Hz'). by rewrite Hother.
Qed.

(** [updateObservedModTimes] keeps, for every listed file, the later of
    the observed time it had and the listed one; a file it did not know
    starts as never updated, and the files that are not listed keep
    their times. *)
Theorem updateObservedModTimes_latest table listed :
  NoDup listed.*1 ->
  Forall (fun file => inherited file.1 = false) listed ->
  exists table' changed,
    updateObservedModTimes table listed false = Ok (table', changed) /\
    (forall path, path ∉ listed.*1 -> tracked table' path = tracked table path) /\
    (forall path modTime, (path, modTime) ∈ listed ->
       tracked table' path =
         Some match tracked table path with
              | Some m => set_observed m (Z.max (observed_mod_time m) modTime)
              | None => mkTracking modTime 0 0 0
              end).
Proof.
  intros Hnd Hplain. apply updateObservedModTimes_loop; [done|].
  intros path Hin _. apply list_elem_of_fmap in Hin as (e & -> & Hin).
  by apply (proj1 (Forall_forall _ _) Hplain).
Qed.

End WorkerFiles.

(** ** [setKey] along a path *)

Section KeyPaths.
Import reflectionUtils keyPaths.

Lemma lookUpKey_after_setKey ks :
  forall v x r d nv,
    ks <> [] ->
    setKey_loop v ks x = Ok r ->
    lookUpKey_loop r (map KStr ks) d nv
    = Ok (if is_null x && negb nv then d else x).
Proof.
  induction ks as [|k rest IH]; intros v x r d nv Hne; [done|].
  destruct rest as [|k2 rest].
  - intros H. apply assign_object in H as (p & -> & ->).
    simpl. rewrite own_put_eq. simpl.
    by destruct (is_null x && negb nv).
  - intros H. apply setKey_loop_inv in H as (p & c & c' & -> & _ & Hs & ->).
    change (map KStr (k :: k2 :: rest)) with (KStr k :: map KStr (k2 :: rest)).
    cbn [lookUpKey_loop Array_isArray typeof_object is_null andb negb
         has_property get prop_name Js.bind].
    rewrite own_put_eq.
    replace (bool_decide (is_Some (Some c'))) with true by done.
    cbn [orb Js.bind]. by apply (IH c).
Qed.

(** What [setKey] has written under a path, [lookUpKey] reads back under
    the same path, except that a [null] written reads as the default
    when [noneIsValid] is off; the properties of [data] under other
    first keys stay as they were. *)
Theorem setKey_lookUpKey data keys x data' :
  keys <> [] ->
  setKey data keys x = Ok data' ->
  (forall d, lookUpKey data' (map KStr keys) d true = Ok x) /\
  (forall d, lookUpKey data' (map KStr keys) d false
             = Ok (if is_null x then d else x)) /\
  exists props props',
    data = VObj props /\ data' = VObj props' /\
    forall k, head keys <> Some k -> own props' k = own props k.
Proof.
  intros Hne Hset. unfold setKey, lookUpKey in *.
  split; [|split].
  - intros d. rewrite (lookUpKey_after_setKey keys data x data' d true Hne Hset).
    by rewrite andb_false_r.
  - intros d. rewrite (lookUpKey_after_setKey keys data x data' d false Hne Hset).
    by rewrite andb_true_r.
  - destruct (setKey_loop_object keys data x data' Hset) as (p & p' & -> & ->).
    exists p, p'. split; [done|]. split; [done|].
    intros k Hk. by apply (setKey_loop_other keys p x p' k).
Qed.

(** On an object that has no property under the first key, [setKey]
    with a path of names that objects do not inherit succeeds: it makes
    the objects on the way, and the value is read back. *)
Theorem setKey_creates_path props k keys x :
  own props k = None ->
  Forall (fun k => inherited k = false) (k :: keys) ->
  exists props',
    setKey (VObj props) (k :: keys) x = Ok (VObj props') /\
    (forall d, lookUpKey (VObj props') (map KStr (k :: keys)) d true = Ok x) /\
    (forall k', k' <> k -> own props' k' = own props k').
Proof.
  intros Hown Hplain. unfold setKey, lookUpKey.
  destruct (setKey_loop_fresh keys props k x Hown Hplain) as (props' & Hset).
  exists props'. split; [done|]. split.
  - intros d.
    rewrite (lookUpKey_after_setKey (k :: keys) _ x _ d true ltac:(done) Hset).
    by rewrite andb_false_r.
  - intros k' Hk'. apply (setKey_loop_other (k :: keys) props x props' k' Hset);
      [simpl; congruence|done].
Qed.

Lemma setKey_loop_primitive c keys x :
  primitive c = true -> keys <> [] ->
  setKey_loop c keys x = Throw TypeError.
Proof.
  intros Hc Hne. destruct keys as [|k [|k2 rest]]; [done| |].
  - by destruct c.
  - rewrite setKey_loop_step. by destruct c.
Qed.

(** [setKey] does not replace a primitive that stands in the way: when
    a prefix of the path leads, through own properties, to [undefined],
    [null], a boolean, a number or a string, and the path goes on, the
    call is a TypeError. *)
Theorem setKey_through_primitive data keys rest x c :
  ownPath data keys = Some c ->
  primitive c = true ->
  rest <> [] ->
  setKey data (keys ++ rest) x = Throw TypeError.
Proof.
  unfold setKey. revert data.
  induction keys as [|k keys IH]; intros data Hpath Hc Hrest.
  - injection Hpath as ->. by apply setKey_loop_primitive.
  - simpl in Hpath. destruct data as [| | | | | |props|]; try done.
    destruct (own props k) as [child|] eqn:Hown; [|done].
    change ((k :: keys) ++ rest) with (k :: (keys ++ rest)).
    pose proof (IH child Hpath Hc Hrest) as Hchild.
    destruct (keys ++ rest) as [|k2 more] eqn:Hmore.
    { by destruct keys, rest. }
    rewrite setKey_loop_step. simpl has_property. rewrite Hown.
    replace (bool_decide (is_Some (Some child))) with true by done.
    cbn [orb Js.bind get prop_name]. rewrite Hown. cbn [Js.bind].
    by rewrite Hchild.
Qed.

End KeyPaths.

(** ** The files of the checkpoint store *)

Section JsonlFiles.
Import reflectionUtils.

Variable JSON_stringify : value -> option string.
Variable JSON_parse : string -> outcome value.

Lemma tempFilename_differs (filename : string) : filename +:+ "~" <> filename.
Proof.
  intros H. apply (f_equal String.length) in H.
  rewrite length_append in H. simpl in H. lia.
Qed.

(** [saveJsonl] leaves [filename] holding the records, one on each
    line, leaves no [filename~] behind, also when there was one, and
    leaves every other file as it was. *)
Theorem saveJsonl_files fs filename data :
  exists fs',
    saveJsonl JSON_stringify fs filename data = Ok fs' /\
    fs' !! filename
    = Some (join_lines
              (map (fun line => default ""%string (JSON_stringify line)) data)) /\
    fs' !! (filename +:+ "~") = None /\
    forall path, path <> filename -> path <> filename +:+ "~" ->
                 fs' !! path = fs !! path.
Proof.
  unfold saveJsonl, rename, writeFile. rewrite lookup_insert_eq.
  eexists. split; [done|]. split; [by rewrite lookup_insert_eq|]. split.
  - rewrite lookup_insert_ne by (intros H; by apply (tempFilename_differs filename)).
    by rewrite lookup_delete_eq.
  - intros path H1 H2. rewrite lookup_insert_ne by done.
    rewrite lookup_delete_ne by done. by rewrite lookup_insert_ne.
Qed.

(** [loadJsonl] of a file that exists reads its lines that are not
    blank, in their order, whatever the default: blank lines count for
    nothing, and a line that [JSON.parse] refuses makes the call throw. *)
Theorem loadJsonl_lines fs file lines defaultValue :
  fs !! file = Some (join_lines lines) ->
  Forall (fun line => has_newline line = false) lines ->
  loadJsonl JSON_parse fs file defaultValue
  = parse_lines JSON_parse
      (filter (fun line => negb (String.eqb (trim line) "")) lines).
Proof.
  intros Hfile Hlines. unfold loadJsonl, readFile. rewrite Hfile.
  destruct lines as [|line rest] eqn:Hl; [done|]. rewrite <- Hl in *.
  rewrite split_join_lines; [done|by rewrite Hl|done].
Qed.

End JsonlFiles.

(** ** What an iteration of the engine keeps *)

Section TickFlags.
Import reflectionUtils gradeReflectLoop Operations.

(** An iteration of the engine neither adds nor removes a verse, and it
    leaves the flags [ai_halted] and [grade_only] of every verse as they
    were, whatever the service answers. *)
Theorem tick_keeps_flags adaptationInference gradingChoices reflectionInference
        config overRiddenReferences st st' selected act :
  tick adaptationInference gradingChoices reflectionInference config
       overRiddenReferences st = Ok (st', selected, act) ->
  length (reflectionOutput st') = length (reflectionOutput st) /\
  forall line verse verse',
    reflectionOutput st !! line = Some verse ->
    reflectionOutput st' !! line = Some verse' ->
    ai_halted verse' = ai_halted verse /\
    grade_only verse' = grade_only verse.
Proof.
  intros Htick. apply tick_keepFlags in Htick. unfold keepFlags in Htick.
  split; [symmetry; by eapply Forall2_length|].
  intros line verse verse' Hv Hv'.
  pose proof (Forall2_lookup_lr _ _ _ _ _ _ Htick Hv Hv') as Hf.
  unfold flags in Hf. by injection Hf as _ -> ->.
Qed.

End TickFlags.

(** ** The verses of a notebook *)

Section Notebooks.
Import reflectionUtils verseReferences notebooks.

Lemma includes_stripTags_from e s : forall inTag,
  includes (stripTags_from inTag s) e = true -> includes s e = true.
Proof.
  induction s as [|c s IH]; intros inTag; [done|]. simpl.
  destruct inTag.
  - destruct (Ascii.eqb c ">"); intros H; apply IH in H;
      rewrite H; apply orb_true_r.
  - destruct (Ascii.eqb c "<" && includes s ">").
    + intros H. apply IH in H. rewrite H. apply orb_true_r.
    + simpl. destruct (Ascii.eqb c e); [done|]. simpl. apply IH.
Qed.

Lemma tagFree_stripTags_from s : forall inTag,
  tagFree (stripTags_from inTag s) = true.
Proof.
  induction s as [|c s IH]; intros inTag; [done|]. simpl.
  destruct inTag.
  - destruct (Ascii.eqb c ">"); apply IH.
  - destruct (Ascii.eqb c "<" && includes s ">") eqn:Htag; [apply IH|].
    simpl. rewrite IH, andb_true_r.
    destruct (Ascii.eqb c "<"); [|done]. simpl in *.
    destruct (includes (stripTags_from false s) ">") eqn:Hin; [|done].
    apply includes_stripTags_from in Hin. congruence.
Qed.

Lemma stripTags_tagFree s : tagFree s = true -> stripTags s = s.
Proof.
  unfold stripTags. induction s as [|c s IH]; [done|]. simpl.
  intros H. apply andb_true_iff in H as [Hc Hs].
  rewrite IH by done.
  destruct (Ascii.eqb c "<"); [|done]. simpl in *.
  by destruct (includes s ">").
Qed.

Lemma tagFree_plain s : includes s "<" = false -> tagFree s = true.
Proof.
  induction s as [|c s IH]; [done|]. simpl.
  intros H. apply orb_false_iff in H as [-> Hs]. simpl. by apply IH.
Qed.

(** What the pattern removes from the text of a cell: the result holds
    no tag, a text without tags stays as it is, and removing the tags
    twice removes nothing more. *)
Theorem stripTags_removes_tags s :
  tagFree (stripTags s) = true /\
  (tagFree s = true -> stripTags s = s) /\
  stripTags (stripTags s) = stripTags s.
Proof.
  split; [apply tagFree_stripTags_from|]. split; [apply stripTags_tagFree|].
  apply stripTags_tagFree, tagFree_stripTags_from.
Qed.

(** The table under construction: texts without tags. *)
Lemma put_Forall (P : string * value -> Prop) props k x :
  Forall P props -> P (k, x) -> (forall k' y, P (k', y) -> P (k', x)) ->
  Forall P (put props k x).
Proof.
  intros Hall Hx Hsame. induction Hall as [|[k0 v0] rest H0 Hrest IH]; simpl.
  - by constructor.
  - destruct (String.eqb k0 k).
    + constructor; [by apply (Hsame k0 v0)|done].
    + by constructor.
Qed.

Lemma notebookCell_texts acc cell acc' :
  Forall (fun entry => exists text, entry.2 = VStr text /\ tagFree text = true)
         acc ->
  notebookCell acc cell = Ok acc' ->
  Forall (fun entry => exists text, entry.2 = VStr text /\ tagFree text = true)
         acc'.
Proof.
  intros Hacc. unfold notebookCell.
  destruct (get cell (KStr "metadata")) as [metadata|]; cbn [Js.bind]; [|done].
  destruct (if nullish metadata then _ else _) as [id|]; cbn [Js.bind]; [|done].
  destruct (get cell (KStr "languageId")) as [langId|]; cbn [Js.bind]; [|done].
  destruct (_ && _); [|by intros [= <-]].
  destruct (get cell (KStr "value")) as [verse|]; cbn [Js.bind]; [|done].
  destruct (orElse verse (VStr "")) as [| | | |text| | |]; try done.
  destruct (propertyKey _) as [name|]; cbn [Js.bind]; [|done].
  unfold assign. destruct (_ && _); [done|]. cbn [Js.bind].
  intros [= <-]. apply put_Forall; [done| |].
  - exists (stripTags text). split; [done|apply tagFree_stripTags_from].
  - intros k' y _. exists (stripTags text).
    split; [done|apply tagFree_stripTags_from].
Qed.

(** The texts that [notebookDataToIdToContent] answers hold no tag:
    every entry of the table is a string in which no [<] is followed by
    a [>]. *)
Theorem notebookDataToIdToContent_texts noteBookData verseData :
  notebookDataToIdToContent noteBookData = Ok verseData ->
  Forall (fun entry => exists text, entry.2 = VStr text /\ tagFree text = true)
         verseData.
Proof.
  unfold notebookDataToIdToContent.
  destruct (get noteBookData (KStr "cells")) as [cells|]; cbn [Js.bind]; [|done].
  destruct (orElse cells (VArr [])) as [| | | | |elems| |]; try done.
  assert (Hstart : Forall (fun entry : string * value =>
                             exists text, entry.2 = VStr text /\
                                          tagFree text = true) []) by constructor.
  revert Hstart. generalize (@nil (string * value)).
  induction elems as [|cell elems IH]; intros acc Hacc; simpl.
  - by intros [= <-].
  - destruct (notebookCell acc cell) as [acc1|] eqn:Hcell; cbn [Js.bind]; [|done].
    apply IH. by apply (notebookCell_texts acc cell).
Qed.

End Notebooks.

(** ** The average of a translation *)

Section TranslationGrade.
Import reflectionUtils gradeReflectLoop.

Lemma computeTranslationGrade_loop_again config rest :
  forall verseLineNumber verseCount verseSum r,
    computeTranslationGrade_loop config verseLineNumber rest verseCount verseSum
    = Ok r ->
    computeTranslationGrade_loop config verseLineNumber r.2 verseCount verseSum
    = Ok r.
Proof.
  induction rest as [|verse rest IH]; intros n c s r; simpl.
  - by intros [= <-].
  - destruct (beforeStartLine config n) eqn:Hb.
    + destruct (computeTranslationGrade_loop config (S n) rest c s)
        as [r1|] eqn:Hr; cbn [Js.bind]; [|done].
      intros [= <-]. simpl. rewrite Hb. by rewrite (IH _ _ _ _ Hr).
    + destruct (afterEndLine config n) eqn:Ha.
      * intros [= <-]. simpl. by rewrite Hb, Ha.
      * destruct (computeVerseGrade verse config) as [[g verse1]|] eqn:Hg;
          cbn [Js.bind]; [|done].
        cbn [fst snd].
        destruct (computeTranslationGrade_loop config (S n) rest
                    (match g with Some _ => c + 1 | None => c end)
                    (match g with
                     | Some verseGrade => Qred (s + verseGrade)
                     | None => s
                     end)) as [r1|] eqn:Hr.
        -- destruct g; rewrite Hr; cbn [Js.bind]; intros [= <-]; simpl;
             rewrite Hb, Ha, (computeVerseGrade_again _ _ _ _ Hg);
             cbn [Js.bind fst snd]; by rewrite (IH _ _ _ _ Hr).
        -- by destruct g; rewrite Hr.
Qed.

(** Grading keeps its answers: [computeTranslationGrade] stores the
    averages it computes in the rounds, and on the verses it returns it
    answers the same average again and changes nothing more. *)
Theorem computeTranslationGrade_again translation config averageGrade graded :
  computeTranslationGrade translation config = Ok (averageGrade, graded) ->
  computeTranslationGrade graded config = Ok (averageGrade, graded).
Proof.
  unfold computeTranslationGrade.
  destruct (computeTranslationGrade_loop config 0 translation 0 0)
    as [[[c s] out]|] eqn:Hr; cbn [Js.bind]; [|done].
  apply computeTranslationGrade_loop_again in Hr. simpl in Hr.
  intros H.
  assert (out = graded) as -> by (by destruct (c =? 0); injection H).
  by rewrite Hr.
Qed.

End TranslationGrade.

(** ** The properties on small inputs *)

Section MoreExamples.
Import reflectionUtils gradeReflectLoop reflectionWorker Operations.
Import verseReferences Selection workerFiles logsView keyPaths notebooks.
Import Examples.

Ltac decide_by_evaluation :=
  match goal with
  | |- ?P => apply (bool_decide_unpack P); vm_compute; exact I
  end.

Lemma splitRef2_reads_witness :
  splitRef2 "1 John 3:16"
  = Ok ("1 John"%string, Some (Int 3), Some (Int 16), Some (Int 16)) /\
  splitRef2 "1 John 3:16-18"
  = Ok ("1 John"%string, Some (Int 3), Some (Int 16), Some (Int 18)).
Proof.
  apply (splitRef2_reads "1 John" 3 16 18); by vm_compute.
Defined.

Lemma normalizeRanges_without_ranges_witness :
  normalizeRanges [firstVerse; thirdVerse]
                  REFERENCE_KEY TRANSLATION_KEY SOURCE_KEY
  = Returns [firstVerse; thirdVerse].
Proof.
  apply (normalizeRanges_without_ranges firstVerse [thirdVerse]).
  - eexists. eexists. split; vm_compute; reflexivity.
  - repeat constructor. eexists. eexists.
    split; [vm_compute; reflexivity|].
    split; [vm_compute; reflexivity|].
    split; vm_compute; discriminate.
Defined.

Lemma normalizeRanges_length_witness :
  exists out,
    normalizeRanges [firstVerse; rangeVerse]
                    REFERENCE_KEY TRANSLATION_KEY SOURCE_KEY = Returns out /\
    (length out <= 2)%nat /\
    ([firstVerse; rangeVerse] <> [] -> out <> []).
Proof.
  eexists.
  assert (H : normalizeRanges [firstVerse; rangeVerse]
                REFERENCE_KEY TRANSLATION_KEY SOURCE_KEY = Returns [_])
    by (vm_compute; reflexivity).
  split; [exact H|].
  exact (normalizeRanges_length _ _ _ _ _ H).
Defined.


Lemma normalizeRanges_across_witness :
  normalizeRanges ([firstVerse] ++ [plainVerse "EXO 1:1" "Now these" "<range>"])
                  REFERENCE_KEY TRANSLATION_KEY SOURCE_KEY
  = Throws (Error "Ranges across books not supported.").
Proof.
  apply (normalizeRanges_across
           [firstVerse] [] firstVerse (plainVerse "EXO 1:1" "Now these" "<range>")
           REFERENCE_KEY TRANSLATION_KEY SOURCE_KEY
           "GEN" 1 1 "EXO" 1 1 "<range>" "Now these").
  - vm_compute; reflexivity.
  - by vm_compute.
  - by vm_compute.
  - by vm_compute.
  - by vm_compute.
  - vm_compute; reflexivity.
  - vm_compute; reflexivity.
  - vm_compute; reflexivity.
  - vm_compute; reflexivity.
  - by left.
  - left. discriminate.
Defined.

Lemma getOverriddenReferences_cycle_witness :
  getOverriddenReferences
    1000 [overrideVerse "GEN 1:1" false; overrideVerse "GEN 1:2" true;
          overrideVerse "GEN 1:1" true]
    ["vref"]%string (Some ["override"]%string)
  = Ok None.
Proof.
  apply (getOverriddenReferences_cycle
           ["vref"]%string ["override"]%string 1000 _ "GEN 1:1" "GEN 1:2" false).
  - repeat constructor; eexists; split; vm_compute; reflexivity.
  - split; [discriminate|reflexivity].
  - split; [discriminate|reflexivity].
  - discriminate.
Defined.

Lemma getOverriddenReferences_ranges_witness :
  exists updated,
    getOverriddenReferences 4 overrideVerses ["vref"]%string
                            (Some ["override"]%string)
      = Ok (Some updated) /\
    forall i r f,
      overrideMarks !! i = Some (r, f) ->
      ((forall r', overrideMarks !! S i <> Some (r', true)) ->
       own updated r = None) /\
      (forall j e fe,
          (i < j)%nat -> overrideRun overrideMarks i j ->
          overrideMarks !! j = Some (e, fe) ->
          own updated r = Some (VStr e)).
Proof.
  apply (getOverriddenReferences_ranges
           ["vref"]%string ["override"]%string 4 overrideVerses overrideMarks).
  - repeat constructor; eexists; split; vm_compute; reflexivity.
  - repeat constructor; vm_compute; discriminate.
  - decide_by_evaluation.
  - vm_compute. lia.
Defined.

Lemma selectLowest_lowest_witness :
  let output := [exampleVerse; partlyGradedVerse] in
  exists g output',
    selectLowest exampleConfig [] 0 output None = Ok (Some (g, 1%nat), output') /\
    (exists verse, output !! 1%nat = Some verse /\
                   candidate exampleConfig [] 1 verse g) /\
    (forall line' verse' g',
        output !! line' = Some verse' ->
        candidate exampleConfig [] line' verse' g' ->
        (g <= g')%Q /\ ((line' < 1)%nat -> (g < g')%Q)).
Proof.
  intros output. eexists. eexists.
  assert (H : selectLowest exampleConfig [] 0 output None
              = Ok (Some (_, 1%nat), _)) by (vm_compute; reflexivity).
  split; [exact H|].
  exact (selectLowest_lowest exampleConfig [] output _ _ H).
Defined.

Lemma runAdaptationPass_once_witness :
  exists verse',
    runAdaptationPass (exampleAdaptation partlyGradedVerse) partlyGradedVerse
                      adaptingConfig
    = Ok (true, verse') /\
    (exists lastLoop,
        (reflection_loops verse' ≫= last) = Some lastLoop /\
        graded_verse lastLoop = Some (VStr "first draft") /\
        is_adaptation lastLoop = Some true) /\
    adapted verse' = Some true /\
    forall r', runAdaptationPass r' verse' adaptingConfig = Ok (false, verse').
Proof.
  eexists.
  assert (H : runAdaptationPass (exampleAdaptation partlyGradedVerse) partlyGradedVerse
                      adaptingConfig
              = Ok (true, _)) by (vm_compute; reflexivity).
  split; [exact H|].
  exact (runAdaptationPass_once (exampleAdaptation partlyGradedVerse)
           partlyGradedVerse adaptingConfig
           _ (VStr "first draft") H eq_refl).
Defined.

Lemma skipReflection_once_witness :
  exists verse' inserted,
    skipReflection commentedVerse exampleConfig = Ok (Some (verse', inserted)) /\
    skipReflection verse' exampleConfig = Ok None.
Proof.
  eexists. eexists.
  assert (H : skipReflection commentedVerse exampleConfig = Ok (Some (_, _)))
    by (vm_compute; reflexivity).
  split; [exact H|].
  exact (skipReflection_once commentedVerse exampleConfig _ _ H).
Defined.

Lemma sweep_completes_round_witness :
  let config := with_rounds exampleConfig 3 (Some 2) None in
  let output := [haltedVerse; partlyGradedVerse] in
  exists out' act verse',
    sweep exampleAdaptation exampleGrading config [] output 0 output
    = Ok (out', Some 1%nat, act) /\
    out' !! 1%nat = Some verse' /\
    computeNumberUnansweredGrades verse' config = 3.
Proof.
  intros config output.
  assert (H : sweep exampleAdaptation exampleGrading config [] output 0 output
              = Ok (<[ 1%nat := appendGrades partlyGradedVerse [mkGrade 70 "fair"] ]>
                      output,
                    Some 1%nat, AddedGrades 1 1 [mkGrade 70 "fair"]))
    by (vm_compute; reflexivity).
  destruct (sweep_completes_round exampleAdaptation exampleGrading config []
              output _ 1%nat _ partlyGradedVerse H eq_refl eq_refl)
    as (verse' & Hline & Hcount).
  { intros lastLoop [= <-]. reflexivity. }
  eexists. eexists. exists verse'. split; [exact H|]. by split.
Defined.

Lemma tick_keeps_flags_witness :
  let config := with_rounds exampleConfig 3 (Some 2) None in
  let st := mkState [haltedVerse; partlyGradedVerse] 0 0 false in
  exists st' selected act,
    tick exampleAdaptation exampleGrading exampleReflection config [] st
    = Ok (st', selected, act) /\
    length (reflectionOutput st') = 2%nat /\
    forall line verse verse',
      reflectionOutput st !! line = Some verse ->
      reflectionOutput st' !! line = Some verse' ->
      ai_halted verse' = ai_halted verse /\
      grade_only verse' = grade_only verse.
Proof.
  intros config st. eexists. eexists. eexists.
  assert (H : tick exampleAdaptation exampleGrading exampleReflection config [] st
              = Ok (mkState _ _ _ _, Some 1%nat,
                    AddedGrades 1 1 [mkGrade 70 "fair"]))
    by (vm_compute; reflexivity).
  split; [exact H|].
  exact (tick_keeps_flags exampleAdaptation exampleGrading exampleReflection
           config [] st _ _ _ H).
Defined.

Lemma updateReflectionContent_again_witness :
  exists content' changed,
    updateReflectionContent [firstVerse] "GEN 1:2" "And the earth" true
    = (content', Ok changed) /\
    updateReflectionContent content' "GEN 1:2" "And the earth" true
    = (content', Ok false).
Proof.
  eexists. eexists.
  assert (H : updateReflectionContent [firstVerse] "GEN 1:2" "And the earth" true
              = (_, Ok _)) by (vm_compute; reflexivity).
  split; [exact H|].
  exact (updateReflectionContent_again _ _ _ _ _ _ H).
Defined.

Lemma updateReflectionContent_translation_witness :
  exists line',
    updateReflectionContent [exampleVerse] "GEN 1:1" "new draft" false
    = (<[ 0%nat := line' ]> [exampleVerse], Ok true) /\
    reflection_loops line' = Some [] /\
    verseIsFinalized line' = false /\
    lookUpOrEmpty line' TRANSLATION_KEY = Ok (VStr "new draft") /\
    lookUpOrEmpty line' REFERENCE_KEY = Ok (VStr "GEN 1:1").
Proof.
  apply (updateReflectionContent_translation
           [exampleVerse] "GEN 1:1" "new draft" 0 exampleVerse
           (VStr "first draft")).
  - discriminate.
  - reflexivity.
  - reflexivity.
  - intros k line' Hk. lia.
  - reflexivity.
  - reflexivity.
  - right. eexists. reflexivity.
Defined.

Lemma updateObservedModTimes_latest_witness :
  let listed := [("files/target/GEN.codex", 12); ("files/target/LEV.codex", 7);
                 (".project/comments.json", 2)]%string in
  exists table' changed,
    updateObservedModTimes trackedFiles listed false = Ok (table', changed) /\
    (forall path, path ∉ listed.*1 ->
                  tracked table' path = tracked trackedFiles path) /\
    (forall path modTime, (path, modTime) ∈ listed ->
       tracked table' path =
         Some match tracked trackedFiles path with
              | Some m => set_observed m (Z.max (observed_mod_time m) modTime)
              | None => mkTracking modTime 0 0 0
              end).
Proof.
  intros listed. apply (updateObservedModTimes_latest trackedFiles listed).
  - decide_by_evaluation.
  - repeat constructor.
Defined.

Lemma updateUpdatedModTimes_settles_witness :
  let files := [("files/target/GEN.codex", mkTracking 9 5 0 0);
                ("files/target/EXO.codex", mkTracking 3 0 0 0)]%string in
  let updated := [("files/target/GEN.codex", mkTracking 9 5 0 0)]%string in
  exists table' changed files',
    updateUpdatedModTimes trackedFiles updated false = Ok (table', changed) /\
    getFilesToUpdate table' = Ok files' /\
    forall path, path ∈ files'.*1 <-> path ∈ files.*1 /\ path ∉ updated.*1.
Proof.
  intros files updated.
  apply (updateUpdatedModTimes_settles trackedFiles files updated).
  - decide_by_evaluation.
  - decide_by_evaluation.
  - reflexivity.
  - decide_by_evaluation.
  - intros entry Hentry. apply list_elem_of_singleton in Hentry as ->.
    apply elem_of_cons. by left.
Defined.

Lemma addLogMessages_last_hundred_witness :
  let st' := (addLogMessages (mkLogState [] false) twoLogs).1 in
  logMessages st' = slice_last maxLogMessages ([] ++ twoLogs) /\
  (length (logMessages st') <= maxLogMessages)%nat /\
  (twoLogs <> [] -> updateWebviewTimeout st' = true).
Proof.
  apply (addLogMessages_last_hundred twoLogs (mkLogState [] false) []).
  reflexivity.
Defined.

Lemma setKey_lookUpKey_witness :
  let data := VObj [("vref", VStr "GEN 1:1")]%string in
  let keys := ["fresh_translation"; "text"]%string in
  exists data',
    setKey data keys (VStr "Au commencement") = Ok data' /\
    (forall d, lookUpKey data' (map KStr keys) d true
               = Ok (VStr "Au commencement")) /\
    (forall d, lookUpKey data' (map KStr keys) d false
               = Ok (VStr "Au commencement")) /\
    exists props props',
      data = VObj props /\ data' = VObj props' /\
      forall k, head keys <> Some k -> own props' k = own props k.
Proof.
  intros data keys. eexists.
  assert (H : setKey data keys (VStr "Au commencement") = Ok _)
    by (vm_compute; reflexivity).
  split; [exact H|].
  exact (setKey_lookUpKey data keys (VStr "Au commencement") _
           ltac:(discriminate) H).
Defined.

Lemma setKey_creates_path_witness :
  exists props',
    setKey (VObj []) ["fresh_translation"; "text"]%string (VStr "Au commencement")
    = Ok (VObj props') /\
    (forall d, lookUpKey (VObj props')
                         (map KStr ["fresh_translation"; "text"]%string) d true
               = Ok (VStr "Au commencement")) /\
    (forall k', k' <> "fresh_translation"%string -> own props' k' = own [] k').
Proof.
  apply (setKey_creates_path [] "fresh_translation" ["text"]%string).
  - reflexivity.
  - repeat constructor.
Defined.

Lemma setKey_through_primitive_witness :
  setKey (VObj [("fresh_translation", VStr "Au commencement")]%string)
         (["fresh_translation"%string] ++ ["text"%string]) (VStr "Et Dieu dit")
  = Throw TypeError.
Proof.
  apply (setKey_through_primitive _ ["fresh_translation"]%string ["text"]%string
           _ (VStr "Au commencement")).
  - reflexivity.
  - reflexivity.
  - discriminate.
Defined.

Lemma loadJsonl_lines_witness :
  let lines := ["{" +:+ String ExampleCodec.quote "vref"
                +:+ String ExampleCodec.quote ":"
                +:+ String ExampleCodec.quote "GEN 1:1"
                +:+ String ExampleCodec.quote "}"; "  "; "not json"; ""]%string in
  let fs : Files := <[ "reflection.jsonl"%string := join_lines lines ]> ∅ in
  loadJsonl ExampleCodec.parse fs "reflection.jsonl" (Some [])
  = parse_lines ExampleCodec.parse
      (filter (fun line => negb (String.eqb (trim line) "")) lines).
Proof.
  intros lines fs.
  apply (loadJsonl_lines ExampleCodec.parse fs "reflection.jsonl" lines (Some [])).
  - apply lookup_insert_eq.
  - repeat constructor.
Defined.

Lemma notebookDataToIdToContent_texts_witness :
  notebookDataToIdToContent exampleNotebook
  = Ok [("GEN 1:1"%string, VStr "Au commencement")] /\
  Forall (fun entry => exists text, entry.2 = VStr text /\ tagFree text = true)
         [("GEN 1:1"%string, VStr "Au commencement")].
Proof.
  assert (H : notebookDataToIdToContent exampleNotebook
              = Ok [("GEN 1:1"%string, VStr "Au commencement")])
    by (vm_compute; reflexivity).
  split; [exact H|].
  exact (notebookDataToIdToContent_texts exampleNotebook _ H).
Defined.

Lemma computeTranslationGrade_again_witness :
  exists averageGrade graded,
    computeTranslationGrade [exampleVerse; partlyGradedVerse] exampleConfig
    = Ok (averageGrade, graded) /\
    computeTranslationGrade graded exampleConfig = Ok (averageGrade, graded).
Proof.
  eexists. eexists.
  assert (H : computeTranslationGrade [exampleVerse; partlyGradedVerse]
                exampleConfig = Ok (_, _)) by (vm_compute; reflexivity).
  split; [exact H|].
  exact (computeTranslationGrade_again _ _ _ _ H).
Defined.

End MoreExamples.
